(** * Magic-Mirror: retry-governed image generation and prompt composition

  A shallow embedding of the image-generation service
  (prepareImageForAPI, withRetry, generateMarketingImage,
  generateVariantImage), of the earlier service file
  src/services/geminiService.ts, and of the A/B fan-out handler
  handleRunABTest of the design studio component.

  Conventions.
  - JavaScript strings are [string]s; the text handled here (data URIs,
    base64 payloads, prompt clauses) is compared code unit by code unit,
    which is what [String.prefix] and the functions of [JsString] do.
  - A promise is represented by its eventual outcome, [Ok v] or
    [Throw e]; an [async] function is a state-passing function whose
    state records the calls it makes to the outside world.
  - The replies of the outside world (network, FileReader, the hosted
    model, Math.random) are parameters of the functions that consume
    them.
  - A number is a binary64 number, given by its exact value; the
    arithmetic on numbers rounds each result to the nearest binary64
    number ([Binary64]). *)

From Stdlib Require Import String Ascii List ZArith Bool Lia.
From Stdlib Require Import QArith Qround Qpower Permutation.
Import ListNotations.

#[local] Open Scope string_scope.
#[local] Open Scope list_scope.
#[local] Open Scope Z_scope.

(* ------------------------------------------------------------------ *)
(** ** String.prototype methods used by the service *)

Module JsString.

(** [s.startsWith(p)] *)
Definition startsWith (s p : string) : bool := String.prefix p s.

(** [s.includes(p)]: [p] occurs at some position of [s]. *)
Fixpoint includes (s p : string) : bool :=
  String.prefix p s ||
  match s with
  | EmptyString => false
  | String _ s' => includes s' p
  end.

(** One pass of [s.split(sep)] for a non-empty [sep]: [skip] counts the
    code units of a separator that was just matched and still has to be
    stepped over, [cur] is the piece being collected. *)
Fixpoint split_from (sep : string) (skip : nat) (cur s : string) : list string :=
  match s with
  | EmptyString => [cur]
  | String c s' =>
      match skip with
      | S k => split_from sep k cur s'
      | O =>
          if String.prefix sep s
          then cur :: split_from sep (String.length sep - 1) EmptyString s'
          else split_from sep O (cur ++ String c EmptyString) s'
      end
  end.

Fixpoint code_units (s : string) : list string :=
  match s with
  | EmptyString => []
  | String c s' => String c EmptyString :: code_units s'
  end.

(** [s.split(sep)]; with the empty separator JavaScript returns the code
    units one by one. *)
Definition split (s sep : string) : list string :=
  match sep with
  | EmptyString => code_units s
  | _ => split_from sep O EmptyString s
  end.

(** [arr[i]]: [None] is JavaScript's [undefined]. *)
Definition at_index {A} (arr : list A) (i : nat) : option A := nth_error arr i.

(** A template literal prints [undefined] for a missing value. *)
Definition interpolate (v : option string) : string :=
  match v with
  | Some s => s
  | None => "undefined"
  end.

(** The code units of a string, as a list. *)
Fixpoint chars (s : string) : list ascii :=
  match s with
  | EmptyString => []
  | String c s' => c :: chars s'
  end.

(** [clear_of sep a rest]: in [a ++ rest] no occurrence of [sep] starts
    inside [a]. *)
Fixpoint clear_of (sep a rest : string) : Prop :=
  match a with
  | EmptyString => True
  | String c a' => String.prefix sep (a ++ rest) = false /\ clear_of sep a' rest
  end.

End JsString.

(* ------------------------------------------------------------------ *)
(** ** Exceptions, outcomes and asynchronous computations *)

Module Js.

(** What the service reads of a caught value: [error.status] (when it is
    a number) and [error.message] (when it is a string). A thrown value
    that is not an object (a string, a number) has neither. *)
Record ErrorObject : Type := mkError {
  status : option Z;
  message : option string
}.

(** A thrown value: [undefined] (what [withRetry] throws when it made no
    attempt) or anything that has properties. *)
Inductive thrown : Type :=
| Undefined
| Obj (e : ErrorObject).

(** [new Error(msg)] *)
Definition Error (msg : string) : thrown :=
  Obj {| status := None; message := Some msg |}.

(** The TypeError of reading property [prop] of [undefined]. *)
Definition TypeError_reading (prop : string) : thrown :=
  Error ("Cannot read properties of undefined (reading '" ++ prop ++ "')").

Inductive outcome (T : Type) : Type :=
| Ok (v : T)
| Throw (e : thrown).
Arguments Ok {T} v.
Arguments Throw {T} e.

(** An async function over a world [W]. *)
Definition async (W T : Type) : Type := W -> outcome T * W.

Definition ret {W T} (v : T) : async W T := fun w => (Ok v, w).
Definition throw {W T} (e : thrown) : async W T := fun w => (Throw e, w).

(** [await m] followed by [k]. *)
Definition bind {W A B} (m : async W A) (k : A -> async W B) : async W B :=
  fun w =>
    match m w with
    | (Ok v, w') => k v w'
    | (Throw e, w') => (Throw e, w')
    end.

(** [try { body } catch (e) { handler(e) }] *)
Definition try_catch {W T} (body : async W T) (handler : thrown -> async W T)
  : async W T :=
  fun w =>
    match body w with
    | (Ok v, w') => (Ok v, w')
    | (Throw e, w') => handler e w'
    end.

End Js.

Import Js.

Declare Scope async_scope.
Delimit Scope async_scope with async.
Notation "x <- m ;; k" := (Js.bind m (fun x => k))
(at level 61, m at next level, right associativity) : async_scope.
Notation "m ;;; k" := (Js.bind m (fun _ => k))
(at level 61, right associativity) : async_scope.

(* ------------------------------------------------------------------ *)
(** ** The retry wrapper *)

Module Retry.

(** What [withRetry] itself does to the outside world: the warning it
    prints (attempt number [i + 1], the [delay] it names, the error) and
    the timer it awaits. *)
Inductive RetryEvent : Type :=
| Warned (attempt : Z) (announced : Z) (error : thrown)
| Waited (ms : Z).

Abbreviation RetryLog := (list RetryEvent).

(** The test of the [catch] block on an error that has properties:
    [error.status === 503 || error.status === 500 ||
     error.message?.includes('Internal error') ||
     error.message?.includes('Overloaded')] *)
Definition status_is (e : ErrorObject) (code : Z) : bool :=
  match status e with
  | Some n => n =? code
  | None => false
  end.

Definition message_includes (e : ErrorObject) (marker : string) : bool :=
  match message e with
  | Some m => JsString.includes m marker
  | None => false
  end.

Definition is_retryable (e : ErrorObject) : bool :=
  status_is e 503 || status_is e 500 ||
  message_includes e "Internal error" || message_includes e "Overloaded".

(** The [for] loop of [withRetry]; [fuel] is the number of iterations left
    ([retries - i]), [lastError] the variable of the same name. The
    operation acts on its own world [W]; the wrapper appends to its log. *)
Fixpoint retry_loop {W T} (operation : async W T) (delay : Z)
    (fuel : nat) (i : Z) (lastError : thrown) : async (W * RetryLog) T :=
  fun st =>
    match fuel with
    | O => (Throw lastError, st)
    | S fuel' =>
        let '(w, log) := st in
        match operation w with
        | (Ok v, w') => (Ok v, (w', log))
        | (Throw error, w') =>
            match error with
            | Undefined => (Throw (TypeError_reading "status"), (w', log))
            | Obj e =>
                if is_retryable e
                then retry_loop operation delay fuel' (i + 1) error
                       (w', log ++ [Warned (i + 1) delay error; Waited (delay * (i + 1))])
                else (Throw error, (w', log))
            end
        end
    end.

Definition withRetry {W T} (operation : async W T) (retries delay : Z)
  : async (W * RetryLog) T :=
  retry_loop operation delay (Z.to_nat retries) 0 Undefined.

(** The default arguments [retries = 3, delay = 1000]. *)
Definition default_retries : Z := 3.
Definition default_delay : Z := 1000.

(** An operation together with a journal of the outcomes of its
    invocations, oldest first: the journal grows by one entry each time
    the operation is invoked. *)
Definition journaled {W T} (operation : async W T)
  : async (W * list (outcome T)) T :=
  fun '(w, journal) =>
    let '(r, w') := operation w in (r, (w', journal ++ [r])).

(** The world after [k] invocations of the operation. *)
Fixpoint after_invocations {W T} (operation : async W T) (k : nat) (w : W) : W :=
  match k with
  | O => w
  | S k' => snd (operation (after_invocations operation k' w))
  end.

(** The log of a run whose attempts [i, i + 1, ...] failed with [errors]
    and were each followed by a wait of [delay * (attempt index + 1)]. *)
Fixpoint linear_log (delay : Z) (i : Z) (errors : list thrown) : RetryLog :=
  match errors with
  | [] => []
  | e :: rest =>
      Warned (i + 1) delay e :: Waited (delay * (i + 1))
      :: linear_log delay (i + 1) rest
  end.

Definition waits (log : RetryLog) : list Z :=
  flat_map (fun ev => match ev with Waited ms => [ms] | Warned _ _ _ => [] end) log.

(** An attempt that failed with an error the wrapper retries. *)
Definition retried {T} (r : outcome T) : bool :=
  match r with
  | Throw (Obj e) => is_retryable e
  | _ => false
  end.

End Retry.

Import Retry.

(* ------------------------------------------------------------------ *)
(** ** The outside world of the service *)

Module Remote.

(** [FileReader.readAsDataURL]: [onloadend] with a result, or [onerror]. *)
Inductive ReaderReply : Type :=
| ReaderLoaded (result : string)
| ReaderFailed (event : thrown).

(** [response.blob()] *)
Inductive BlobReply : Type :=
| BlobRejected (e : thrown)
| BlobRead (reader : ReaderReply).

(** [fetch(input, { mode: 'cors' })]: rejected (the network failed, or the
    cross-origin policy denied the request), or a response. *)
Inductive FetchReply : Type :=
| FetchRejected (e : thrown)
| FetchResponse (ok : bool) (statusText : string) (blob : BlobReply).

Record ImageConfig : Type := mkImageConfig {
  aspectRatio : string;
  imageSize : string
}.

(** The argument of [ai.models.generateContent]. *)
Record GenRequest : Type := mkRequest {
  model : string;
  text : string;
  mimeType : string;
  data : option string;
  imageConfig : option ImageConfig
}.

Record InlineData : Type := mkInlineData {
  inline_mimeType : option string;
  inline_data : option string
}.

Record Part : Type := mkPart {
  part_text : option string;
  inlineData : option InlineData
}.

Record Content : Type := mkContent { parts : option (list Part) }.
Record Candidate : Type := mkCandidate { content : option Content }.
Record GenResponse : Type := mkResponse { candidates : option (list Candidate) }.

(** The replies of the network and of the hosted model; the number is the
    count of earlier calls of the same kind. *)
Record Environment : Type := mkEnv {
  fetch_reply : nat -> string -> FetchReply;
  generateContent_reply : nat -> GenRequest -> outcome GenResponse
}.

(** What the service has done so far, oldest first. *)
Record World : Type := mkWorld {
  fetched : list string;
  requests : list GenRequest;
  console_error : list (string * thrown)
}.

Definition fresh : World :=
  {| fetched := []; requests := []; console_error := [] |}.

Definition log_error (label : string) (e : thrown) : async World unit :=
  fun w =>
    (Ok tt, {| fetched := fetched w; requests := requests w;
               console_error := console_error w ++ [(label, e)] |}).

Definition fetch (env : Environment) (input : string) : async World FetchReply :=
  fun w =>
    (Ok (fetch_reply env (List.length (fetched w)) input),
     {| fetched := fetched w ++ [input]; requests := requests w;
        console_error := console_error w |}).

Definition generateContent (env : Environment) (req : GenRequest)
  : async World GenResponse :=
  fun w =>
    (generateContent_reply env (List.length (requests w)) req,
     {| fetched := fetched w; requests := requests w ++ [req];
        console_error := console_error w |}).

(** The failure of a fetch, if it is one: the rejection of [fetch], the
    error thrown for a response that is not [ok], or the rejection of
    [response.blob()]. *)
Definition fetch_failure (reply : FetchReply) : option thrown :=
  match reply with
  | FetchRejected e => Some e
  | FetchResponse false statusText _ =>
      Some (Error ("Failed to fetch image: " ++ statusText))
  | FetchResponse true _ (BlobRejected e) => Some e
  | FetchResponse true _ (BlobRead _) => None
  end.

End Remote.

Import Remote.

(* ------------------------------------------------------------------ *)
(** ** The generation service with retry (src/unnamed/part_002) *)

Module GeminiService.

#[local] Open Scope async_scope.

Definition nl : string := String (ascii_of_nat 10) EmptyString.

Record GenerationConfig : Type := mkConfig {
  blackAndWhite : bool;
  strictPose : bool;
  keepFace : bool;
  lockLocation : bool;
  lockProduct : bool
}.

Record GenerationResult : Type := mkResult { imageUrl : string }.

Definition source_image_error : thrown :=
  Error "Could not process source image. If using a demo image, ensure CORS is allowed.".

(** The [try] block of the remote-URL case up to the [return]: it yields
    the FileReader whose promise is returned. *)
Definition read_remote (env : Environment) (input : string) : async World ReaderReply :=
  reply <- fetch env input ;;
  match reply with
  | FetchRejected e => throw e
  | FetchResponse ok statusText blob =>
      if negb ok
      then throw (Error ("Failed to fetch image: " ++ statusText))
      else match blob with
           | BlobRejected e => throw e
           | BlobRead reader => ret reader
           end
  end.

(** [prepareImageForAPI]. The promise built around the FileReader is
    returned without [await]: it settles outside the [try] block, so a
    reader error is not rewritten by the [catch]. The result is a string or
    [undefined] (a reader result without a comma). *)
Definition prepareImageForAPI (env : Environment) (input : string)
  : async World (option string) :=
  if JsString.startsWith input "http" then
    reader <- try_catch (read_remote env input)
                (fun e => log_error "Image processing error:" e ;;;
                          throw source_image_error) ;;
    match reader with
    | ReaderLoaded res => ret (JsString.at_index (JsString.split res ",") 1)
    | ReaderFailed event => throw event
    end
  else if JsString.includes input "base64," then
    ret (JsString.at_index (JsString.split input "base64,") 1)
  else
    ret (Some input).

(** *** The prompt composer of generateMarketingImage *)

Definition style_commercial : string :=
  "Commercial, High Key, 8k Resolution, Sharp Focus.".
Definition style_monochrome : string :=
  "Black and White Photography, High Contrast, Noir Style, Ansel Adams aesthetic.".

Definition pose_base : string :=
  "The object being held (the product) MUST remain exactly as it appears. Ensure the hand grip is natural.".
Definition pose_strict : string :=
  " STRICTLY mimic the exact arm angle, hand grip, and body posture of the reference image. Do not move the arm.".
Definition pose_free : string :=
  " You have creative freedom with the pose. Analyze the product type and use your best judgement to select the most flattering angle, grip, and body posture to showcase it. Change the arm position to what sells this specific product best. Do not feel bound by the original posture.".

Definition face_keep : string :=
  "Keep the user's face and identity recognizable, but enhance lighting and skin texture for a professional look.".
Definition face_swap : string :=
  "Generative swap: Replace the person in the image with a generated model. Use your best judgement to select a model (age, gender, style) that creates the strongest appeal for this specific product demographic. Do NOT preserve the original identity.".

Definition location_lock : string :=
  "Maintain the original background environment and geometry. Do not generate a new background, only enhance the existing one.".

Definition product_focus : string :=
  "The object held in the hand is the focus.".
Definition product_strict : string :=
  nl ++ "        CRITICAL - PRODUCT PRESERVATION:"
  ++ nl ++ "        The object held in the hand is a real commercial product. "
  ++ nl ++ "        You MUST preserve the PRODUCT TEXT, LOGOS, and LABEL DETAILS exactly as they appear in the reference image."
  ++ nl ++ "        Do not hallucinate new text on the label. Do not blur or distort the brand name."
  ++ nl ++ "        Treat the product pixels as ground truth."
  ++ nl ++ "        ".

Definition stylePrompt (config : GenerationConfig) : string :=
  if blackAndWhite config then style_monochrome else style_commercial.

Definition posePrompt (config : GenerationConfig) : string :=
  if strictPose config then pose_base ++ pose_strict else pose_base ++ pose_free.

Definition facePrompt (config : GenerationConfig) : string :=
  if keepFace config then face_keep else face_swap.

Definition locationPrompt (config : GenerationConfig) : string :=
  if lockLocation config then location_lock else "".

Definition productPreservationPrompt (config : GenerationConfig) : string :=
  if lockProduct config then product_strict else product_focus.

(** The template literal [prompt]. *)
Definition buildPrompt (userPrompt : string) (config : GenerationConfig) : string :=
  (nl ++ "        Professional Product Photography. "
   ++ nl ++ "        Task: Transform this reference image into a high-end commercial advertisement."
   ++ nl ++ "        "
   ++ nl ++ "        ")
  ++ productPreservationPrompt config
  ++ (nl ++ "  " ++ nl ++ "        Product Integrity: ")
  ++ posePrompt config
  ++ (nl ++ "        Subject: ")
  ++ facePrompt config
  ++ (nl ++ "        Context/Background: ")
  ++ userPrompt
  ++ ". "
  ++ locationPrompt config
  ++ (nl ++ "        Style: ")
  ++ stylePrompt config
  ++ (nl ++ "      ").

(** *** Reading the response *)

(** [imageResponse.candidates?.[0]?.content?.parts || []] *)
Definition response_parts (imageResponse : GenResponse) : list Part :=
  match candidates imageResponse with
  | Some (candidate :: _) =>
      match content candidate with
      | Some c => match parts c with Some ps => ps | None => [] end
      | None => []
      end
  | _ => []
  end.

Definition png_prefix : string := "data:image/png;base64,".

(** The response carries a part with inline data. *)
Definition has_inline_image (imageResponse : GenResponse) : bool :=
  existsb (fun part => match inlineData part with Some _ => true | None => false end)
    (response_parts imageResponse).

(** The [for ... of] loop with its [break]: the first part that carries
    inline data decides; [generatedImageUrl] is the value before the loop. *)
Fixpoint scan_parts (ps : list Part) (generatedImageUrl : string) : string :=
  match ps with
  | [] => generatedImageUrl
  | part :: rest =>
      match inlineData part with
      | Some inline => png_prefix ++ JsString.interpolate (inline_data inline)
      | None => scan_parts rest generatedImageUrl
      end
  end.

(** [!s] for a string. *)
Definition falsy (s : string) : bool :=
  match s with
  | EmptyString => true
  | String _ _ => false
  end.

(** *** generateMarketingImage *)

Definition marketing_model : string := "gemini-3-pro-image-preview".

Definition marketing_request (cleanBase64 : option string) (prompt : string)
  : GenRequest :=
  {| model := marketing_model; text := prompt;
     mimeType := "image/jpeg"; data := cleanBase64;
     imageConfig := Some {| aspectRatio := "3:4"; imageSize := "2K" |} |}.

(** The operation handed to [withRetry]: one attempt. The client object is
    built from the ambient API key and makes no call of its own. *)
Definition marketing_attempt (env : Environment) (base64Image userPrompt : string)
    (config : GenerationConfig) : async World GenerationResult :=
  try_catch
    (cleanBase64 <- prepareImageForAPI env base64Image ;;
     let prompt := buildPrompt userPrompt config in
     imageResponse <- generateContent env (marketing_request cleanBase64 prompt) ;;
     let generatedImageUrl := scan_parts (response_parts imageResponse) "" in
     let generatedImageUrl :=
       if falsy generatedImageUrl then base64Image else generatedImageUrl in
     ret {| imageUrl := generatedImageUrl |})
    (fun error => log_error "Gemini Generation Error:" error ;;; throw error).

Definition generateMarketingImage (env : Environment) (base64Image userPrompt : string)
    (config : GenerationConfig) : async (World * RetryLog) GenerationResult :=
  withRetry (marketing_attempt env base64Image userPrompt config)
    default_retries default_delay.

(** *** generateVariantImage *)

Definition variant_model : string := "gemini-2.5-flash-image".

Definition variantPrompt (setting angle : string) : string :=
  (nl ++ "        Product Photography Remix."
   ++ nl ++ "        Object: Keep the main object/product from the input image exactly as is."
   ++ nl ++ "        Setting: ")
  ++ setting
  ++ ("." ++ nl ++ "        Camera Angle/Composition: ")
  ++ angle
  ++ ("." ++ nl ++ "        Lighting: Professional studio lighting matching the setting."
      ++ nl ++ "        Style: High resolution, photorealistic, advertising standard."
      ++ nl ++ "      ").

Definition no_image_error : thrown := Error "No image generated from Flash model".

Definition variant_request (cleanBase64 : option string) (prompt : string)
  : GenRequest :=
  {| model := variant_model; text := prompt;
     mimeType := "image/jpeg"; data := cleanBase64;
     imageConfig := None |}.

Definition variant_attempt (env : Environment) (base64Image setting angle : string)
  : async World GenerationResult :=
  try_catch
    (cleanBase64 <- prepareImageForAPI env base64Image ;;
     let prompt := variantPrompt setting angle in
     imageResponse <- generateContent env (variant_request cleanBase64 prompt) ;;
     let generatedImageUrl := scan_parts (response_parts imageResponse) "" in
     if falsy generatedImageUrl
     then throw no_image_error
     else ret {| imageUrl := generatedImageUrl |})
    (fun error => log_error "Gemini Flash Variant Error:" error ;;; throw error).

Definition generateVariantImage (env : Environment) (base64Image setting angle : string)
  : async (World * RetryLog) GenerationResult :=
  withRetry (variant_attempt env base64Image setting angle)
    default_retries default_delay.

(** The world after a single attempt that failed on fetching the source
    image: one fetch, no request, and the two console lines. *)
Definition after_fetch_failure (w : World) (img : string) (cause : thrown)
    (label : string) : World :=
  {| fetched := (fetched w ++ [img])%list;
     requests := requests w;
     console_error :=
       (console_error w ++ [("Image processing error:", cause);
                            (label, source_image_error)])%list |}.

End GeminiService.

(* ------------------------------------------------------------------ *)
(** ** The earlier service file (src/services/geminiService.ts) *)

Module LegacyService.

#[local] Open Scope async_scope.

Import GeminiService.

Definition pose_strict : string :=
  " STRICTLY mimic the exact arm angle, hand grip, and body posture of the reference image.".

Definition face_replace : string :=
  "Replace the person with a professional model or character that fits the context.".

Definition product_strict : string :=
  nl ++ "      CRITICAL - PRODUCT PRESERVATION:"
  ++ nl ++ "      The object held in the hand is a real commercial product. "
  ++ nl ++ "      You MUST preserve the PRODUCT TEXT, LOGOS, and LABEL DETAILS exactly as they appear in the reference image."
  ++ nl ++ "      Do not hallucinate new text on the label. Do not blur or distort the brand name."
  ++ nl ++ "      Treat the product pixels as ground truth."
  ++ nl ++ "      ".

Definition posePrompt (config : GenerationConfig) : string :=
  if strictPose config then pose_base ++ pose_strict else pose_base.

Definition facePrompt (config : GenerationConfig) : string :=
  if keepFace config then face_keep else face_replace.

Definition productPreservationPrompt (config : GenerationConfig) : string :=
  if lockProduct config then product_strict else product_focus.

Definition buildPrompt (userPrompt : string) (config : GenerationConfig) : string :=
  (nl ++ "      Professional Product Photography. "
   ++ nl ++ "      Task: Transform this reference image into a high-end commercial advertisement."
   ++ nl ++ "      "
   ++ nl ++ "      ")
  ++ productPreservationPrompt config
  ++ (nl ++ nl ++ "      Product Integrity: ")
  ++ posePrompt config
  ++ (nl ++ "      Subject: ")
  ++ facePrompt config
  ++ (nl ++ "      Context/Background: ")
  ++ userPrompt
  ++ ". "
  ++ locationPrompt config
  ++ (nl ++ "      Style: ")
  ++ stylePrompt config
  ++ (nl ++ "    ").

(** [base64Image.includes('base64,') ? base64Image.split('base64,')[1] : base64Image] *)
Definition cleanBase64 (base64Image : string) : option string :=
  if JsString.includes base64Image "base64,"
  then JsString.at_index (JsString.split base64Image "base64,") 1
  else Some base64Image.

(** No retry and no fetch here; the fallback is the initial value of
    [generatedImageUrl]. *)
Definition generateMarketingImage (env : Environment) (base64Image userPrompt : string)
    (config : GenerationConfig) : async World GenerationResult :=
  try_catch
    (let prompt := buildPrompt userPrompt config in
     imageResponse <- generateContent env
                        (marketing_request (cleanBase64 base64Image) prompt) ;;
     let generatedImageUrl := scan_parts (response_parts imageResponse) base64Image in
     ret {| imageUrl := generatedImageUrl |})
    (fun error => log_error "Gemini Generation Error:" error ;;; throw error).

End LegacyService.

(* ------------------------------------------------------------------ *)
(** ** Arithmetic on JavaScript numbers *)

Module Binary64.

#[local] Open Scope Q_scope.

(** A JavaScript number is a binary64 number; a finite one is given here
    by its exact value, a rational. The result of an arithmetic operation
    is the exact result rounded to the nearest binary64 number, the one
    with the even significand on a tie. Overflow is left out: the numbers
    of this program stay far below [2^1024]. *)

(** The exponent [e] with [2^e <= x < 2^(e+1)], for a positive [x]. *)
Definition ilog2 (x : Q) : Z :=
  let e0 := (Z.log2 (Qnum x) - Z.log2 (Z.pos (Qden x)))%Z in
  if Qle_bool (2 ^ e0)%Q x then e0 else (e0 - 1)%Z.

(** The exponent of the last place of the binary64 numbers around a
    positive [x]: 52 places below the leading one, and no lower than
    [-1074], the exponent of the subnormal numbers. *)
Definition exponent (x : Q) : Z := (Z.max (ilog2 x) (-1022) - 52)%Z.

(** The integer nearest to [t], the even one of the two when [t] lies
    half-way. *)
Definition round_half_even (t : Q) : Z :=
  let f := Qfloor t in
  match ((t - inject_Z f) ?= (1 # 2))%Q with
  | Lt => f
  | Eq => if Z.even f then f else (f + 1)%Z
  | Gt => (f + 1)%Z
  end.

Definition round_positive (x : Q) : Q :=
  let k := exponent x in
  Qred (inject_Z (round_half_even (x * 2 ^ (- k))) * 2 ^ k).

(** The binary64 number that a real result is rounded to (round to
    nearest, ties to even). *)
Definition round (x : Q) : Q :=
  match x ?= 0 with
  | Eq => 0
  | Gt => round_positive x
  | Lt => - round_positive (- x)
  end.

(** The rationals that are binary64 numbers. *)
Definition is_binary64 (x : Q) : bool := Qeq_bool (round x) x.

(** [x * y], [x + y] and [x / y] on numbers. *)
Definition mul (x y : Q) : Q := round (x * y).
Definition add (x y : Q) : Q := round (x + y).
Definition div (x y : Q) : Q := round (x / y).

End Binary64.

(* ------------------------------------------------------------------ *)
(** ** The A/B fan-out of the design studio (src/unnamed/part_000) *)

Module Preset.

(** An entry of [SETTINGS] or [ANGLES]. *)
Record t : Type := mk { id : string; label : string; prompt : string }.

End Preset.

Module DesignStudio.

#[local] Open Scope async_scope.

Import GeminiService.

Definition SETTINGS : list Preset.t :=
  [ Preset.mk "marble" "Marble Studio" "on a luxury white marble podium, soft lighting";
    Preset.mk "neon" "Cyber Street" "in a neon-lit cyberpunk street at night, wet pavement reflection";
    Preset.mk "nature" "Deep Nature" "surrounded by lush green tropical leaves and moss, sunlight filtering through";
    Preset.mk "minimal" "Ultra Minimal" "in a pure white void, floating, soft diffuse shadow";
    Preset.mk "kitchen" "Cozy Kitchen" "on a rustic wooden kitchen table, morning sunlight, lifestyle photography";
    Preset.mk "bananas" "Go Bananas 🍌" "Creative wild card! The AI will analyze the product and generate a totally unique, surprise setting that maximizes visual impact." ].

Definition ANGLES : list Preset.t :=
  [ Preset.mk "eye" "Eye Level" "straight on eye-level view, symmetrical composition";
    Preset.mk "top" "Flat Lay" "top-down flat lay view, organized composition";
    Preset.mk "low" "Hero Angle" "low angle looking up, dramatic hero shot";
    Preset.mk "macro" "Macro Detail" "extreme close-up macro shot, focus on texture" ].

(** The numbers are given by their exact values; the arithmetic on them
    is that of [Binary64]. *)
Record Stats : Type := mkStats { ctr : Q; score : Z; impressions : Z }.

Record ABTestResult : Type := mkAB {
  id : string;
  image : string;
  settingName : string;
  stats : Stats
}.

(** *** Promise.allSettled *)

(** An entry of the array [Promise.allSettled] builds; [pending] is a slot
    whose promise has not settled yet. *)
Inductive settled (T : Type) : Type :=
| pending
| fulfilled (value : T)
| rejected (reason : thrown).
Arguments pending {T}.
Arguments fulfilled {T} value.
Arguments rejected {T} reason.

Definition settle {T} (r : outcome T) : settled T :=
  match r with
  | Ok v => fulfilled v
  | Throw e => rejected e
  end.

(** [arr[i] = v] inside the bounds of [arr]. *)
Fixpoint set_index {A} (arr : list A) (i : nat) (v : A) : list A :=
  match arr, i with
  | [], _ => []
  | _ :: rest, O => v :: rest
  | x :: rest, S i' => x :: set_index rest i' v
  end.

(** The promises settle in the order [completion] (indices into
    [promises]); each one writes the slot of its own index. The array is
    handed over once every promise has settled, so [completion] names
    every index. *)
Definition allSettled {T} (promises : list (outcome T)) (completion : list nat)
  : list (settled T) :=
  fold_left
    (fun values k =>
       match nth_error promises k with
       | Some r => set_index values k (settle r)
       | None => values
       end)
    completion
    (map (fun _ => pending) promises).

(** *** Math.random and the synthetic statistics *)

(** [random k] is the number that the call number [k] of [Math.random]
    returns. *)
Definition math_random (random : nat -> Q) : async nat Q :=
  fun draws => (Ok (random draws), S draws).

(** [Math.floor(r * n)] *)
Definition floor_scaled (r : Q) (n : Z) : Z := Qfloor (Binary64.mul r (inject_Z n)).

(** The digits of [x.toFixed(1)], as the integer [n] for which [n / 10] is
    nearest to [x], the larger one on a tie; the sign is set apart first. *)
Definition tenths (x : Q) : Z :=
  if Qle_bool 0 x then Qfloor (x * 10 + (1 # 2))%Q
  else - Qfloor (- x * 10 + (1 # 2))%Q.

(** [+(x).toFixed(1)]: the number nearest to the decimal that [toFixed]
    prints. *)
Definition toFixed1 (x : Q) : Q := Binary64.round (inject_Z (tenths x) / 10)%Q.

(** [arr[z]] for a numeric index. *)
Definition index_Z {A} (arr : list A) (z : Z) : option A :=
  if z <? 0 then None else nth_error arr (Z.to_nat z).

(** The object pushed for a fulfilled slot. *)
Definition make_result (random : nat -> Q) (slot : string) (value : GenerationResult)
    (setting : Preset.t) (shown : Z) : async nat ABTestResult :=
  r1 <- math_random random ;;
  let score := floor_scaled r1 25 + 70 in
  r2 <- math_random random ;;
  ret {| id := slot;
         image := imageUrl value;
         settingName := Preset.label setting;
         stats := {| ctr := toFixed1 (Binary64.add (Binary64.mul r2 3) (15 # 10));
                     score := score;
                     impressions := shown |} |}.

(** [if (results[k].status === 'fulfilled') validResults.push(...)] *)
Definition process_slot (random : nat -> Q) (results : list (settled GenerationResult))
    (k : nat) (slot : string) (setting : Preset.t) (shown : Z)
    (validResults : list ABTestResult) : async nat (list ABTestResult) :=
  match JsString.at_index results k with
  | Some (fulfilled value) =>
      r <- make_result random slot value setting shown ;;
      ret (validResults ++ [r])
  | Some _ => ret validResults
  | None => throw (TypeError_reading "status")
  end.

(** [otherSettings] and the pick [otherSettings[Math.floor(r * length)]]. *)
Definition otherSettings (selectedSetting : Preset.t) : list Preset.t :=
  filter (fun s => negb (Preset.id s =? Preset.id selectedSetting)%string) SETTINGS.

Definition pick_challenger (r : Q) (selectedSetting : Preset.t) : option Preset.t :=
  index_Z (otherSettings selectedSetting)
    (floor_scaled r (Z.of_nat (List.length (otherSettings selectedSetting)))).

(** The promise of the call at array position [k], by its outcome. *)
Definition launch (envs : nat -> Environment) (k : nat)
    (originalImage setting angle : string) : outcome GenerationResult :=
  fst (generateVariantImage (envs k) originalImage setting angle (fresh, [])).

Definition both_failed_error : thrown := Error "Both variants failed to generate.".

(** The body of the [try] block of [handleRunABTest]. [envs k] is the
    outside world the call at array position [k] talks to; the state is
    the number of draws taken from [Math.random]. *)
Definition ab_test_body (random : nat -> Q) (envs : nat -> Environment)
    (completion : list nat) (originalImage : string)
    (selectedSetting selectedAngle : Preset.t) : async nat (list ABTestResult) :=
  let variantA_Setting := selectedSetting in
  r <- math_random random ;;
  match pick_challenger r selectedSetting with
  | None => throw (TypeError_reading "prompt")
  | Some variantB_Setting =>
      let results :=
        allSettled
          [ launch envs 0 originalImage
              (Preset.prompt variantA_Setting) (Preset.prompt selectedAngle);
            launch envs 1 originalImage
              (Preset.prompt variantB_Setting) (Preset.prompt selectedAngle) ]
          completion in
      validResults <- process_slot random results 0 "A" variantA_Setting 1240 [] ;;
      validResults <- process_slot random results 1 "B" variantB_Setting 1180 validResults ;;
      if (List.length validResults =? 0)%nat
      then throw both_failed_error
      else ret validResults
  end.

(** The state of the component that the handler reads and writes. *)
Record Studio : Type := mkStudio {
  originalImage : option string;
  selectedSetting : Preset.t;
  selectedAngle : Preset.t;
  isRunningAB : bool;
  abResults : list ABTestResult;
  alerts : list string;
  studio_console_error : list (string * thrown);
  random_draws : nat
}.

Definition ab_alert : string :=
  "Could not run A/B test. Please check your connection and try again.".

Definition handleRunABTest (random : nat -> Q) (envs : nat -> Environment)
    (completion : list nat) (st : Studio) : Studio :=
  match originalImage st with
  | None => st
  | Some img =>
      if falsy img || isRunningAB st then st
      else
        match ab_test_body random envs completion img
                (selectedSetting st) (selectedAngle st) (random_draws st) with
        | (Ok validResults, draws) =>
            {| originalImage := originalImage st;
               selectedSetting := selectedSetting st;
               selectedAngle := selectedAngle st;
               isRunningAB := false;
               abResults := validResults;
               alerts := alerts st;
               studio_console_error := studio_console_error st;
               random_draws := draws |}
        | (Throw e, draws) =>
            {| originalImage := originalImage st;
               selectedSetting := selectedSetting st;
               selectedAngle := selectedAngle st;
               isRunningAB := false;
               abResults := [];
               alerts := alerts st ++ [ab_alert];
               studio_console_error := studio_console_error st ++ [("AB Test Error", e)];
               random_draws := draws |}
        end
  end.

(** The studio as it stands when the A/B test is started on a captured
    image. *)
Definition studio_with (img : string) : Studio :=
  {| originalImage := Some img;
     selectedSetting := Preset.mk "marble" "Marble Studio" "on a luxury white marble podium, soft lighting";
     selectedAngle := Preset.mk "eye" "Eye Level" "straight on eye-level view, symmetrical composition";
     isRunningAB := false;
     abResults := [];
     alerts := [];
     studio_console_error := [];
     random_draws := 0 |}.

End DesignStudio.

(* ------------------------------------------------------------------ *)
(** ** Concrete operations and environments used in examples *)

Module Scenarios.

Import GeminiService.

Definition overloaded : ErrorObject :=
  {| status := Some 503; message := Some "The model is overloaded." |}.

Definition bad_request : ErrorObject :=
  {| status := Some 400; message := Some "Bad Request" |}.

(** An operation that counts its invocations and always fails with 503. *)
Definition always_overloaded : async nat string :=
  fun n => (Throw (Obj overloaded), S n).

(** An operation that fails with 400 at once. *)
Definition always_rejected : async nat string :=
  fun n => (Throw (Obj bad_request), S n).

(** An operation that fails with 503 twice and then succeeds. *)
Definition third_time_lucky : async nat string :=
  fun n => (if (n <? 2)%nat then Throw (Obj overloaded) else Ok "done", S n).

Definition failed_to_fetch : thrown := Error "Failed to fetch".

Definition text_part : Part :=
  {| part_text := Some "Here is your image."; inlineData := None |}.

Definition image_part (payload : string) : Part :=
  {| part_text := None;
     inlineData := Some {| inline_mimeType := Some "image/png";
                           inline_data := Some payload |} |}.

Definition response_of (ps : list Part) : GenResponse :=
  {| candidates := Some [ {| content := Some {| parts := Some ps |} |} ] |}.

(** The network is unreachable; the model answers with text only. *)
Definition env_text_only : Environment :=
  {| fetch_reply := fun _ _ => FetchRejected failed_to_fetch;
     generateContent_reply := fun _ _ => Ok (response_of [text_part]) |}.

(** The model answers with one generated image. *)
Definition env_image : Environment :=
  {| fetch_reply := fun _ _ => FetchRejected failed_to_fetch;
     generateContent_reply := fun _ _ => Ok (response_of [text_part; image_part "iVBORw0KGgo="]) |}.

(** The model is down. *)
Definition env_down : Environment :=
  {| fetch_reply := fun _ _ => FetchRejected failed_to_fetch;
     generateContent_reply := fun _ _ => Throw (Obj overloaded) |}.

Definition scenario_config : GenerationConfig :=
  {| lockProduct := true; strictPose := true; keepFace := true;
     blackAndWhite := false; lockLocation := false |}.

(** Call A gets an image, call B a reply without one. *)
Definition envs_only_A (k : nat) : Environment :=
  match k with
  | O => env_image
  | _ => env_text_only
  end.

(** Call A gets a reply without an image, call B an image. *)
Definition envs_only_B (k : nat) : Environment :=
  match k with
  | O => env_text_only
  | _ => env_image
  end.

Definition half (_ : nat) : Q := (1 # 2)%Q.

(** The number [0.6]. *)
Definition six_tenths : Q := (5404319552844595 # 9007199254740992)%Q.

Definition swap_config : GenerationConfig :=
  {| lockProduct := false; strictPose := false; keepFace := false;
     blackAndWhite := false; lockLocation := false |}.

End Scenarios.

(* ------------------------------------------------------------------ *)
(** ** Measures of a run of the retry wrapper *)

Module RetryMeasures.

(** The time spent waiting, in milliseconds. *)
Definition total_wait (log : RetryLog) : Z := fold_right Z.add 0 (waits log).

(** The waits [delay * 1, delay * 2, ..., delay * k]. *)
Definition linear_waits (delay : Z) (k : nat) : list Z :=
  map (fun n => delay * (Z.of_nat n + 1)) (seq 0 k).

End RetryMeasures.

(* ------------------------------------------------------------------ *)
(** ** The footprint of a generation call on the outside world *)

Module Footprint.

(** From [w] to [w'] at most [k] fetches, all of [img], and at most [k]
    requests, all satisfying [P], were added; nothing was removed. *)
Definition grows_by (P : GenRequest -> Prop) (img : string) (k : nat)
    (w w' : World) : Prop :=
  exists fs rs,
    fetched w' = fetched w ++ fs
    /\ requests w' = requests w ++ rs
    /\ (List.length fs <= k)%nat
    /\ (List.length rs <= k)%nat
    /\ Forall (eq img) fs
    /\ Forall P rs.

(** A request of generateVariantImage. *)
Definition is_variant_request (setting angle : string) (r : GenRequest) : Prop :=
  model r = GeminiService.variant_model
  /\ mimeType r = "image/jpeg"%string
  /\ text r = GeminiService.variantPrompt setting angle
  /\ imageConfig r = None.

(** A request of generateMarketingImage. *)
Definition is_marketing_request (userPrompt : string)
    (config : GeminiService.GenerationConfig) (r : GenRequest) : Prop :=
  model r = GeminiService.marketing_model
  /\ mimeType r = "image/jpeg"%string
  /\ text r = GeminiService.buildPrompt userPrompt config
  /\ imageConfig r = Some {| aspectRatio := "3:4"; imageSize := "2K" |}.

End Footprint.

(* ------------------------------------------------------------------ *)
(** ** Further environments used in examples *)

Module RemoteScenarios.

Import GeminiService.

Definition demo_url : string :=
  "https://images.unsplash.com/photo-1542291026-7eec264c27ff?ixlib=rb-4.0.3&auto=format&fit=crop&w=1000&q=80".

(** The remote image is served and read; the model answers with an image. *)
Definition env_remote_ok : Environment :=
  {| fetch_reply := fun _ _ =>
       FetchResponse true "OK" (BlobRead (ReaderLoaded "data:image/jpeg;base64,/9j/4AAQSkZJRg=="));
     generateContent_reply := fun _ _ =>
       Ok (Scenarios.response_of [Scenarios.image_part "iVBORw0KGgo="]) |}.

(** The remote image is read to a result that holds no comma. *)
Definition env_remote_empty : Environment :=
  {| fetch_reply := fun _ _ => FetchResponse true "OK" (BlobRead (ReaderLoaded "data:"));
     generateContent_reply := fun _ _ =>
       Ok (Scenarios.response_of [Scenarios.text_part]) |}.

(** The event a FileReader hands to [onerror]: it has neither a status nor
    a message. *)
Definition progress_event : thrown := Obj {| status := None; message := None |}.

(** The remote image is served but cannot be read. *)
Definition env_reader_fails : Environment :=
  {| fetch_reply := fun _ _ => FetchResponse true "OK" (BlobRead (ReaderFailed progress_event));
     generateContent_reply := fun _ _ =>
       Ok (Scenarios.response_of [Scenarios.image_part "iVBORw0KGgo="]) |}.

(** A reply with two candidates; the first one holds a text part, an image
    without data, and a second image. *)
Definition two_candidates : GenResponse :=
  {| candidates :=
       Some [ {| content := Some {| parts := Some
                   [ Scenarios.text_part;
                     {| part_text := None;
                        inlineData := Some {| inline_mimeType := Some "image/png";
                                              inline_data := None |} |};
                     Scenarios.image_part "AAAA" ] |} |};
              {| content := Some {| parts := Some [Scenarios.image_part "BBBB"] |} |} ] |}.

Definition env_two_candidates : Environment :=
  {| fetch_reply := fun _ _ => FetchRejected Scenarios.failed_to_fetch;
     generateContent_reply := fun _ _ => Ok two_candidates |}.

End RemoteScenarios.

(* ------------------------------------------------------------------ *)
(** ** More String.prototype methods *)

Module JsText.

(** White space and line terminators among the code units below 256: tab,
    line feed, vertical tab, form feed, carriage return, space and
    no-break space. *)
Definition is_space (c : ascii) : bool :=
  let n := nat_of_ascii c in
  ((9 <=? n) && (n <=? 13) || (n =? 32) || (n =? 160))%nat.

Fixpoint trimStart (s : string) : string :=
  match s with
  | EmptyString => EmptyString
  | String c s' => if is_space c then trimStart s' else s
  end.

Fixpoint trimEnd (s : string) : string :=
  match s with
  | EmptyString => EmptyString
  | String c s' =>
      match trimEnd s' with
      | EmptyString => if is_space c then EmptyString else String c EmptyString
      | t => String c t
      end
  end.

(** [s.trim()] *)
Definition trim (s : string) : string := trimEnd (trimStart s).

Fixpoint drop (n : nat) (s : string) : string :=
  match n, s with
  | O, _ => s
  | S n', String _ s' => drop n' s'
  | S _, EmptyString => EmptyString
  end.

(** [s.slice(-n)]: the last [n] code units of [s], or all of [s]. *)
Definition slice_last (n : nat) (s : string) : string :=
  drop (String.length s - n) s.

(** [s.replace(pattern, replacement)] for a string pattern and a
    replacement without [$]: the first occurrence only. *)
Fixpoint replace (s pattern replacement : string) : string :=
  if String.prefix pattern s
  then replacement ++ drop (String.length pattern) s
  else match s with
       | EmptyString => EmptyString
       | String c s' => String c (replace s' pattern replacement)
       end.

(** A string that is empty or starts with something else than white
    space. *)
Definition starts_clean (s : string) : Prop :=
  match s with
  | EmptyString => True
  | String c _ => is_space c = false
  end.

(** A string is truthy when it is not empty. *)
Definition truthy (s : string) : bool :=
  match s with
  | EmptyString => false
  | String _ _ => true
  end.

End JsText.

(* ------------------------------------------------------------------ *)
(** ** The voice session of the lens (src/components/MagicLens.tsx and
       src/components/Hero.tsx): the [onmessage] callback *)

Module VoiceSession.

Import JsText.

Record FunctionCall : Type := mkCall { name : option string }.

(** What [onmessage] reads of a message: [message.toolCall] with its
    [functionCalls] (which may be missing), and
    [message.serverContent?.outputTranscription] with its [text] (which may
    be missing). *)
Record Message : Type := mkMessage {
  toolCall : option (option (list FunctionCall));
  outputTranscription : option (option string)
}.

(** [captureLockRef.current], the state [lastTranscript], and the number of
    calls of [captureAndGenerate] made so far. *)
Record Session : Type := mkSession {
  captureLock : bool;
  lastTranscript : string;
  captures : nat
}.

(** [captureLockRef.current = true; captureAndGenerate(); return;] *)
Definition trigger (st : Session) : Session :=
  {| captureLock := true;
     lastTranscript := lastTranscript st;
     captures := S (captures st) |}.

Definition is_takePhoto (fc : FunctionCall) : bool :=
  match name fc with
  | Some n => (n =? "takePhoto")%string
  | None => false
  end.

(** The loop over the function calls; [Some] when it triggered the capture
    and returned. *)
Fixpoint scan_tool_calls (fcs : list FunctionCall) (st : Session) : option Session :=
  match fcs with
  | [] => None
  | fc :: rest =>
      if is_takePhoto fc && negb (captureLock st)
      then Some (trigger st)
      else scan_tool_calls rest st
  end.

(** [setLastTranscript(prev => (prev + cleanText).slice(-200).trim())] *)
Definition append_transcript (prev cleanText : string) : string :=
  trim (slice_last 200 (prev ++ cleanText)).

(** The part of [onmessage] that handles the transcription of the model's
    output; it is the whole callback in Hero.tsx. *)
Definition on_transcription (st : Session) (message : Message) : Session :=
  match outputTranscription message with
  | Some (Some text) =>
      if truthy text then
        if JsString.includes text "TRIGGER_CAPTURE" && negb (captureLock st)
        then trigger st
        else
          let cleanText := trim (replace text "TRIGGER_CAPTURE" "") in
          if truthy cleanText
          then {| captureLock := captureLock st;
                  lastTranscript := append_transcript (lastTranscript st) cleanText;
                  captures := captures st |}
          else st
      else st
  | _ => st
  end.

Definition not_iterable : thrown := Error "undefined is not iterable".

(** [onmessage] of MagicLens.tsx: tool calls first, then the
    transcription. *)
Definition onmessage (st : Session) (message : Message) : outcome unit * Session :=
  match toolCall message with
  | Some None => (Throw not_iterable, st)
  | Some (Some fcs) =>
      match scan_tool_calls fcs st with
      | Some st' => (Ok tt, st')
      | None => (Ok tt, on_transcription st message)
      end
  | None => (Ok tt, on_transcription st message)
  end.

(** [onopen] releases the lock. *)
Definition onopen (st : Session) : Session :=
  {| captureLock := false;
     lastTranscript := lastTranscript st;
     captures := captures st |}.

(** A session receiving messages one after the other. *)
Definition receive (st : Session) (messages : list Message) : Session :=
  fold_left (fun s m => snd (onmessage s m)) messages st.

Definition receive_hero (st : Session) (messages : list Message) : Session :=
  fold_left on_transcription messages st.

(** A message that asks for a capture, by a [takePhoto] call or by the
    marker in the transcription. *)
Definition says_trigger (message : Message) : bool :=
  match outputTranscription message with
  | Some (Some text) => truthy text && JsString.includes text "TRIGGER_CAPTURE"
  | _ => false
  end.

Definition asks_capture (message : Message) : bool :=
  match toolCall message with
  | Some None => false
  | Some (Some fcs) => existsb is_takePhoto fcs || says_trigger message
  | None => says_trigger message
  end.

End VoiceSession.

(* ------------------------------------------------------------------ *)
(** ** Capturing a shot and generating the ad (captureAndGenerate of
       src/components/MagicLens.tsx and src/components/Hero.tsx) *)

From Stdlib Require Import DecimalString Lqa.

Module Capture.

Import GeminiService JsText.

Inductive AppState : Type := IDLE | CAMERA_ACTIVE | CAPTURING | PROCESSING | RESULT.

(** An entry of the gallery history. *)
Record HistoryItem : Type := mkItem {
  id : string;
  image : string;
  user : string;
  prompt : string;
  timestamp : Z
}.

(** What [localStorage] holds under [magic_mirror_my_creations]: nothing
    (or the empty string), the JSON of an array of entries, or a text that
    [JSON.parse] rejects or that is not iterable. *)
Inductive Stored : Type :=
| Missing
| Creations (items : list HistoryItem)
| Unreadable.

(** What the component shows and what the browser holds. *)
Record Screen : Type := mkScreen {
  appState : AppState;
  capturedImage : option string;
  generatedResult : option GenerationResult;
  lastTranscript : string;
  genConfig : GenerationConfig;
  currentUser : option string;
  creations : Stored;
  gallery_updates : nat;
  alerts : list string;
  console_errors : list thrown;
  console_warnings : list string;
  net : World
}.

(** What the device gives at the moment of the shot: whether the video and
    canvas elements are mounted, whether the canvas has a 2D context, the
    data URL of the frame, the two readings of the clock, and whether the
    storage refuses the write. *)
Record Shot : Type := mkShot {
  mounted : bool;
  context2d : bool;
  dataUrl : string;
  now_id : Z;
  now_timestamp : Z;
  quota_exceeded : bool
}.

Definition default_prompt : string :=
  "A professional studio product shot with cinematic lighting.".

(** [lastTranscript.trim().length > 2 ? lastTranscript : default] *)
Definition promptToUse (lastTranscript : string) : string :=
  if (2 <? String.length (trim lastTranscript))%nat
  then lastTranscript else default_prompt.

(** [Date.now().toString()] *)
Definition decimal (z : Z) : string := NilZero.string_of_int (Z.to_int z).

(** What an instance of [captureAndGenerate] reads of the state: the
    values that [lastTranscript], [genConfig] and [currentUser] had in the
    render that created the instance. The button of the screen calls the
    instance of the render shown; the [onmessage] callback of the voice
    session calls the instance of the render in which the camera was
    started, whatever has been rendered since. *)
Record Render : Type := mkRender {
  seen_lastTranscript : string;
  seen_genConfig : GenerationConfig;
  seen_currentUser : option string
}.

Definition render_of (st : Screen) : Render :=
  {| seen_lastTranscript := lastTranscript st;
     seen_genConfig := genConfig st;
     seen_currentUser := currentUser st |}.

Definition historyItem (shot : Shot) (seen : Render) (result : GenerationResult)
    (promptToUse : string) : HistoryItem :=
  {| id := decimal (now_id shot);
     image := imageUrl result;
     user := match seen_currentUser seen with Some handle => handle | None => "YOU" end;
     prompt := promptToUse;
     timestamp := now_timestamp shot |}.

Definition history_warning : string :=
  "Failed to save to gallery history (likely quota exceeded)".

(** The inner [try] block that saves to the gallery history, with its
    [catch]; the result is the storage, the number of [gallery-update]
    events and the warnings. *)
Definition save_to_history (shot : Shot) (item : HistoryItem)
    (stored : Stored) (updates : nat) (warnings : list string)
  : Stored * nat * list string :=
  let save (existingHistory : list HistoryItem) :=
    let newHistory := firstn 6 (item :: existingHistory) in
    if quota_exceeded shot
    then (stored, updates, warnings ++ [history_warning])
    else (Creations newHistory, S updates, warnings) in
  match stored with
  | Missing => save []
  | Creations existingHistory => save existingHistory
  | Unreadable => (stored, updates, warnings ++ [history_warning])
  end.

Definition generation_alert : string :=
  "Something went wrong generating the ad. Check console for details.".

(** [captureAndGenerate], the instance created by the render [seen],
    called on the screen [st]. The flash, the voice session and the media
    tracks it also touches are outside [Screen]. *)
Definition captureAndGenerate (env : Environment) (shot : Shot) (seen : Render)
    (st : Screen) : Screen :=
  if negb (mounted shot) then st
  else if negb (context2d shot) then
    {| appState := CAPTURING;
       capturedImage := capturedImage st; generatedResult := generatedResult st;
       lastTranscript := lastTranscript st; genConfig := genConfig st;
       currentUser := currentUser st; creations := creations st;
       gallery_updates := gallery_updates st; alerts := alerts st;
       console_errors := console_errors st;
       console_warnings := console_warnings st; net := net st |}
  else
    let promptToUse := promptToUse (seen_lastTranscript seen) in
    match LegacyService.generateMarketingImage env (dataUrl shot) promptToUse
            (seen_genConfig seen) (net st) with
    | (Ok result, net') =>
        let '(stored, updates, warnings) :=
          save_to_history shot (historyItem shot seen result promptToUse)
            (creations st) (gallery_updates st) (console_warnings st) in
        {| appState := RESULT;
           capturedImage := Some (dataUrl shot);
           generatedResult := Some result;
           lastTranscript := lastTranscript st; genConfig := genConfig st;
           currentUser := currentUser st;
           creations := stored;
           gallery_updates := updates;
           alerts := alerts st;
           console_errors := console_errors st;
           console_warnings := warnings;
           net := net' |}
    | (Throw e, net') =>
        {| appState := IDLE;
           capturedImage := Some (dataUrl shot);
           generatedResult := generatedResult st;
           lastTranscript := lastTranscript st; genConfig := genConfig st;
           currentUser := currentUser st;
           creations := creations st;
           gallery_updates := gallery_updates st;
           alerts := alerts st ++ [generation_alert];
           console_errors := console_errors st ++ [e];
           console_warnings := console_warnings st;
           net := net' |}
    end.

(** [onClick={captureAndGenerate}]: the instance of the render shown. *)
Definition button_capture (env : Environment) (shot : Shot) (st : Screen) : Screen :=
  captureAndGenerate env shot (render_of st) st.



End Capture.

(* ------------------------------------------------------------------ *)
(** ** Screens and shots used in examples *)

Module CaptureScenarios.

Import GeminiService Capture.

Definition item (n : Z) : HistoryItem :=
  {| id := decimal n; image := "data:image/png;base64,AAAA"; user := "YOU";
     prompt := default_prompt; timestamp := n |}.

(** A screen with a camera running, a short transcript and six creations
    already in the gallery. *)
Definition full_gallery : Screen :=
  {| appState := CAMERA_ACTIVE;
     capturedImage := None;
     generatedResult := None;
     lastTranscript := "ok";
     genConfig := Scenarios.scenario_config;
     currentUser := Some "@maya";
     creations := Creations [item 6; item 5; item 4; item 3; item 2; item 1];
     gallery_updates := 0;
     alerts := [];
     console_errors := [];
     console_warnings := [];
     net := fresh |}.



End CaptureScenarios.

(* ------------------------------------------------------------------ *)
(** ** The A/B results as they are built and shown (src/unnamed/part_000) *)

Module AbView.

Import DesignStudio.

(** The result pushed for a fulfilled slot when the score is drawn as draw
    number [k] of [Math.random] and the click-through rate as the next
    one. *)
Definition ab_result (random : nat -> Q) (slot : string)
    (value : GeminiService.GenerationResult) (setting : Preset.t) (shown : Z)
    (k : nat) : ABTestResult :=
  {| id := slot;
     image := GeminiService.imageUrl value;
     settingName := Preset.label setting;
     stats := {| ctr := toFixed1 (Binary64.add (Binary64.mul (random (S k)) 3) (15 # 10));
                 score := floor_scaled (random k) 25 + 70;
                 impressions := shown |} |}.

(** [Math.max(...xs)]; [None] is [-Infinity], the maximum of no number. *)
Definition math_max (xs : list Z) : option Z :=
  fold_right (fun x acc => match acc with
                           | None => Some x
                           | Some m => Some (Z.max x m)
                           end) None xs.

(** [res.stats.score >= Math.max(...abResults.map(r => r.stats.score))] *)
Definition isWinner (res : ABTestResult) (abResults : list ABTestResult) : bool :=
  match math_max (map (fun r => score (stats r)) abResults) with
  | None => true
  | Some m => m <=? score (stats res)
  end.

(** The width of the click-through bar, in percent:
    [(res.stats.ctr / 5) * 100]. *)
Definition ctr_bar_width (res : ABTestResult) : Q :=
  Binary64.mul (Binary64.div (ctr (stats res)) 5) 100.

Definition succeeded {T} (r : outcome T) : bool :=
  match r with
  | Ok _ => true
  | Throw _ => false
  end.

End AbView.

(* ------------------------------------------------------------------ *)
(** ** The remix side of the design studio (src/unnamed/part_000):
       handleGenerate, handlePromoteToEditorial, the variant grid and the
       tool calls of the voice control *)

Module RemixStudio.

Import GeminiService.

Inductive Mode : Type := remix | editorial | ab.

(** The state of the component that these handlers read and write. A
    handler runs on a rendered state, where each ref holds the state it
    mirrors. *)
Record View : Type := mkView {
  originalImage : option string;
  mode : Mode;
  selectedSetting : Preset.t;
  selectedAngle : Preset.t;
  generatedVariants : list string;
  selectedVariantIndex : nat;
  isGenerating : bool;
  lastCommand : option string;
  alerts : list string;
  view_console_error : list (string * thrown)
}.

(** The [useState] initial values, for a given [originalImage]. *)
Definition initial (originalImage : option string) : View :=
  {| originalImage := originalImage;
     mode := remix;
     selectedSetting := Preset.mk "marble" "Marble Studio" "on a luxury white marble podium, soft lighting";
     selectedAngle := Preset.mk "eye" "Eye Level" "straight on eye-level view, symmetrical composition";
     generatedVariants := [];
     selectedVariantIndex := 0;
     isGenerating := false;
     lastCommand := None;
     alerts := [];
     view_console_error := [] |}.

(** [!originalImage] *)
Definition no_image (originalImage : option string) : bool :=
  match originalImage with
  | None => true
  | Some img => falsy img
  end.

(** The effect that seeds the variants with the original image. *)
Definition seed_variants (st : View) : View :=
  match originalImage st with
  | Some img =>
      if negb (falsy img) && (List.length (generatedVariants st) =? 0)%nat
      then {| originalImage := originalImage st; mode := mode st;
              selectedSetting := selectedSetting st; selectedAngle := selectedAngle st;
              generatedVariants := [img];
              selectedVariantIndex := selectedVariantIndex st;
              isGenerating := isGenerating st; lastCommand := lastCommand st;
              alerts := alerts st; view_console_error := view_console_error st |}
      else st
  | None => st
  end.

Definition generation_alert : string := "Studio generation failed. Please try again.".

(** [handleGenerate]; the call talks to the outside world [env]. *)
Definition handleGenerate (env : Environment) (st : View) : View :=
  match originalImage st with
  | None => st
  | Some img =>
      if isGenerating st || falsy img then st
      else
        match fst (generateVariantImage env img
                     (Preset.prompt (selectedSetting st))
                     (Preset.prompt (selectedAngle st)) (fresh, [])) with
        | Ok result =>
            {| originalImage := originalImage st; mode := remix;
               selectedSetting := selectedSetting st; selectedAngle := selectedAngle st;
               generatedVariants := imageUrl result :: generatedVariants st;
               selectedVariantIndex := 0;
               isGenerating := false; lastCommand := lastCommand st;
               alerts := alerts st; view_console_error := view_console_error st |}
        | Throw e =>
            {| originalImage := originalImage st; mode := mode st;
               selectedSetting := selectedSetting st; selectedAngle := selectedAngle st;
               generatedVariants := generatedVariants st;
               selectedVariantIndex := selectedVariantIndex st;
               isGenerating := false; lastCommand := Some "Generation Failed";
               alerts := alerts st ++ [generation_alert];
               view_console_error := view_console_error st ++ [("Generation failed", e)] |}
        end
  end.

(** [handlePromoteToEditorial] *)
Definition handlePromoteToEditorial (imageUrl : string) (st : View) : View :=
  {| originalImage := originalImage st; mode := editorial;
     selectedSetting := selectedSetting st; selectedAngle := selectedAngle st;
     generatedVariants := imageUrl :: generatedVariants st;
     selectedVariantIndex := 0;
     isGenerating := isGenerating st; lastCommand := lastCommand st;
     alerts := alerts st; view_console_error := view_console_error st |}.

(** The click on the variant at position [idx] of the grid:
    [setSelectedVariantIndex(idx); setMode('editorial')]. *)
Definition select_variant (idx : nat) (st : View) : View :=
  {| originalImage := originalImage st; mode := editorial;
     selectedSetting := selectedSetting st; selectedAngle := selectedAngle st;
     generatedVariants := generatedVariants st;
     selectedVariantIndex := idx;
     isGenerating := isGenerating st; lastCommand := lastCommand st;
     alerts := alerts st; view_console_error := view_console_error st |}.

(** [generatedVariants[selectedVariantIndex]] *)
Definition currentImage (st : View) : option string :=
  nth_error (generatedVariants st) (selectedVariantIndex st).

(** What the user can do; the grid offers one tile per variant, so a
    click names a position of the list as it is shown. *)
Inductive step : View -> View -> Prop :=
| step_seed st : step st (seed_variants st)
| step_generate env st : step st (handleGenerate env st)
| step_promote imageUrl st : step st (handlePromoteToEditorial imageUrl st)
| step_select idx st :
    (idx < List.length (generatedVariants st))%nat -> step st (select_variant idx st).

(** The index of the selected variant names a variant, unless there is
    none yet. *)
Definition selection_ok (st : View) : Prop :=
  (generatedVariants st = [] /\ selectedVariantIndex st = 0%nat)
  \/ (selectedVariantIndex st < List.length (generatedVariants st))%nat.

Inductive reachable (st0 : View) : View -> Prop :=
| reach_here : reachable st0 st0
| reach_step st st' : reachable st0 st -> step st st' -> reachable st0 st'.

End RemixStudio.

(* ------------------------------------------------------------------ *)
(** ** The tool calls of the studio's voice control (src/unnamed/part_000,
       the [onmessage] callback) *)

Module VoiceControl.

Import RemixStudio.

(** [fc.args], as far as it is read: each field is a string or absent. *)
Record Args : Type := mkArgs {
  vibeId : option string;
  angleId : option string;
  action : option string
}.

Record FunctionCall : Type := mkCall {
  id : option string;
  name : option string;
  args : option Args
}.

(** [{ id, name, response: { result: { success } } }] *)
Record FunctionResponse : Type := mkResponse {
  response_id : option string;
  response_name : option string;
  success : bool
}.

(** What a [triggerAction] starts besides the state it sets. *)
Inductive Started : Type :=
| StartGenerate
| StartClose
| StartDownload.

Definition name_is (fc : FunctionCall) (n : string) : bool :=
  match name fc with
  | Some m => (m =? n)%string
  | None => false
  end.

(** [LIST.find(s => s.id === wanted)] *)
Definition find_preset (presets : list Preset.t) (wanted : option string)
  : option Preset.t :=
  match wanted with
  | Some w => find (fun s => (Preset.id s =? w)%string) presets
  | None => None
  end.

Definition with_setting (vibe : Preset.t) (st : View) : View :=
  {| originalImage := originalImage st; mode := mode st;
     selectedSetting := vibe; selectedAngle := selectedAngle st;
     generatedVariants := generatedVariants st;
     selectedVariantIndex := selectedVariantIndex st;
     isGenerating := isGenerating st; lastCommand := lastCommand st;
     alerts := alerts st; view_console_error := view_console_error st |}.

Definition with_angle (angle : Preset.t) (st : View) : View :=
  {| originalImage := originalImage st; mode := mode st;
     selectedSetting := selectedSetting st; selectedAngle := angle;
     generatedVariants := generatedVariants st;
     selectedVariantIndex := selectedVariantIndex st;
     isGenerating := isGenerating st; lastCommand := lastCommand st;
     alerts := alerts st; view_console_error := view_console_error st |}.

Definition with_command (command : option string) (m : Mode) (st : View) : View :=
  {| originalImage := originalImage st; mode := m;
     selectedSetting := selectedSetting st; selectedAngle := selectedAngle st;
     generatedVariants := generatedVariants st;
     selectedVariantIndex := selectedVariantIndex st;
     isGenerating := isGenerating st; lastCommand := command;
     alerts := alerts st; view_console_error := view_console_error st |}.

Definition is_action (a : option string) (n : string) : bool :=
  match a with
  | Some m => (m =? n)%string
  | None => false
  end.

(** The mode after the three [setMode] tests of a [triggerAction]. *)
Definition mode_after (a : option string) (m : Mode) : Mode :=
  let m := if is_action a "editorial_mode" then editorial else m in
  let m := if is_action a "remix_mode" then remix else m in
  if is_action a "ab_test_mode" then ab else m.

(** What the three calls of a [triggerAction] start, in their order. *)
Definition started_by (a : option string) : list Started :=
  (if is_action a "generate" then [StartGenerate] else [])
  ++ (if is_action a "close" then [StartClose] else [])
  ++ (if is_action a "download" then [StartDownload] else []).

(** The body of the loop for one function call: the state it sets and
    what it starts, or the TypeError of reading a field of missing
    [args]. *)
Definition execute (fc : FunctionCall) (st : View) : outcome (View * list Started) :=
  if name_is fc "changeVibe" then
    match args fc with
    | None => Throw (TypeError_reading "vibeId")
    | Some a =>
        match find_preset DesignStudio.SETTINGS (vibeId a) with
        | Some vibe => Ok (with_setting vibe st, [])
        | None => Ok (st, [])
        end
    end
  else if name_is fc "changeAngle" then
    match args fc with
    | None => Throw (TypeError_reading "angleId")
    | Some a =>
        match find_preset DesignStudio.ANGLES (angleId a) with
        | Some angle => Ok (with_angle angle st, [])
        | None => Ok (st, [])
        end
    end
  else if name_is fc "triggerAction" then
    match args fc with
    | None => Throw (TypeError_reading "action")
    | Some a =>
        Ok (with_command (action a) (mode_after (action a) (mode st)) st,
            started_by (action a))
    end
  else Ok (st, []).

(** The response pushed for a function call. *)
Definition answer (fc : FunctionCall) : FunctionResponse :=
  {| response_id := id fc; response_name := name fc; success := true |}.

(** A call of one of the three tools has its [args]. *)
Definition has_args (fc : FunctionCall) : bool :=
  if name_is fc "changeVibe" || name_is fc "changeAngle" || name_is fc "triggerAction"
  then match args fc with Some _ => true | None => false end
  else true.

(** What handling a message leaves: the state set by the setters of the
    loop, what it started (what the started handlers set themselves, from
    [setIsGenerating(true)] at the start of [handleGenerate] on, is not
    part of [view]), and the responses sent back (none when the loop was
    cut short by an error). *)
Record Handled : Type := mkHandled {
  view : View;
  started : list Started;
  sent : option (list FunctionResponse)
}.

(** The loop over [message.toolCall.functionCalls]. *)
Fixpoint run_calls (fcs : list FunctionCall) (st : View)
    (begun : list Started) (responses : list FunctionResponse) : Handled :=
  match fcs with
  | [] => {| view := st; started := begun; sent := Some responses |}
  | fc :: rest =>
      match execute fc st with
      | Throw _ => {| view := st; started := begun; sent := None |}
      | Ok (st', more) =>
          run_calls rest st' (begun ++ more) (responses ++ [answer fc])
      end
  end.

(** [onmessage] on a message with a tool call. *)
Definition on_tool_call (fcs : list FunctionCall) (st : View) : Handled :=
  run_calls fcs st [] [].

End VoiceControl.

(* ------------------------------------------------------------------ *)
(** ** Wrapping the headline of the downloaded ad
       (downloadCompositeImage of src/components/Hero.tsx) *)

Module Poster.

(** [testWidth > maxWidth] *)
Definition wider (width maxWidth : Q) : bool := negb (Qle_bool width maxWidth).

(** The loop over the words: [n] is the index of the word, [line] the line
    being filled, [y] its height, [drawn] the [fillText] calls made so
    far, oldest first. The widths are those [ctx.measureText] gives;
    widths and heights are numbers, given by their exact values, and
    [y += lineHeight] is the addition of [Binary64]. *)
Fixpoint wrap_words (measure : string -> Q) (maxWidth lineHeight : Q)
    (words : list string) (n : nat) (line : string) (y : Q)
    (drawn : list (string * Q)) : string * Q * list (string * Q) :=
  match words with
  | [] => (line, y, drawn)
  | word :: rest =>
      let testLine := (line ++ word ++ " ")%string in
      let testWidth := measure testLine in
      if wider testWidth maxWidth && (0 <? n)%nat
      then wrap_words measure maxWidth lineHeight rest (S n)
             (word ++ " ")%string (Binary64.add y lineHeight) (drawn ++ [(line, y)])
      else wrap_words measure maxWidth lineHeight rest (S n) testLine y drawn
  end.

(** The loop followed by the last [fillText(line, x, y)]: the lines of the
    headline with their heights, top to bottom. *)
Definition last_fillText (after_loop : string * Q * list (string * Q))
  : list (string * Q) :=
  let '(line, y, drawn) := after_loop in drawn ++ [(line, y)].

Definition headline_lines (measure : string -> Q) (maxWidth lineHeight y0 : Q)
    (words : list string) : list (string * Q) :=
  last_fillText (wrap_words measure maxWidth lineHeight words 0 "" y0 []).

(** The words, each followed by a space. *)
Definition spaced (words : list string) : string :=
  fold_right (fun word rest => word ++ " " ++ rest)%string EmptyString words.

(** The text of the lines, one after the other. *)
Definition text_of (lines : list (string * Q)) : string :=
  fold_right (fun line rest => fst line ++ rest)%string EmptyString lines.

(** A line fits when it is no wider than [maxWidth], or holds one word
    only. *)
Definition fits (measure : string -> Q) (maxWidth : Q) (words : list string)
    (line : string) : Prop :=
  (measure line <= maxWidth)%Q \/ exists word, In word words /\ line = (word ++ " ")%string.

(** The height reached from [y0] by [k] additions of [lineHeight], each
    one rounded. *)
Definition height (y0 lineHeight : Q) (k : nat) : Q :=
  Nat.iter k (fun y => Binary64.add y lineHeight) y0.

(** The lines are stacked from [y0] down, one addition of [lineHeight]
    apart. *)
Definition stacked (y0 lineHeight : Q) (lines : list (string * Q)) : Prop :=
  forall k line y,
    nth_error lines k = Some (line, y) -> y = height y0 lineHeight k.

(** The width 1024 of the canvas with the scale [w / 1000] gives the first
    height [50 * scale] and the line height [100 * scale]. *)
Definition y0_1024 : Q := Binary64.mul 50 (Binary64.div 1024 1000).
Definition lineHeight_1024 : Q := Binary64.mul 100 (Binary64.div 1024 1000).

End Poster.

(* ------------------------------------------------------------------ *)
(** ** Encoding microphone samples as 16-bit PCM (floatTo16BitPCM and
       base64EncodeAudio of src/unnamed/part_000, src/components/Hero.tsx
       and src/components/MagicLens.tsx) *)

Module Audio.

(** A number read from a Float32Array. A finite one is a rational with a
    24-bit significand, so that its products with [0x8000] and [0x7FFF] are
    exact in double precision: the arithmetic below is carried out on
    rationals. *)
Inductive number : Type :=
| NaN
| Infinity (negative : bool)
| Finite (q : Q).

(** [Math.min(1, x)] *)
Definition min_one (x : number) : number :=
  match x with
  | NaN => NaN
  | Infinity true => Infinity true
  | Infinity false => Finite 1
  | Finite q => if Qle_bool q 1 then Finite q else Finite 1
  end.

(** [Math.max(-1, x)] *)
Definition max_minus_one (x : number) : number :=
  match x with
  | NaN => NaN
  | Infinity true => Finite (-1)
  | Infinity false => Infinity false
  | Finite q => if Qle_bool (-1) q then Finite q else Finite (-1)
  end.

(** [s < 0 ? s * 0x8000 : s * 0x7FFF] *)
Definition scale (s : number) : number :=
  match s with
  | NaN => NaN
  | Infinity negative => Infinity negative
  | Finite q => if Qle_bool 0 q then Finite (q * 32767) else Finite (q * 32768)
  end.

(** The integer part of a rational, towards zero. *)
Definition truncate (q : Q) : Z := Z.quot (Qnum q) (Z.pos (Qden q)).

(** The conversion [setInt16] applies to its value: not-a-number and the
    infinities give 0; a finite number is truncated and taken modulo
    [2^16] into the signed range. *)
Definition ToInt16 (v : number) : Z :=
  match v with
  | Finite q => (truncate q + 32768) mod 65536 - 32768
  | _ => 0
  end.

(** The 16-bit sample written for the input sample [x]. *)
Definition pcm_sample (x : number) : Z :=
  ToInt16 (scale (max_minus_one (min_one x))).

(** The two bytes of a 16-bit integer, low byte first. *)
Definition int16_le (i : Z) : list Z :=
  let u := i mod 65536 in [u mod 256; u / 256].

Definition RangeError : thrown :=
  Error "Offset is outside the bounds of the DataView".

(** [output.setInt16(offset, value, true)] on the bytes of the buffer. *)
Definition setInt16 (output : list Z) (offset : nat) (value : number)
  : outcome (list Z) :=
  if (offset + 2 <=? List.length output)%nat
  then
    let u := ToInt16 value mod 65536 in
    Ok (DesignStudio.set_index
          (DesignStudio.set_index output offset (u mod 256)) (S offset) (u / 256))
  else Throw RangeError.

(** [floatTo16BitPCM(output, offset, input)]; the result is the buffer
    behind [output] after the writes. *)
Fixpoint floatTo16BitPCM (output : list Z) (offset : nat) (input : list number)
  : outcome (list Z) :=
  match input with
  | [] => Ok output
  | x :: rest =>
      let s := max_minus_one (min_one x) in
      match setInt16 output offset (scale s) with
      | Ok output' => floatTo16BitPCM output' (offset + 2) rest
      | Throw e => Throw e
      end
  end.

(** [base64EncodeAudio]; [btoa] is the browser's encoder, applied to the
    string whose code units are the bytes of the buffer. *)
Definition base64EncodeAudio (btoa : list Z -> string) (float32Array : list number)
  : outcome string :=
  let arrayBuffer := repeat 0 (List.length float32Array * 2) in
  match floatTo16BitPCM arrayBuffer 0 float32Array with
  | Ok bytes => Ok (btoa bytes)
  | Throw e => Throw e
  end.

(** Reading 16-bit little-endian samples back from bytes. *)
Fixpoint decode_int16_le (bytes : list Z) : list Z :=
  match bytes with
  | lo :: hi :: rest =>
      let u := lo + 256 * hi in
      (if u <? 32768 then u else u - 65536) :: decode_int16_le rest
  | _ => []
  end.

End Audio.

(* ================================================================== *)
(** * Properties *)

(* ------------------------------------------------------------------ *)
(** ** Strings *)

Section StringFacts.

Import JsString.
#[local] Open Scope string_scope.

Lemma append_nil_r (s : string) : s ++ "" = s.
Proof. induction s as [|c s IH]; simpl; [reflexivity | now rewrite IH]. Qed.

Lemma append_assoc (a b c : string) : (a ++ b) ++ c = a ++ (b ++ c).
Proof. induction a as [|x a IH]; simpl; [reflexivity | now rewrite IH]. Qed.

Lemma length_append (a b : string) :
  String.length (a ++ b) = (String.length a + String.length b)%nat.
Proof. induction a as [|x a IH]; simpl; [reflexivity | now rewrite IH]. Qed.

Lemma prefix_cons (a b : ascii) (p s : string) :
  String.prefix (String a p) (String b s) = true <-> a = b /\ String.prefix p s = true.
Proof.
  simpl. destruct (ascii_dec a b) as [->|Hne]; split; intros H.
  - now split.
  - apply H.
  - discriminate.
  - now destruct H.
Qed.

Lemma prefix_append_l (p a b : string) :
  String.prefix p a = true -> String.prefix p (a ++ b) = true.
Proof.
  revert a. induction p as [|x p IH]; intros a H.
  - now destruct (a ++ b).
  - destruct a as [|y a]; [discriminate|].
    apply prefix_cons in H as [-> H]. simpl.
    destruct (ascii_dec y y); [now apply IH | contradiction].
Qed.

Lemma prefix_self_append (p s : string) : String.prefix p (p ++ s) = true.
Proof.
  induction p as [|x p IH]; simpl.
  - now destruct s.
  - destruct (ascii_dec x x); [assumption | contradiction].
Qed.

Lemma prefix_length (p s : string) :
  String.prefix p s = true -> (String.length p <= String.length s)%nat.
Proof.
  revert s. induction p as [|x p IH]; intros s H; simpl; [lia|].
  destruct s as [|y s]; [discriminate|].
  apply prefix_cons in H as [_ H]. apply IH in H. simpl. lia.
Qed.

(** A match that starts inside [x] cannot run over a code unit that the
    pattern does not contain. *)
Lemma prefix_blocked (p x y : string) (c : ascii) :
  ~ In c (chars p) ->
  String.prefix p (x ++ String c y) = true ->
  String.prefix p x = true.
Proof.
  revert x. induction p as [|a p IH]; intros x Hc H.
  - now destruct x.
  - destruct x as [|b x].
    + simpl in H. destruct (ascii_dec a c) as [->|]; [|discriminate].
      exfalso. apply Hc. now left.
    + change (String.prefix (String a p) (String b (x ++ String c y)) = true) in H.
      apply prefix_cons in H as [-> H]. apply prefix_cons. split; [reflexivity|].
      apply IH; [|assumption]. intros Hin. apply Hc. now right.
Qed.

Lemma includes_cons (c : ascii) (s p : string) :
  includes (String c s) p = String.prefix p (String c s) || includes s p.
Proof. reflexivity. Qed.

Lemma includes_prefix (s p : string) :
  String.prefix p s = true -> includes s p = true.
Proof.
  intros H. destruct s as [|c s].
  - change (String.prefix p "" || false = true). now rewrite H.
  - rewrite includes_cons. now rewrite H.
Qed.

Lemma includes_append_l (a b p : string) :
  includes a p = true -> includes (a ++ b) p = true.
Proof.
  induction a as [|c a IH]; intros H.
  - simpl in H. rewrite orb_false_r in H.
    apply includes_prefix. now apply (prefix_append_l p "" b).
  - rewrite includes_cons in H. apply orb_true_iff in H as [H|H].
    + apply includes_prefix. now apply prefix_append_l.
    + change (includes (String c (a ++ b)) p = true).
      rewrite includes_cons, (IH H). apply orb_true_r.
Qed.

Lemma includes_append_r (a b p : string) :
  includes b p = true -> includes (a ++ b) p = true.
Proof.
  intros H. induction a as [|c a IH]; [assumption|].
  change (includes (String c (a ++ b)) p = true).
  rewrite includes_cons, IH. apply orb_true_r.
Qed.

Lemma includes_false_cons (c : ascii) (s p : string) :
  includes (String c s) p = false ->
  String.prefix p (String c s) = false /\ includes s p = false.
Proof. rewrite includes_cons. apply orb_false_iff. Qed.

Lemma split_from_clear (sep a rest cur : string) :
  clear_of sep a rest ->
  split_from sep 0 cur (a ++ rest) = split_from sep 0 (cur ++ a) rest.
Proof.
  revert cur. induction a as [|c a IH]; intros cur H.
  - now rewrite append_nil_r.
  - destruct H as [Hp Hc].
    change (split_from sep 0 cur (String c (a ++ rest))
            = split_from sep 0 (cur ++ String c a) rest).
    cbn [split_from].
    change (String.prefix sep (String c (a ++ rest)) = false) in Hp.
    rewrite Hp, (IH _ Hc), append_assoc. reflexivity.
Qed.

Lemma split_from_skip (sep x rest cur : string) :
  split_from sep (String.length x) cur (x ++ rest) = split_from sep 0 cur rest.
Proof. induction x as [|c x IH]; [reflexivity | exact IH]. Qed.

(** Stepping over a separator found at the head of the text. *)
Lemma split_from_match (c : ascii) (sep' rest cur : string) :
  split_from (String c sep') 0 cur (String c sep' ++ rest)
  = cur :: split_from (String c sep') 0 "" rest.
Proof.
  change (String c sep' ++ rest) with (String c (sep' ++ rest)).
  cbn [split_from].
  change (String c (sep' ++ rest)) with (String c sep' ++ rest).
  rewrite prefix_self_append.
  replace (String.length (String c sep') - 1)%nat with (String.length sep')
    by (cbn [String.length]; lia).
  now rewrite split_from_skip.
Qed.

Lemma split_from_absent (sep rest cur : string) :
  includes rest sep = false ->
  split_from sep 0 cur rest = [cur ++ rest].
Proof.
  revert cur. induction rest as [|c rest IH]; intros cur H.
  - now rewrite append_nil_r.
  - apply includes_false_cons in H as [Hp Hi].
    cbn [split_from]. rewrite Hp, (IH _ Hi), append_assoc. reflexivity.
Qed.

(** A text with exactly one separator splits into the two pieces around it. *)
Lemma split_once (c : ascii) (sep' a p : string) :
  clear_of (String c sep') a (String c sep' ++ p) ->
  includes p (String c sep') = false ->
  split (a ++ String c sep' ++ p) (String c sep') = [a; p].
Proof.
  intros Ha Hp. unfold split.
  rewrite (split_from_clear _ _ _ _ Ha), split_from_match, split_from_absent by assumption.
  reflexivity.
Qed.

Lemma clear_of_append (sep a b rest : string) :
  clear_of sep a (b ++ rest) -> clear_of sep b rest -> clear_of sep (a ++ b) rest.
Proof.
  intros Ha Hb. induction a as [|c a IH]; [assumption|].
  destruct Ha as [Hp Ha]. split.
  - change (String.prefix sep ((String c a ++ b) ++ rest) = false).
    now rewrite append_assoc.
  - now apply IH.
Qed.

(** A text free of [sep], followed by a code unit foreign to [sep], holds
    no start of an occurrence. *)
Lemma clear_of_absent (sep a y : string) (c : ascii) :
  ~ In c (chars sep) ->
  includes a sep = false ->
  clear_of sep a (String c y).
Proof.
  intros Hc. induction a as [|x a IH]; intros H; [exact I|].
  apply includes_false_cons in H as [Hp Hi]. split; [|now apply IH].
  destruct (String.prefix sep (String x a ++ String c y)) eqn:E; [|reflexivity].
  apply prefix_blocked in E; [congruence | assumption].
Qed.

(** Every piece of a split is no longer than what was there to split. *)
Lemma split_from_bound (sep : string) (s : string) :
  forall k cur,
    Forall (fun e => (String.length e <= String.length cur + String.length s)%nat)
           (split_from sep k cur s).
Proof.
  induction s as [|c s IH]; intros k cur.
  - constructor; [simpl; lia | constructor].
  - cbn [split_from]. destruct k as [|k].
    + destruct (String.prefix sep (String c s)).
      * constructor; [simpl; lia|].
        eapply Forall_impl; [|apply IH]. cbn. intros e He. lia.
      * eapply Forall_impl; [|apply IH]. cbn. intros e He.
        rewrite length_append in He. simpl in He. lia.
    + eapply Forall_impl; [|apply IH]. cbn. intros e He. lia.
Qed.

(** A piece after the first one is strictly shorter than the text. *)
Lemma split_from_later_shorter (sep : string) (s : string) :
  forall k cur i e,
    nth_error (split_from sep k cur s) (S i) = Some e ->
    (String.length e < String.length s)%nat.
Proof.
  induction s as [|c s IH]; intros k cur i e H.
  - simpl in H. destruct i; discriminate.
  - cbn [split_from] in H. destruct k as [|k].
    + destruct (String.prefix sep (String c s)).
      * simpl in H. apply nth_error_In in H.
        pose proof (split_from_bound sep s (String.length sep - 1) "") as B.
        rewrite Forall_forall in B. apply B in H. simpl in *. lia.
      * apply IH in H. simpl. lia.
    + apply IH in H. simpl. lia.
Qed.

Lemma split_second_shorter (s sep e : string) :
  sep <> "" ->
  at_index (split s sep) 1 = Some e ->
  (String.length e < String.length s)%nat.
Proof.
  intros Hsep H. unfold split, at_index in H.
  destruct sep; [contradiction|].
  now apply split_from_later_shorter in H.
Qed.

End StringFacts.

(* ------------------------------------------------------------------ *)
(** ** Input normalization *)

Section Normalization.

Import JsString GeminiService.
#[local] Open Scope string_scope.

Lemma semicolon_not_in_marker : ~ In ";"%char (chars "base64,").
Proof. simpl. intuition discriminate. Qed.

Lemma data_uri_clear (mime p : string) :
  includes mime "base64," = false ->
  clear_of "base64," ("data:" ++ mime ++ ";") ("base64," ++ p).
Proof.
  intros Hm.
  apply (clear_of_append "base64," "data:" (mime ++ ";")).
  - repeat split.
  - apply clear_of_append.
    + apply clear_of_absent; [exact semicolon_not_in_marker | exact Hm].
    + repeat split.
Qed.

Lemma data_uri_shape (mime p : string) :
  "data:" ++ mime ++ ";base64," ++ p = ("data:" ++ mime ++ ";") ++ "base64," ++ p.
Proof. rewrite !append_assoc. reflexivity. Qed.

Lemma data_uri_split (mime p : string) :
  includes mime "base64," = false ->
  includes p "base64," = false ->
  split ("data:" ++ mime ++ ";base64," ++ p) "base64," = ["data:" ++ mime ++ ";"; p].
Proof.
  intros Hm Hp. rewrite data_uri_shape.
  apply split_once; [now apply data_uri_clear | exact Hp].
Qed.

Lemma data_uri_includes (mime p : string) :
  includes ("data:" ++ mime ++ ";base64," ++ p) "base64," = true.
Proof.
  rewrite data_uri_shape. apply includes_append_r, includes_prefix, prefix_self_append.
Qed.

(** C4. Normalizing the data URI [data:<mime>;base64,<p>] gives back the
    payload [p], for every payload free of the marker [base64,] (the MIME
    type, too, is free of it, as every MIME type is); in particular
    [data:image/jpeg;base64,ABC123] is normalized to [ABC123]. No network
    access takes place. *)
Theorem prepareImageForAPI_data_uri_roundtrip
    (env : Environment) (mime p : string) (w : World) :
  includes mime "base64," = false ->
  includes p "base64," = false ->
  prepareImageForAPI env ("data:" ++ mime ++ ";base64," ++ p) w = (Ok (Some p), w)
  /\ prepareImageForAPI env "data:image/jpeg;base64,ABC123" w = (Ok (Some "ABC123"), w).
Proof.
  intros Hm Hp. split; [|reflexivity].
  unfold prepareImageForAPI.
  replace (startsWith ("data:" ++ mime ++ ";base64," ++ p) "http") with false
    by reflexivity.
  rewrite data_uri_includes, data_uri_split by assumption.
  reflexivity.
Qed.

Lemma prepareImageForAPI_data_uri_roundtrip_witness :
  includes "image/png" "base64," = false
  /\ includes "iVBORw0KGgo=" "base64," = false
  /\ prepareImageForAPI Scenarios.env_down "data:image/png;base64,iVBORw0KGgo=" fresh
     = (Ok (Some "iVBORw0KGgo="), fresh).
Proof.
  split; [reflexivity|]. split; [reflexivity|].
  apply (prepareImageForAPI_data_uri_roundtrip
           Scenarios.env_down "image/png" "iVBORw0KGgo=" fresh); reflexivity.
Defined.

Lemma fetched_log_error (label : string) (e : thrown) (w : World) :
  fetched (snd (log_error label e w)) = fetched w.
Proof. reflexivity. Qed.

(** The remote-URL case issues exactly one fetch, for the input itself. *)
Lemma prepareImageForAPI_http_fetches (env : Environment) (input : string) (w : World) :
  startsWith input "http" = true ->
  fetched (snd (prepareImageForAPI env input w)) = (fetched w ++ [input])%list.
Proof.
  intros H. unfold prepareImageForAPI. rewrite H.
  unfold bind, try_catch, read_remote, bind, fetch.
  destruct (fetch_reply env (List.length (fetched w)) input) as [e | ok st blob]; cbn.
  - reflexivity.
  - destruct ok; cbn.
    + destruct blob as [e | reader]; cbn; [reflexivity|].
      destruct reader; reflexivity.
    + reflexivity.
Qed.

(** C10. Normalization goes by the shape of the string alone. An input that
    starts with [http] is fetched, whatever else it may be: the list of
    fetched URLs grows by the input (otherwise it does not grow), and the
    outcome is read off the reply to that fetch. The pass-through, which
    hands the input back with no effect on the world, happens exactly for
    the inputs that neither start with [http] nor contain [base64,]. *)
Theorem prepareImageForAPI_classifies_by_shape
    (env : Environment) (input : string) (w : World) :
  fetched (snd (prepareImageForAPI env input w))
  = (if startsWith input "http" then fetched w ++ [input] else fetched w)%list
  /\ (startsWith input "http" = true ->
      fst (prepareImageForAPI env input w)
      = match fetch_reply env (List.length (fetched w)) input with
        | FetchResponse true _ (BlobRead (ReaderLoaded res)) =>
            Ok (at_index (split res ",") 1)
        | FetchResponse true _ (BlobRead (ReaderFailed event)) => Throw event
        | _ => Throw source_image_error
        end)
  /\ (prepareImageForAPI env input w = (Ok (Some input), w)
      <-> startsWith input "http" = false /\ includes input "base64," = false).
Proof.
  split; [|split].
  - destruct (startsWith input "http") eqn:Hh.
    + now apply prepareImageForAPI_http_fetches.
    + unfold prepareImageForAPI. rewrite Hh.
      destruct (includes input "base64,"); reflexivity.
  - intros Hh. unfold prepareImageForAPI. rewrite Hh.
    unfold bind, try_catch, read_remote, bind, fetch.
    destruct (fetch_reply env (List.length (fetched w)) input) as [e | ok st blob]; cbn.
    + reflexivity.
    + destruct ok; cbn; [|reflexivity].
      destruct blob as [e | reader]; cbn; [reflexivity|].
      destruct reader; reflexivity.
  - split.
    + intros H. destruct (startsWith input "http") eqn:Hh.
      * exfalso.
        pose proof (prepareImageForAPI_http_fetches env input w Hh) as F.
        rewrite H in F. cbn in F.
        apply (f_equal (@List.length string)) in F.
        rewrite length_app in F. simpl in F. lia.
      * split; [reflexivity|].
        destruct (includes input "base64,") eqn:Hi; [exfalso | reflexivity].
        unfold prepareImageForAPI in H. rewrite Hh, Hi in H.
        assert (E : at_index (split input "base64,") 1 = Some input)
          by (unfold ret in H; congruence).
        apply split_second_shorter in E; [lia | discriminate].
    + intros [Hh Hi]. unfold prepareImageForAPI. now rewrite Hh, Hi.
Qed.

Lemma prepareImageForAPI_classifies_by_shape_witness :
  startsWith "httpAAAA" "http" = true
  /\ prepareImageForAPI Scenarios.env_image "httpAAAA" fresh
     = (Throw source_image_error,
        {| fetched := ["httpAAAA"]; requests := [];
           console_error := [("Image processing error:", Scenarios.failed_to_fetch)] |})
  /\ fst (prepareImageForAPI Scenarios.env_image "httpAAAA" fresh)
     = Throw source_image_error.
Proof.
  split; [reflexivity|]. split; [reflexivity|].
  exact (proj1 (proj2 (prepareImageForAPI_classifies_by_shape
                         Scenarios.env_image "httpAAAA" fresh)) eq_refl).
Defined.

End Normalization.

(* ------------------------------------------------------------------ *)
(** ** The retry wrapper *)

Section RetryFacts.

Context {W T : Type}.
Variable operation : async W T.

Lemma after_invocations_shift (k : nat) (w : W) :
  after_invocations operation k (snd (operation w))
  = after_invocations operation (S k) w.
Proof. induction k as [|k IH]; [reflexivity | simpl; now rewrite IH]. Qed.

Lemma last_cons_default {A} (l : list A) (x d : A) : last (x :: l) d = last l x.
Proof.
  revert x d. induction l as [|y l IH]; intros x d; [reflexivity|].
  change (last (x :: y :: l) d) with (last (y :: l) d).
  now rewrite (IH y d), (IH y x).
Qed.

Lemma journaled_run (w : W) (journal : list (outcome T)) :
  journaled operation (w, journal)
  = (fst (operation w), (snd (operation w), journal ++ [fst (operation w)])).
Proof. unfold journaled. now destruct (operation w). Qed.

(** When every attempt fails with a retryable error, the loop uses up its
    fuel: one invocation per unit, and the last error is thrown. *)
Lemma retry_loop_exhausted (delay : Z) (fuel : nat) :
  forall (i : Z) (lastError : thrown) (w : W) (journal : list (outcome T)) (log : RetryLog),
    (forall k, (k < fuel)%nat ->
       exists e, fst (operation (after_invocations operation k w)) = Throw (Obj e)
                 /\ is_retryable e = true) ->
    exists e entries events,
      retry_loop (journaled operation) delay fuel i lastError ((w, journal), log)
      = (Throw e, ((after_invocations operation fuel w, journal ++ entries), log ++ events))
      /\ List.length entries = fuel
      /\ last entries (Throw lastError) = Throw e
      /\ Throw e = match fuel with
                   | O => Throw lastError
                   | S f => fst (operation (after_invocations operation f w))
                   end.
Proof.
  induction fuel as [|fuel IH]; intros i lastError w journal log H.
  - exists lastError, [], []. cbn. now rewrite !app_nil_r.
  - destruct (H 0%nat ltac:(lia)) as (e0 & E0 & R0). cbn in E0.
    destruct (IH (i + 1) (Obj e0) (snd (operation w))
                 (journal ++ [Throw (Obj e0)])
                 (log ++ [Warned (i + 1) delay (Obj e0); Waited (delay * (i + 1))]))
      as (e & entries & events & Hrun & Hlen & Hlast & Hthrown).
    { intros k Hk. rewrite after_invocations_shift. apply H. lia. }
    exists e, (Throw (Obj e0) :: entries),
      ([Warned (i + 1) delay (Obj e0); Waited (delay * (i + 1))] ++ events).
    repeat split.
    + cbn [retry_loop]. rewrite journaled_run, E0, R0.
      etransitivity; [exact Hrun|].
      rewrite after_invocations_shift, <- !app_assoc. reflexivity.
    + simpl. now rewrite Hlen.
    + now rewrite last_cons_default.
    + rewrite Hthrown. destruct fuel as [|f]; [symmetry; exact E0|].
      now rewrite after_invocations_shift.
Qed.

(** A terminal error ends the loop at once. *)
Lemma retry_loop_terminal (delay : Z) (fuel : nat) (i : Z) (lastError : thrown)
    (w : W) (journal : list (outcome T)) (log : RetryLog) (e : ErrorObject) :
  fst (operation w) = Throw (Obj e) ->
  is_retryable e = false ->
  retry_loop (journaled operation) delay (S fuel) i lastError ((w, journal), log)
  = (Throw (Obj e), ((snd (operation w), journal ++ [Throw (Obj e)]), log)).
Proof.
  intros E R. cbn [retry_loop]. now rewrite journaled_run, E, R.
Qed.

(** The log of the wrapper: one warning and one wait per failed attempt
    that was found retryable, with the wait growing with the attempt. *)
Lemma retry_loop_log (delay : Z) (fuel : nat) :
  forall (i : Z) (lastError : thrown) (w : W) (log : RetryLog),
    exists errors,
      snd (snd (retry_loop operation delay fuel i lastError (w, log)))
      = log ++ linear_log delay i errors
      /\ (List.length errors <= fuel)%nat
      /\ Forall (fun e => exists o, e = Obj o /\ is_retryable o = true) errors.
Proof.
  induction fuel as [|fuel IH]; intros i lastError w log.
  - exists []. cbn. rewrite app_nil_r. repeat split; [lia | constructor].
  - cbn [retry_loop]. destruct (operation w) as [[v | [|e]] w'].
    + exists []. cbn. rewrite app_nil_r. repeat split; [lia | constructor].
    + exists []. cbn. rewrite app_nil_r. repeat split; [lia | constructor].
    + destruct (is_retryable e) eqn:R.
      * destruct (IH (i + 1) (Obj e) w'
                     (log ++ [Warned (i + 1) delay (Obj e); Waited (delay * (i + 1))]))
          as (errors & Hlog & Hlen & Hall).
        exists (Obj e :: errors). repeat split.
        -- etransitivity; [exact Hlog|]. now rewrite <- app_assoc.
        -- simpl. lia.
        -- constructor; [now exists e | assumption].
      * exists []. cbn. rewrite app_nil_r. repeat split; [lia | constructor].
Qed.

Lemma waits_linear_log (delay : Z) (errors : list thrown) :
  forall (i : Z) (k : nat) (ms : Z),
    nth_error (waits (linear_log delay i errors)) k = Some ms ->
    ms = delay * (i + Z.of_nat k + 1).
Proof.
  induction errors as [|e errors IH]; intros i k ms H.
  - destruct k; discriminate.
  - cbn in H. destruct k as [|k].
    + cbn in H. injection H as <-. f_equal. lia.
    + cbn [nth_error] in H. apply IH in H. subst ms. f_equal. lia.
Qed.

(** A successful run ends with a successful attempt. *)
Lemma retry_loop_ok (delay : Z) (fuel : nat) :
  forall (i : Z) (lastError : thrown) (st st' : W * RetryLog) (v : T),
    retry_loop operation delay fuel i lastError st = (Ok v, st') ->
    exists w w', operation w = (Ok v, w').
Proof.
  induction fuel as [|fuel IH]; intros i lastError [w log] st' v H.
  - discriminate.
  - cbn [retry_loop] in H. destruct (operation w) as [[v' | [|e]] w'] eqn:E.
    + exists w, w'. congruence.
    + discriminate.
    + destruct (is_retryable e); [now apply IH in H | discriminate].
Qed.

End RetryFacts.

(** The errors the wrapper retries: status 503 or 500, or a message that
    contains one of the two transient markers. *)
Lemma is_retryable_iff (e : ErrorObject) :
  is_retryable e = true <->
  status e = Some 503 \/ status e = Some 500
  \/ exists m, message e = Some m
               /\ (JsString.includes m "Internal error" = true
                   \/ JsString.includes m "Overloaded" = true).
Proof.
  unfold is_retryable, status_is, message_includes.
  rewrite !orb_true_iff. split.
  - intros [[[H | H] | H] | H].
    + destruct (status e) as [n|]; [|discriminate].
      apply Z.eqb_eq in H. subst n. now left.
    + destruct (status e) as [n|]; [|discriminate].
      apply Z.eqb_eq in H. subst n. right. now left.
    + destruct (message e) as [m|]; [|discriminate]. right. right. exists m. auto.
    + destruct (message e) as [m|]; [|discriminate]. right. right. exists m. auto.
  - intros [H | [H | (m & Hm & [H | H])]].
    + rewrite H. now left; left; left.
    + rewrite H. now left; left; right.
    + rewrite Hm. now left; right.
    + rewrite Hm. now right.
Qed.

(** C1. With the default bound of 3: an operation that fails with a
    retryable error (status 500 or 503, or a message containing
    [Internal error] or [Overloaded]) at each of its first three
    invocations is invoked exactly three times (the journal of its
    invocations has three entries), and the wrapper then throws the error
    of the third invocation; an operation whose first invocation fails with
    any other error is invoked exactly once, and that error is thrown at
    once, with no warning and no wait. *)
Theorem withRetry_default_bound {W T : Type} (operation : async W T) (w : W) :
  (forall e,
     is_retryable e = true <->
     status e = Some 503 \/ status e = Some 500
     \/ exists m, message e = Some m
                  /\ (JsString.includes m "Internal error" = true
                      \/ JsString.includes m "Overloaded" = true))
  /\
  ((forall k, (k < 3)%nat ->
      exists e, fst (operation (after_invocations operation k w)) = Throw (Obj e)
                /\ is_retryable e = true) ->
   exists e journal log,
     withRetry (journaled operation) default_retries default_delay ((w, []), [])
     = (Throw e, ((after_invocations operation 3 w, journal), log))
     /\ List.length journal = 3%nat
     /\ last journal (Throw Undefined) = Throw e
     /\ fst (operation (after_invocations operation 2 w)) = Throw e)
  /\ (forall e,
        fst (operation w) = Throw (Obj e) ->
        is_retryable e = false ->
        withRetry (journaled operation) default_retries default_delay ((w, []), [])
        = (Throw (Obj e), ((snd (operation w), [Throw (Obj e)]), []))).
Proof.
  split; [exact is_retryable_iff|]. split.
  - intros H.
    destruct (retry_loop_exhausted operation default_delay 3 0 Undefined w [] [] H)
      as (e & entries & events & Hrun & Hlen & Hlast & Hthrown).
    exists e, entries, events. repeat split; try assumption.
    now symmetry.
  - intros e E R. unfold withRetry.
    exact (retry_loop_terminal operation default_delay 2 0 Undefined w [] [] e E R).
Qed.

Lemma withRetry_default_bound_witness :
  (forall k, (k < 3)%nat ->
     exists e,
       fst (Scenarios.always_overloaded
              (after_invocations Scenarios.always_overloaded k 0%nat))
       = Throw (Obj e) /\ is_retryable e = true)
  /\ (exists e journal log,
        withRetry (journaled Scenarios.always_overloaded)
          default_retries default_delay ((0%nat, []), [])
        = (Throw e,
           ((after_invocations Scenarios.always_overloaded 3 0%nat, journal), log))
        /\ List.length journal = 3%nat
        /\ last journal (Throw Undefined) = Throw e
        /\ fst (Scenarios.always_overloaded
                  (after_invocations Scenarios.always_overloaded 2 0%nat))
           = Throw e)
  /\ withRetry (journaled Scenarios.always_rejected)
       default_retries default_delay ((0%nat, []), [])
     = (Throw (Obj Scenarios.bad_request),
        ((1%nat, [Throw (Obj Scenarios.bad_request)]), [])).
Proof.
  assert (H : forall k, (k < 3)%nat ->
     exists e,
       fst (Scenarios.always_overloaded
              (after_invocations Scenarios.always_overloaded k 0%nat))
       = Throw (Obj e) /\ is_retryable e = true).
  { intros k _. exists Scenarios.overloaded. split; reflexivity. }
  split; [exact H|]. split.
  - exact (proj1 (proj2 (withRetry_default_bound Scenarios.always_overloaded 0%nat)) H).
  - exact (proj2 (proj2 (withRetry_default_bound Scenarios.always_rejected 0%nat))
             Scenarios.bad_request eq_refl eq_refl).
Defined.

(** The journal and the log of a run, side by side: the attempts that
    failed with a retried error come first, each with its warning and its
    wait, and at most one more attempt follows them. *)
Lemma retry_loop_trace {W T : Type} (operation : async W T) (delay : Z) (fuel : nat) :
  forall (i : Z) (lastError : thrown) (w : W) (journal : list (outcome T))
         (log : RetryLog),
    exists errors rest,
      snd (fst (snd (retry_loop (journaled operation) delay fuel i lastError
                       ((w, journal), log))))
      = (journal ++ map Throw errors ++ rest)%list
      /\ snd (snd (retry_loop (journaled operation) delay fuel i lastError
                     ((w, journal), log)))
         = (log ++ linear_log delay i errors)%list
      /\ snd (snd (retry_loop operation delay fuel i lastError (w, log)))
         = (log ++ linear_log delay i errors)%list
      /\ Forall (fun e => exists o, e = Obj o /\ is_retryable o = true) errors
      /\ (rest = [] \/ exists r, rest = [r] /\ retried r = false)
      /\ (List.length errors <= fuel)%nat.
Proof.
  induction fuel as [|fuel IH]; intros i lastError w journal log.
  - exists [], []. cbn. rewrite !app_nil_r. repeat split; [constructor | now left | lia].
  - cbn [retry_loop]. rewrite journaled_run.
    destruct (operation w) as [[v | [|e]] w'] eqn:E; cbn [fst snd].
    + exists [], [Ok v]. cbn. rewrite !app_nil_r.
      repeat split; [constructor | right; now exists (Ok v) | lia].
    + exists [], [Throw Undefined]. cbn. rewrite !app_nil_r.
      repeat split; [constructor | right; now exists (Throw Undefined) | lia].
    + destruct (is_retryable e) eqn:R.
      * destruct (IH (i + 1) (Obj e) w' (journal ++ [Throw (Obj e)])%list
                     (log ++ [Warned (i + 1) delay (Obj e); Waited (delay * (i + 1))])%list)
          as (errors & rest & Hj & Hl & Hp & Hall & Hrest & Hlen).
        exists (Obj e :: errors), rest. repeat split.
        -- etransitivity; [exact Hj|]. cbn [map app]. now rewrite <- app_assoc.
        -- etransitivity; [exact Hl|]. now rewrite <- app_assoc.
        -- etransitivity; [exact Hp|]. now rewrite <- app_assoc.
        -- constructor; [now exists e | assumption].
        -- exact Hrest.
        -- simpl. lia.
      * exists [], [Throw (Obj e)]. cbn. rewrite !app_nil_r.
        repeat split; [constructor | right; exists (Throw (Obj e)); now split | lia].
Qed.

Lemma waits_linear_log_eq (delay : Z) (errors : list thrown) :
  forall (i : nat),
    waits (linear_log delay (Z.of_nat i) errors)
    = map (fun k => delay * (Z.of_nat k + 1)) (seq i (List.length errors)).
Proof.
  induction errors as [|e errors IH]; intros i; [reflexivity|].
  cbn [linear_log waits flat_map app List.length seq map]. f_equal.
  fold (waits (linear_log delay (Z.of_nat i + 1) errors)).
  replace (Z.of_nat i + 1) with (Z.of_nat (S i)) by lia. apply IH.
Qed.

(** C7. The waits of the wrapper are linear in the attempt index. In any
    run, with the operation's invocations written in a journal: the
    attempts [0, 1, ..., k - 1] are those that failed with an error found
    retryable, at most one attempt follows them (a success or a failure
    that is not retried), and the log holds, for each failed attempt [i] in
    turn, its warning and the wait of [delay * (i + 1)] milliseconds that
    follows it, and nothing else: the waits are [delay * 1, ...,
    delay * k]. The default base delay is 1000. *)
Theorem withRetry_waits_linearly {W T : Type}
    (operation : async W T) (retries delay : Z) (w : W) :
  default_delay = 1000
  /\ exists errors rest,
       snd (fst (snd (withRetry (journaled operation) retries delay ((w, []), []))))
       = (map Throw errors ++ rest)%list
       /\ (rest = [] \/ exists r, rest = [r] /\ retried r = false)
       /\ snd (snd (withRetry (journaled operation) retries delay ((w, []), [])))
          = linear_log delay 0 errors
       /\ waits (snd (snd (withRetry (journaled operation) retries delay ((w, []), []))))
          = map (fun i => delay * (Z.of_nat i + 1)) (seq 0 (List.length errors))
       /\ snd (snd (withRetry operation retries delay (w, [])))
          = linear_log delay 0 errors
       /\ (List.length errors <= Z.to_nat retries)%nat
       /\ Forall (fun e => exists o, e = Obj o /\ is_retryable o = true) errors
       /\ forall i ms,
            nth_error (waits (snd (snd (withRetry operation retries delay (w, []))))) i
            = Some ms ->
            ms = delay * (Z.of_nat i + 1).
Proof.
  split; [reflexivity|].
  destruct (retry_loop_trace operation delay (Z.to_nat retries) 0 Undefined w [] [])
    as (errors & rest & Hj & Hl & Hp & Hall & Hrest & Hlen).
  exists errors, rest. unfold withRetry. cbn [app] in Hj, Hl, Hp.
  rewrite Hj, Hl, Hp.
  repeat split; try assumption.
  - exact (waits_linear_log_eq delay errors 0).
  - intros i ms H. now apply waits_linear_log in H.
Qed.

Lemma withRetry_waits_linearly_witness :
  withRetry (journaled Scenarios.third_time_lucky) default_retries default_delay
    ((0%nat, []), [])
  = (Ok "done"%string,
     ((3%nat, [Throw (Obj Scenarios.overloaded); Throw (Obj Scenarios.overloaded);
               Ok "done"%string]),
      [Warned 1 1000 (Obj Scenarios.overloaded); Waited 1000;
       Warned 2 1000 (Obj Scenarios.overloaded); Waited 2000]))
  /\ nth_error
       (waits (snd (snd (withRetry Scenarios.third_time_lucky
                           default_retries default_delay (0%nat, []))))) 1
     = Some 2000
  /\ 2000 = default_delay * (Z.of_nat 1 + 1).
Proof.
  split; [reflexivity|]. split; [reflexivity|].
  destruct (withRetry_waits_linearly Scenarios.third_time_lucky
              default_retries default_delay 0%nat)
    as (_ & errors & rest & _ & _ & _ & _ & _ & _ & _ & H).
  exact (H 1%nat 2000 eq_refl).
Defined.

(* ------------------------------------------------------------------ *)
(** ** The generation calls *)

Section ServiceFacts.

Import JsString GeminiService.
#[local] Open Scope string_scope.

(** The wrapper around an attempt that succeeds, or fails for good, at
    once. *)
Lemma withRetry_first_ok {W T} (operation : async W T) (w w' : W) (v : T)
    (log : RetryLog) :
  operation w = (Ok v, w') ->
  withRetry operation default_retries default_delay (w, log) = (Ok v, (w', log)).
Proof.
  intros E. unfold withRetry.
  change (Z.to_nat default_retries) with 3%nat. cbn [retry_loop]. now rewrite E.
Qed.

Lemma withRetry_first_terminal {W T} (operation : async W T) (w w' : W)
    (e : ErrorObject) (log : RetryLog) :
  operation w = (Throw (Obj e), w') ->
  is_retryable e = false ->
  withRetry operation default_retries default_delay (w, log)
  = (Throw (Obj e), (w', log)).
Proof.
  intros E R. unfold withRetry.
  change (Z.to_nat default_retries) with 3%nat. cbn [retry_loop]. now rewrite E, R.
Qed.

Lemma withRetry_ok {W T} (operation : async W T) (retries delay : Z)
    (st st' : W * RetryLog) (v : T) :
  withRetry operation retries delay st = (Ok v, st') ->
  exists w w', operation w = (Ok v, w').
Proof. unfold withRetry. apply retry_loop_ok. Qed.

Lemma scan_parts_none (ps : list Part) (init : string) :
  Forall (fun p => inlineData p = None) ps -> scan_parts ps init = init.
Proof.
  induction 1 as [|p ps Hp _ IH]; [reflexivity|].
  simpl. now rewrite Hp.
Qed.

Lemma scan_parts_shape (ps : list Part) (init : string) :
  scan_parts ps init = init \/ exists d, scan_parts ps init = png_prefix ++ d.
Proof.
  induction ps as [|p ps IH]; [now left|].
  simpl. destruct (inlineData p) as [inline|]; [right; eauto | exact IH].
Qed.

Lemma startsWith_png (d : string) : startsWith (png_prefix ++ d) png_prefix = true.
Proof. apply prefix_self_append. Qed.

Lemma no_image_error_terminal :
  exists e, no_image_error = Obj e /\ is_retryable e = false.
Proof. eexists. split; reflexivity. Qed.

Lemma source_image_error_terminal :
  exists e, source_image_error = Obj e /\ is_retryable e = false /\ status e = None
            /\ message e
               = Some "Could not process source image. If using a demo image, ensure CORS is allowed.".
Proof. eexists. repeat split; reflexivity. Qed.

(** One attempt of each call on a response without an inline image. *)
Lemma variant_attempt_empty (env : Environment) (img setting angle : string)
    (w w1 : World) (clean : option string) (resp : GenResponse) :
  prepareImageForAPI env img w = (Ok clean, w1) ->
  generateContent_reply env (List.length (requests w1))
    (variant_request clean (variantPrompt setting angle)) = Ok resp ->
  Forall (fun p => inlineData p = None) (response_parts resp) ->
  variant_attempt env img setting angle w
  = (Throw no_image_error,
     {| fetched := fetched w1;
        requests := (requests w1 ++ [variant_request clean (variantPrompt setting angle)])%list;
        console_error :=
          (console_error w1 ++ [("Gemini Flash Variant Error:", no_image_error)])%list |}).
Proof.
  intros Hp Hr Hn. unfold variant_attempt, try_catch, bind.
  rewrite Hp. unfold generateContent. rewrite Hr.
  rewrite (scan_parts_none _ _ Hn). reflexivity.
Qed.

Lemma marketing_attempt_empty (env : Environment) (img userPrompt : string)
    (config : GenerationConfig) (w w1 : World) (clean : option string)
    (resp : GenResponse) :
  prepareImageForAPI env img w = (Ok clean, w1) ->
  generateContent_reply env (List.length (requests w1))
    (marketing_request clean (buildPrompt userPrompt config)) = Ok resp ->
  Forall (fun p => inlineData p = None) (response_parts resp) ->
  marketing_attempt env img userPrompt config w
  = (Ok {| imageUrl := img |},
     {| fetched := fetched w1;
        requests := (requests w1 ++ [marketing_request clean (buildPrompt userPrompt config)])%list;
        console_error := console_error w1 |}).
Proof.
  intros Hp Hr Hn. unfold marketing_attempt, try_catch, bind.
  rewrite Hp. unfold generateContent. rewrite Hr.
  rewrite (scan_parts_none _ _ Hn). reflexivity.
Qed.

(** C2. When the remote call succeeds and the response carries no inline
    image part, the two call sites part ways: generateVariantImage fails,
    with the error [No image generated from Flash model] and after this one
    attempt; generateMarketingImage returns a result whose imageUrl is the
    input image string, unchanged. *)
Theorem empty_result_policies (env : Environment) (img : string)
    (w : World) (log : RetryLog) :
  (forall setting angle clean w1 resp,
     prepareImageForAPI env img w = (Ok clean, w1) ->
     generateContent_reply env (List.length (requests w1))
       (variant_request clean (variantPrompt setting angle)) = Ok resp ->
     Forall (fun p => inlineData p = None) (response_parts resp) ->
     generateVariantImage env img setting angle (w, log)
     = (Throw no_image_error,
        ({| fetched := fetched w1;
            requests := (requests w1 ++ [variant_request clean (variantPrompt setting angle)])%list;
            console_error :=
              (console_error w1 ++ [("Gemini Flash Variant Error:", no_image_error)])%list |},
         log)))
  /\ (forall userPrompt config clean w1 resp,
        prepareImageForAPI env img w = (Ok clean, w1) ->
        generateContent_reply env (List.length (requests w1))
          (marketing_request clean (buildPrompt userPrompt config)) = Ok resp ->
        Forall (fun p => inlineData p = None) (response_parts resp) ->
        generateMarketingImage env img userPrompt config (w, log)
        = (Ok {| imageUrl := img |},
           ({| fetched := fetched w1;
               requests := (requests w1 ++ [marketing_request clean (buildPrompt userPrompt config)])%list;
               console_error := console_error w1 |},
            log))).
Proof.
  split.
  - intros setting angle clean w1 resp Hp Hr Hn.
    unfold generateVariantImage.
    apply withRetry_first_terminal; [|reflexivity].
    now apply variant_attempt_empty with (resp := resp).
  - intros userPrompt config clean w1 resp Hp Hr Hn.
    unfold generateMarketingImage.
    apply withRetry_first_ok.
    now apply marketing_attempt_empty with (resp := resp).
Qed.

Lemma empty_result_policies_witness :
  fst (generateVariantImage Scenarios.env_text_only "ABC123"
         "on a luxury white marble podium, soft lighting"
         "top-down flat lay view, organized composition" (fresh, []))
  = Throw no_image_error
  /\ fst (generateMarketingImage Scenarios.env_text_only "ABC123"
            "beach sunset" Scenarios.scenario_config (fresh, []))
     = Ok {| imageUrl := "ABC123" |}.
Proof.
  pose proof (empty_result_policies Scenarios.env_text_only "ABC123" fresh [])
    as [HV HM].
  split.
  - rewrite (HV _ _ (Some "ABC123") fresh
               (Scenarios.response_of [Scenarios.text_part])
               eq_refl eq_refl).
    + reflexivity.
    + repeat constructor.
  - rewrite (HM _ _ (Some "ABC123") fresh
               (Scenarios.response_of [Scenarios.text_part])
               eq_refl eq_refl).
    + reflexivity.
    + repeat constructor.
Defined.

(** A successful attempt of generateVariantImage produced a PNG data URI. *)
Lemma variant_attempt_ok (env : Environment) (img setting angle : string)
    (w w' : World) (r : GenerationResult) :
  variant_attempt env img setting angle w = (Ok r, w') ->
  startsWith (imageUrl r) png_prefix = true.
Proof.
  unfold variant_attempt, try_catch, bind, generateContent.
  destruct (prepareImageForAPI env img w) as [[clean | e] w1]; [|discriminate].
  destruct (generateContent_reply env _ _) as [resp | e]; [|discriminate].
  destruct (scan_parts_shape (response_parts resp) "") as [E | [d E]]; rewrite E.
  - discriminate.
  - cbn. intros H. injection H as <- _. apply startsWith_png.
Qed.

(** A successful attempt of generateMarketingImage produced a PNG data URI
    or fell back to the input. *)
Lemma marketing_attempt_ok (env : Environment) (img userPrompt : string)
    (config : GenerationConfig) (w w' : World) (r : GenerationResult) :
  marketing_attempt env img userPrompt config w = (Ok r, w') ->
  startsWith (imageUrl r) png_prefix = true \/ imageUrl r = img.
Proof.
  unfold marketing_attempt, try_catch, bind, generateContent.
  destruct (prepareImageForAPI env img w) as [[clean | e] w1]; [|discriminate].
  destruct (generateContent_reply env _ _) as [resp | e]; [|discriminate].
  destruct (scan_parts_shape (response_parts resp) "") as [E | [d E]]; rewrite E.
  - cbn. intros H. injection H as <- _. now right.
  - cbn. intros H. injection H as <- _. left. apply startsWith_png.
Qed.

Lemma legacy_generateMarketingImage_ok (env : Environment) (img userPrompt : string)
    (config : GenerationConfig) (w w' : World) (r : GenerationResult) :
  LegacyService.generateMarketingImage env img userPrompt config w = (Ok r, w') ->
  startsWith (imageUrl r) png_prefix = true \/ imageUrl r = img.
Proof.
  unfold LegacyService.generateMarketingImage, try_catch, bind, generateContent.
  destruct (generateContent_reply env _ _) as [resp | e]; [|discriminate].
  destruct (scan_parts_shape (response_parts resp) img) as [E | [d E]]; rewrite E.
  - cbn. intros H. injection H as <- _. now right.
  - cbn. intros H. injection H as <- _. left. apply startsWith_png.
Qed.

(** C3, as stated, fails: on a response without an inline image part
    generateMarketingImage succeeds with the raw input [ABC123], which is
    not a PNG data URI. *)
Lemma marketing_fallback_is_not_png :
  generateMarketingImage Scenarios.env_text_only "ABC123" "beach sunset"
    Scenarios.scenario_config (fresh, [])
  = (Ok {| imageUrl := "ABC123" |},
     ({| fetched := [];
         requests := [marketing_request (Some "ABC123")
                        (buildPrompt "beach sunset" Scenarios.scenario_config)];
         console_error := [] |}, []))
  /\ startsWith "ABC123" png_prefix = false
  /\ ~ (forall env img userPrompt config st r st',
          generateMarketingImage env img userPrompt config st = (Ok r, st') ->
          startsWith (imageUrl r) png_prefix = true).
Proof.
  assert (E : generateMarketingImage Scenarios.env_text_only "ABC123" "beach sunset"
                Scenarios.scenario_config (fresh, [])
              = (Ok {| imageUrl := "ABC123" |},
                 ({| fetched := [];
                     requests := [marketing_request (Some "ABC123")
                                    (buildPrompt "beach sunset" Scenarios.scenario_config)];
                     console_error := [] |}, []))) by reflexivity.
  split; [exact E|]. split; [reflexivity|].
  intros H. specialize (H _ _ _ _ _ _ _ E). discriminate H.
Qed.

(** What the scan of the parts gives, by whether a part carries inline
    data. *)
Lemma scan_parts_by_inline (imageResponse : GenResponse) (init : string) :
  if has_inline_image imageResponse
  then exists d, scan_parts (response_parts imageResponse) init = png_prefix ++ d
  else scan_parts (response_parts imageResponse) init = init.
Proof.
  unfold has_inline_image.
  induction (response_parts imageResponse) as [|part ps IH]; [reflexivity|].
  cbn [existsb scan_parts]. destruct (inlineData part) as [inline|]; cbn [orb].
  - eexists. reflexivity.
  - exact IH.
Qed.

(** A run that succeeds ends with the attempt that succeeded. *)
Lemma retry_loop_ok_last {W T} (operation : async W T) (delay : Z) (fuel : nat) :
  forall (i : Z) (lastError : thrown) (st st' : W * RetryLog) (v : T),
    retry_loop operation delay fuel i lastError st = (Ok v, st') ->
    exists w, operation w = (Ok v, fst st').
Proof.
  induction fuel as [|fuel IH]; intros i lastError [w log] st' v H.
  - discriminate.
  - cbn [retry_loop] in H. destruct (operation w) as [[v' | [|e]] w'] eqn:E.
    + exists w. injection H as <- <-. exact E.
    + discriminate.
    + destruct (is_retryable e); [now apply IH in H | discriminate].
Qed.

(** A successful attempt of generateMarketingImage, by the response it
    got. *)
Lemma marketing_attempt_ok_by_response (env : Environment) (img userPrompt : string)
    (config : GenerationConfig) (w w' : World) (r : GenerationResult) :
  marketing_attempt env img userPrompt config w = (Ok r, w') ->
  exists w1 clean imageResponse,
    requests w'
    = (requests w1 ++ [marketing_request clean (buildPrompt userPrompt config)])%list
    /\ generateContent_reply env (List.length (requests w1))
         (marketing_request clean (buildPrompt userPrompt config)) = Ok imageResponse
    /\ if has_inline_image imageResponse
       then startsWith (imageUrl r) png_prefix = true
       else imageUrl r = img.
Proof.
  unfold marketing_attempt, try_catch, bind, generateContent.
  destruct (prepareImageForAPI env img w) as [[clean | e] w1]; [|discriminate].
  destruct (generateContent_reply env _ _) as [resp | e] eqn:R; [|discriminate].
  intros H. exists w1, clean, resp. split; [|split; [exact R|]].
  - cbn in H. now injection H as _ <-.
  - pose proof (scan_parts_by_inline resp "") as S.
    destruct (has_inline_image resp).
    + destruct S as [d S]. rewrite S in H. cbn in H. injection H as <- _.
      apply startsWith_png.
    + rewrite S in H. cbn in H. now injection H as <- _.
Qed.

Lemma legacy_generateMarketingImage_ok_by_response (env : Environment)
    (img userPrompt : string) (config : GenerationConfig) (w w' : World)
    (r : GenerationResult) :
  LegacyService.generateMarketingImage env img userPrompt config w = (Ok r, w') ->
  exists imageResponse,
    requests w'
    = (requests w ++ [marketing_request (LegacyService.cleanBase64 img)
                        (LegacyService.buildPrompt userPrompt config)])%list
    /\ generateContent_reply env (List.length (requests w))
         (marketing_request (LegacyService.cleanBase64 img)
            (LegacyService.buildPrompt userPrompt config)) = Ok imageResponse
    /\ if has_inline_image imageResponse
       then startsWith (imageUrl r) png_prefix = true
       else imageUrl r = img.
Proof.
  unfold LegacyService.generateMarketingImage, try_catch, bind, generateContent.
  destruct (generateContent_reply env _ _) as [resp | e] eqn:R; [|discriminate].
  intros H. exists resp. split; [|split; [reflexivity|]].
  - cbn in H. now injection H as _ <-.
  - pose proof (scan_parts_by_inline resp img) as S.
    destruct (has_inline_image resp).
    + destruct S as [d S]. rewrite S in H. cbn in H. injection H as <- _.
      apply startsWith_png.
    + rewrite S in H. cbn in H. now injection H as <- _.
Qed.

(** C3, amended. Every successful generateVariantImage call returns an
    imageUrl that starts with [data:image/png;base64,]. A successful
    generateMarketingImage call (with or without the retry wrapper) ends
    with a request that the model answered, and its imageUrl goes by that
    response: it starts with that prefix when the response carries an
    inline-image part, and is the input image string unchanged when the
    response carries none. *)
Theorem generated_image_url_shape (env : Environment) (img : string) :
  (forall setting angle st r st',
     generateVariantImage env img setting angle st = (Ok r, st') ->
     startsWith (imageUrl r) png_prefix = true)
  /\ (forall userPrompt config st r st',
        generateMarketingImage env img userPrompt config st = (Ok r, st') ->
        exists w1 clean imageResponse,
          requests (fst st')
          = (requests w1 ++ [marketing_request clean (buildPrompt userPrompt config)])%list
          /\ generateContent_reply env (List.length (requests w1))
               (marketing_request clean (buildPrompt userPrompt config))
             = Ok imageResponse
          /\ if has_inline_image imageResponse
             then startsWith (imageUrl r) png_prefix = true
             else imageUrl r = img)
  /\ (forall userPrompt config w r w',
        LegacyService.generateMarketingImage env img userPrompt config w = (Ok r, w') ->
        exists imageResponse,
          requests w'
          = (requests w ++ [marketing_request (LegacyService.cleanBase64 img)
                              (LegacyService.buildPrompt userPrompt config)])%list
          /\ generateContent_reply env (List.length (requests w))
               (marketing_request (LegacyService.cleanBase64 img)
                  (LegacyService.buildPrompt userPrompt config))
             = Ok imageResponse
          /\ if has_inline_image imageResponse
             then startsWith (imageUrl r) png_prefix = true
             else imageUrl r = img).
Proof.
  split; [|split].
  - intros setting angle st r st' H.
    apply withRetry_ok in H as (w & w' & H). now apply variant_attempt_ok in H.
  - intros userPrompt config st r st' H.
    unfold generateMarketingImage, withRetry in H.
    apply retry_loop_ok_last in H as (w & H).
    now apply marketing_attempt_ok_by_response in H.
  - intros userPrompt config w r w'. apply legacy_generateMarketingImage_ok_by_response.
Qed.

Lemma generated_image_url_shape_witness :
  fst (generateVariantImage Scenarios.env_image "ABC123"
         "on a luxury white marble podium, soft lighting"
         "top-down flat lay view, organized composition" (fresh, []))
  = Ok {| imageUrl := "data:image/png;base64,iVBORw0KGgo=" |}
  /\ startsWith "data:image/png;base64,iVBORw0KGgo=" png_prefix = true
  /\ fst (generateMarketingImage Scenarios.env_text_only "ABC123" "beach sunset"
            Scenarios.scenario_config (fresh, []))
     = Ok {| imageUrl := "ABC123" |}
  /\ exists w1 clean imageResponse,
       requests (fst (snd (generateMarketingImage Scenarios.env_text_only "ABC123"
                             "beach sunset" Scenarios.scenario_config (fresh, []))))
       = (requests w1
          ++ [marketing_request clean
                (buildPrompt "beach sunset" Scenarios.scenario_config)])%list
       /\ generateContent_reply Scenarios.env_text_only (List.length (requests w1))
            (marketing_request clean
               (buildPrompt "beach sunset" Scenarios.scenario_config))
          = Ok imageResponse
       /\ if has_inline_image imageResponse
          then startsWith "ABC123" png_prefix = true
          else "ABC123" = "ABC123".
Proof.
  split; [reflexivity|]. split.
  - apply (proj1 (generated_image_url_shape Scenarios.env_image "ABC123")
             "on a luxury white marble podium, soft lighting"
             "top-down flat lay view, organized composition" (fresh, [])
             {| imageUrl := "data:image/png;base64,iVBORw0KGgo=" |}
             (snd (generateVariantImage Scenarios.env_image "ABC123"
                     "on a luxury white marble podium, soft lighting"
                     "top-down flat lay view, organized composition" (fresh, [])))).
    reflexivity.
  - split; [reflexivity|].
    apply (proj1 (proj2 (generated_image_url_shape Scenarios.env_text_only "ABC123"))
             "beach sunset" Scenarios.scenario_config (fresh, [])
             {| imageUrl := "ABC123" |}
             (snd (generateMarketingImage Scenarios.env_text_only "ABC123"
                     "beach sunset" Scenarios.scenario_config (fresh, [])))).
    reflexivity.
Defined.

(** One attempt on a remote URL whose fetch fails. *)
Lemma prepareImageForAPI_fetch_failure (env : Environment) (img : string)
    (w : World) (cause : thrown) :
  startsWith img "http" = true ->
  fetch_failure (fetch_reply env (List.length (fetched w)) img) = Some cause ->
  prepareImageForAPI env img w
  = (Throw source_image_error,
     {| fetched := (fetched w ++ [img])%list;
        requests := requests w;
        console_error := (console_error w ++ [("Image processing error:", cause)])%list |}).
Proof.
  intros Hh Hf. unfold prepareImageForAPI. rewrite Hh.
  unfold bind, try_catch, read_remote, bind, fetch.
  destruct (fetch_reply env (List.length (fetched w)) img) as [e | ok st blob];
    cbn in Hf |- *.
  - now injection Hf as ->.
  - destruct ok; cbn.
    + destruct blob as [e | reader]; cbn; [now injection Hf as -> | discriminate].
    + now injection Hf as <-.
Qed.

Lemma attempt_fetch_failure (env : Environment) (img : string) (w : World)
    (cause : thrown) :
  startsWith img "http" = true ->
  fetch_failure (fetch_reply env (List.length (fetched w)) img) = Some cause ->
  (forall userPrompt config,
     marketing_attempt env img userPrompt config w
     = (Throw source_image_error,
        after_fetch_failure w img cause "Gemini Generation Error:"))
  /\ (forall setting angle,
        variant_attempt env img setting angle w
        = (Throw source_image_error,
           after_fetch_failure w img cause "Gemini Flash Variant Error:")).
Proof.
  intros Hh Hf. split; intros.
  - unfold marketing_attempt, try_catch, bind.
    rewrite (prepareImageForAPI_fetch_failure env img w cause Hh Hf).
    unfold after_fetch_failure. cbn. now rewrite <- app_assoc.
  - unfold variant_attempt, try_catch, bind.
    rewrite (prepareImageForAPI_fetch_failure env img w cause Hh Hf).
    unfold after_fetch_failure. cbn. now rewrite <- app_assoc.
Qed.

(** C8. For an input that starts with [http] and whose fetch fails (the
    request is rejected, as on a network failure or a cross-origin denial,
    or the response is not ok, or its body cannot be read), either
    generation call fails with the source-image error, whose message is
    [Could not process source image. If using a demo image, ensure CORS is
    allowed.]; this error has no status and matches no transient marker, so
    the wrapper finds it terminal; the call makes exactly one attempt (one
    fetch, no request to the model, no warning and no wait, one entry in
    the journal of attempts) and the error reaches the caller. *)
Theorem source_fetch_failure_is_terminal (env : Environment) (img : string)
    (w : World) (log : RetryLog) (cause : thrown) :
  startsWith img "http" = true ->
  fetch_failure (fetch_reply env (List.length (fetched w)) img) = Some cause ->
  (exists e, source_image_error = Obj e /\ is_retryable e = false /\ status e = None
             /\ message e
                = Some "Could not process source image. If using a demo image, ensure CORS is allowed.")
  /\ (forall userPrompt config,
        generateMarketingImage env img userPrompt config (w, log)
        = (Throw source_image_error,
           (after_fetch_failure w img cause "Gemini Generation Error:", log))
        /\ withRetry (journaled (marketing_attempt env img userPrompt config))
             default_retries default_delay ((w, []), log)
           = (Throw source_image_error,
              ((after_fetch_failure w img cause "Gemini Generation Error:",
                [Throw source_image_error]), log)))
  /\ (forall setting angle,
        generateVariantImage env img setting angle (w, log)
        = (Throw source_image_error,
           (after_fetch_failure w img cause "Gemini Flash Variant Error:", log))
        /\ withRetry (journaled (variant_attempt env img setting angle))
             default_retries default_delay ((w, []), log)
           = (Throw source_image_error,
              ((after_fetch_failure w img cause "Gemini Flash Variant Error:",
                [Throw source_image_error]), log))).
Proof.
  intros Hh Hf.
  destruct (attempt_fetch_failure env img w cause Hh Hf) as [HM HV].
  split; [exact source_image_error_terminal|]. split.
  - intros userPrompt config. split.
    + unfold generateMarketingImage.
      apply (withRetry_first_terminal _ _ _ _ _ (HM userPrompt config)).
      reflexivity.
    + unfold withRetry. change (Z.to_nat default_retries) with 3%nat.
      assert (F : fst (marketing_attempt env img userPrompt config w) = Throw source_image_error)
        by now rewrite (HM userPrompt config).
      rewrite (retry_loop_terminal _ default_delay 2 0 Undefined w [] log _ F eq_refl).
      now rewrite (HM userPrompt config).
  - intros setting angle. split.
    + unfold generateVariantImage.
      apply (withRetry_first_terminal _ _ _ _ _ (HV setting angle)).
      reflexivity.
    + unfold withRetry. change (Z.to_nat default_retries) with 3%nat.
      assert (F : fst (variant_attempt env img setting angle w) = Throw source_image_error)
        by now rewrite (HV setting angle).
      rewrite (retry_loop_terminal _ default_delay 2 0 Undefined w [] log _ F eq_refl).
      now rewrite (HV setting angle).
Qed.

Lemma source_fetch_failure_is_terminal_witness :
  startsWith "https://images.unsplash.com/photo-1" "http" = true
  /\ fetch_failure
       (fetch_reply Scenarios.env_image (List.length (fetched fresh))
          "https://images.unsplash.com/photo-1")
     = Some Scenarios.failed_to_fetch
  /\ generateVariantImage Scenarios.env_image "https://images.unsplash.com/photo-1"
       "on a luxury white marble podium, soft lighting"
       "top-down flat lay view, organized composition" (fresh, [])
     = (Throw (Error "Could not process source image. If using a demo image, ensure CORS is allowed."),
        ({| fetched := ["https://images.unsplash.com/photo-1"];
            requests := [];
            console_error :=
              [("Image processing error:", Scenarios.failed_to_fetch);
               ("Gemini Flash Variant Error:",
                Error "Could not process source image. If using a demo image, ensure CORS is allowed.")] |},
         [])).
Proof.
  split; [reflexivity|]. split; [reflexivity|].
  exact (proj1 (proj2 (proj2
           (source_fetch_failure_is_terminal Scenarios.env_image
              "https://images.unsplash.com/photo-1" fresh []
              Scenarios.failed_to_fetch eq_refl eq_refl))
           "on a luxury white marble podium, soft lighting"
           "top-down flat lay view, organized composition")).
Defined.

End ServiceFacts.

(* ------------------------------------------------------------------ *)
(** ** The prompt composer *)

Section PromptFacts.

Import JsString GeminiService.
#[local] Open Scope string_scope.

Lemma includes_self_append (x rest : string) : includes (x ++ rest) x = true.
Proof. apply includes_prefix, prefix_self_append. Qed.

(** C5. For the configuration lockProduct, strictPose, keepFace (no
    blackAndWhite, no lockLocation) and the context [beach sunset], the
    composed instruction of either service file is the text written out
    below: it contains the strict product-preservation clause, with the
    sentence on the product text, logos and label details; under [Product
    Integrity] the strict-pose clause; under [Subject] the
    identity-retention clause; the text [beach sunset]; it does not contain
    the monochrome style clause, and carries the commercial style clause
    under [Style] instead. *)
Theorem scenario_beach_sunset :
  let prompt := buildPrompt "beach sunset" Scenarios.scenario_config in
  let legacy := LegacyService.buildPrompt "beach sunset" Scenarios.scenario_config in
  (prompt
      = nl
        ++ "        Professional Product Photography. "
        ++ nl
        ++ "        Task: Transform this reference image into a high-end commercial advertisement."
        ++ nl
        ++ "        "
        ++ nl
        ++ "        "
        ++ nl
        ++ "        CRITICAL - PRODUCT PRESERVATION:"
        ++ nl
        ++ "        The object held in the hand is a real commercial product. "
        ++ nl
        ++ "        You MUST preserve the PRODUCT TEXT, LOGOS, and LABEL DETAILS exactly as they appear in the reference image."
        ++ nl
        ++ "        Do not hallucinate new text on the label. Do not blur or distort the brand name."
        ++ nl
        ++ "        Treat the product pixels as ground truth."
        ++ nl
        ++ "        "
        ++ nl
        ++ "  "
        ++ nl
        ++ "        Product Integrity: The object being held (the product) MUST remain exactly as it appears. Ensure the hand grip is natural. STRICTLY mimic the exact arm angle, hand grip, and body posture of the reference image. Do not move the arm."
        ++ nl
        ++ "        Subject: Keep the user's face and identity recognizable, but enhance lighting and skin texture for a professional look."
        ++ nl
        ++ "        Context/Background: beach sunset. "
        ++ nl
        ++ "        Style: Commercial, High Key, 8k Resolution, Sharp Focus."
        ++ nl
        ++ "      "
   /\ includes prompt
        "CRITICAL - PRODUCT PRESERVATION:" = true
   /\ includes prompt
        "You MUST preserve the PRODUCT TEXT, LOGOS, and LABEL DETAILS exactly as they appear in the reference image." = true
   /\ includes prompt
        "Do not hallucinate new text on the label. Do not blur or distort the brand name." = true
   /\ includes prompt
        "Treat the product pixels as ground truth." = true
   /\ includes prompt
        "Product Integrity: The object being held (the product) MUST remain exactly as it appears. Ensure the hand grip is natural. STRICTLY mimic the exact arm angle, hand grip, and body posture of the reference image. Do not move the arm." = true
   /\ includes prompt
        "Subject: Keep the user's face and identity recognizable, but enhance lighting and skin texture for a professional look." = true
   /\ includes prompt
        "Context/Background: beach sunset. " = true
   /\ includes prompt
        "Style: Commercial, High Key, 8k Resolution, Sharp Focus." = true
   /\ includes prompt
        "Black and White Photography, High Contrast, Noir Style, Ansel Adams aesthetic." = false
   /\ includes prompt
        "Black and White" = false
   /\ includes prompt
        "Noir" = false)
  /\ (legacy
      = nl
        ++ "      Professional Product Photography. "
        ++ nl
        ++ "      Task: Transform this reference image into a high-end commercial advertisement."
        ++ nl
        ++ "      "
        ++ nl
        ++ "      "
        ++ nl
        ++ "      CRITICAL - PRODUCT PRESERVATION:"
        ++ nl
        ++ "      The object held in the hand is a real commercial product. "
        ++ nl
        ++ "      You MUST preserve the PRODUCT TEXT, LOGOS, and LABEL DETAILS exactly as they appear in the reference image."
        ++ nl
        ++ "      Do not hallucinate new text on the label. Do not blur or distort the brand name."
        ++ nl
        ++ "      Treat the product pixels as ground truth."
        ++ nl
        ++ "      "
        ++ nl
        ++ nl
        ++ "      Product Integrity: The object being held (the product) MUST remain exactly as it appears. Ensure the hand grip is natural. STRICTLY mimic the exact arm angle, hand grip, and body posture of the reference image."
        ++ nl
        ++ "      Subject: Keep the user's face and identity recognizable, but enhance lighting and skin texture for a professional look."
        ++ nl
        ++ "      Context/Background: beach sunset. "
        ++ nl
        ++ "      Style: Commercial, High Key, 8k Resolution, Sharp Focus."
        ++ nl
        ++ "    "
   /\ includes legacy
        "CRITICAL - PRODUCT PRESERVATION:" = true
   /\ includes legacy
        "You MUST preserve the PRODUCT TEXT, LOGOS, and LABEL DETAILS exactly as they appear in the reference image." = true
   /\ includes legacy
        "Do not hallucinate new text on the label. Do not blur or distort the brand name." = true
   /\ includes legacy
        "Treat the product pixels as ground truth." = true
   /\ includes legacy
        "Product Integrity: The object being held (the product) MUST remain exactly as it appears. Ensure the hand grip is natural. STRICTLY mimic the exact arm angle, hand grip, and body posture of the reference image." = true
   /\ includes legacy
        "Subject: Keep the user's face and identity recognizable, but enhance lighting and skin texture for a professional look." = true
   /\ includes legacy
        "Context/Background: beach sunset. " = true
   /\ includes legacy
        "Style: Commercial, High Key, 8k Resolution, Sharp Focus." = true
   /\ includes legacy
        "Black and White Photography, High Contrast, Noir Style, Ansel Adams aesthetic." = false
   /\ includes legacy
        "Black and White" = false
   /\ includes legacy
        "Noir" = false)
  /\ (includes prompt product_strict = true
      /\ includes prompt pose_strict = true
      /\ includes prompt face_keep = true
      /\ includes prompt "beach sunset" = true
      /\ includes prompt style_monochrome = false
      /\ includes prompt style_commercial = true)
  /\ (includes legacy LegacyService.product_strict = true
      /\ includes legacy LegacyService.pose_strict = true
      /\ includes legacy face_keep = true
      /\ includes legacy "beach sunset" = true
      /\ includes legacy style_monochrome = false
      /\ includes legacy style_commercial = true).
Proof. vm_compute. repeat split. Qed.

Lemma includes_segment (pre seg post : string) :
  includes (pre ++ seg ++ post) seg = true.
Proof. apply includes_append_r, includes_self_append. Qed.

(** C6, as stated, fails for the composer of src/services/geminiService.ts:
    with keepFace off its instruction carries the plain replacement clause,
    and neither the generative-swap clause nor any demographic wording. *)
Lemma legacy_replacement_has_no_demographics :
  keepFace Scenarios.swap_config = false
  /\ (let legacy := LegacyService.buildPrompt "beach sunset" Scenarios.swap_config in
      includes legacy LegacyService.face_replace = true
      /\ includes legacy face_swap = false
      /\ includes legacy "demographic" = false
      /\ includes legacy "gender" = false)
  /\ ~ (forall userPrompt config,
          keepFace config = false ->
          includes (LegacyService.buildPrompt userPrompt config) face_swap = true).
Proof.
  split; [reflexivity|]. split; [vm_compute; repeat split|].
  intros H. specialize (H "beach sunset" Scenarios.swap_config eq_refl).
  vm_compute in H. discriminate H.
Qed.

(** C6, amended. For every configuration and context, the line [Subject]
    of the composed instruction is, up to the line [Context/Background]
    that follows it: with keepFace on, in either service file, the
    identity-retention clause [Keep the user's face and identity
    recognizable, ...]; with keepFace off, in the retry-wrapped service,
    the generative-swap clause, which asks for a model chosen by age,
    gender and style for the product's demographic, and in
    src/services/geminiService.ts the plain clause [Replace the person with
    a professional model or character that fits the context.], which has
    no such wording. *)
Theorem face_clause_follows_keepFace (userPrompt : string) (config : GenerationConfig) :
  includes (buildPrompt userPrompt config)
    ("Subject: "
     ++ (if keepFace config
         then "Keep the user's face and identity recognizable, but enhance lighting and skin texture for a professional look."
         else "Generative swap: Replace the person in the image with a generated model. Use your best judgement to select a model (age, gender, style) that creates the strongest appeal for this specific product demographic. Do NOT preserve the original identity.")
     ++ nl ++ "        Context/Background: ") = true
  /\ includes (LegacyService.buildPrompt userPrompt config)
       ("Subject: "
        ++ (if keepFace config
            then "Keep the user's face and identity recognizable, but enhance lighting and skin texture for a professional look."
            else "Replace the person with a professional model or character that fits the context.")
        ++ nl ++ "      Context/Background: ") = true
  /\ includes (buildPrompt userPrompt config)
       (if keepFace config
        then "Keep the user's face and identity recognizable, but enhance lighting and skin texture for a professional look."
        else "Use your best judgement to select a model (age, gender, style) that creates the strongest appeal for this specific product demographic.") = true
  /\ includes "Replace the person with a professional model or character that fits the context." "demographic" = false
  /\ includes "Replace the person with a professional model or character that fits the context." "gender" = false
  /\ (includes (buildPrompt userPrompt config)
        (if keepFace config then face_keep else face_swap) = true
      /\ includes (LegacyService.buildPrompt userPrompt config)
           (if keepFace config then face_keep else LegacyService.face_replace) = true
      /\ includes face_swap "(age, gender, style)" = true
      /\ includes face_swap "product demographic" = true
      /\ includes LegacyService.face_replace "demographic" = false).
Proof.
  split; [|split; [|split; [|split; [|split; [|split; [|split; [|vm_compute; repeat split]]]]]]].
  - destruct config as [bw sp kf ll lp]. destruct bw, sp, kf, ll, lp;
      lazymatch goal with
      | |- includes (buildPrompt ?u ?c) ?seg = true =>
          exact (includes_segment
                   ((nl ++ "        Professional Product Photography. " ++ nl ++ "        Task: Transform this reference image into a high-end commercial advertisement." ++ nl ++ "        " ++ nl ++ "        ") ++ productPreservationPrompt c ++ (nl ++ "  " ++ nl ++ "        Product Integrity: ") ++ posePrompt c ++ (nl ++ "        "))
                   seg
                   (u ++ ". " ++ locationPrompt c ++ (nl ++ "        Style: ") ++ stylePrompt c ++ (nl ++ "      ")))
      end.
  - destruct config as [bw sp kf ll lp]. destruct bw, sp, kf, ll, lp;
      lazymatch goal with
      | |- includes (LegacyService.buildPrompt ?u ?c) ?seg = true =>
          exact (includes_segment
                   ((nl ++ "      Professional Product Photography. " ++ nl ++ "      Task: Transform this reference image into a high-end commercial advertisement." ++ nl ++ "      " ++ nl ++ "      ") ++ LegacyService.productPreservationPrompt c ++ (nl ++ nl ++ "      Product Integrity: ") ++ LegacyService.posePrompt c ++ (nl ++ "      "))
                   seg
                   (u ++ ". " ++ locationPrompt c ++ (nl ++ "      Style: ") ++ stylePrompt c ++ (nl ++ "    ")))
      end.
  - destruct config as [bw sp kf ll lp]. destruct kf.
    + destruct bw, sp, ll, lp;
      lazymatch goal with
      | |- includes (buildPrompt ?u ?c) ?seg = true =>
          exact (includes_segment
                   ((nl ++ "        Professional Product Photography. " ++ nl ++ "        Task: Transform this reference image into a high-end commercial advertisement." ++ nl ++ "        " ++ nl ++ "        ") ++ productPreservationPrompt c ++ (nl ++ "  " ++ nl ++ "        Product Integrity: ") ++ posePrompt c ++ (nl ++ "        Subject: "))
                   seg
                   ((nl ++ "        Context/Background: ") ++ u ++ ". " ++ locationPrompt c ++ (nl ++ "        Style: ") ++ stylePrompt c ++ (nl ++ "      ")))
      end.
    + destruct bw, sp, ll, lp;
      lazymatch goal with
      | |- includes (buildPrompt ?u ?c) ?seg = true =>
          exact (includes_segment
                   ((nl ++ "        Professional Product Photography. " ++ nl ++ "        Task: Transform this reference image into a high-end commercial advertisement." ++ nl ++ "        " ++ nl ++ "        ") ++ productPreservationPrompt c ++ (nl ++ "  " ++ nl ++ "        Product Integrity: ") ++ posePrompt c ++ (nl ++ "        Subject: ") ++ "Generative swap: Replace the person in the image with a generated model. ")
                   seg
                   (" Do NOT preserve the original identity." ++ (nl ++ "        Context/Background: ") ++ u ++ ". " ++ locationPrompt c ++ (nl ++ "        Style: ") ++ stylePrompt c ++ (nl ++ "      ")))
      end.
  - reflexivity.
  - reflexivity.
  - unfold buildPrompt.
    do 5 apply includes_append_r.
    apply includes_self_append.
  - unfold LegacyService.buildPrompt.
    do 5 apply includes_append_r.
    apply includes_self_append.
Qed.

End PromptFacts.

(* ------------------------------------------------------------------ *)
(** ** Rounding to binary64 *)

Section Binary64Facts.

Import Binary64.
#[local] Open Scope Q_scope.

Lemma pow2_pos (k : Z) : 0 < 2 ^ k.
Proof. apply Qpower_0_lt. reflexivity. Qed.

Lemma pow2_add (a b : Z) : 2 ^ (a + b) == 2 ^ a * 2 ^ b.
Proof. apply Qpower_plus. discriminate. Qed.

Lemma pow2_le (a b : Z) : (a <= b)%Z -> 2 ^ a <= 2 ^ b.
Proof. intros H. apply Qpower_le_compat_l; [exact H | discriminate]. Qed.

Lemma pow2_lt (a b : Z) : (a < b)%Z -> 2 ^ a < 2 ^ b.
Proof. intros H. apply Qpower_lt_compat_l; [exact H | reflexivity]. Qed.

Lemma pow2_lt_inv (a b : Z) : 2 ^ a < 2 ^ b -> (a < b)%Z.
Proof. intros H. apply (Qpower_lt_compat_l_inv 2); [exact H | reflexivity]. Qed.

Lemma pow2_cancel (k : Z) : 2 ^ k * 2 ^ (- k) == 1.
Proof. rewrite <- pow2_add. now replace (k + - k)%Z with 0%Z by lia. Qed.

Lemma pow2_Z (k : Z) : (0 <= k)%Z -> 2 ^ k == inject_Z (2 ^ k).
Proof. intros H. symmetry. exact (Zpower_Qpower 2 k H). Qed.

Lemma scale_le (x y : Q) (k : Z) : x <= y -> x * 2 ^ k <= y * 2 ^ k.
Proof. intros H. apply Qmult_le_compat_r; [exact H | apply Qlt_le_weak, pow2_pos]. Qed.

Lemma scale_lt (x y : Q) (k : Z) : x < y -> x * 2 ^ k < y * 2 ^ k.
Proof. intros H. apply Qmult_lt_compat_r; [apply pow2_pos | exact H]. Qed.

Lemma ilog2_bounds (x : Q) :
  0 < x -> 2 ^ ilog2 x <= x /\ x < 2 ^ (ilog2 x + 1).
Proof.
  intros Hx. destruct x as [p q].
  assert (Hp : (0 < p)%Z) by (unfold Qlt in Hx; cbn in Hx; lia).
  unfold ilog2. cbn [Qnum Qden].
  set (a := Z.log2 p). set (b := Z.log2 (Z.pos q)).
  assert (Ha0 : (0 <= a)%Z) by apply Z.log2_nonneg.
  assert (Hb0 : (0 <= b)%Z) by apply Z.log2_nonneg.
  destruct (Z.log2_spec p Hp) as [Ha1 Ha2]. fold a in Ha1, Ha2.
  destruct (Z.log2_spec (Z.pos q) ltac:(lia)) as [Hb1 Hb2]. fold b in Hb1, Hb2.
  rewrite Zle_Qle, <- pow2_Z in Ha1 by lia.
  rewrite Zlt_Qlt, <- pow2_Z in Ha2 by lia.
  rewrite Zle_Qle, <- pow2_Z in Hb1 by lia.
  rewrite Zlt_Qlt, <- pow2_Z in Hb2 by lia.
  assert (E : (p # q) * inject_Z (Z.pos q) == inject_Z p).
  { rewrite (Qmake_Qdiv p q). field. discriminate. }
  assert (Upper : p # q < 2 ^ (a - b + 1)).
  { replace (a - b + 1)%Z with (Z.succ a + - b)%Z by lia. rewrite pow2_add.
    apply Qmult_lt_r with (z := 2 ^ b); [apply pow2_pos|].
    rewrite <- Qmult_assoc, (Qmult_comm (2 ^ (- b))), pow2_cancel, Qmult_1_r.
    apply Qle_lt_trans with (inject_Z p); [|exact Ha2].
    rewrite <- E. apply Qmult_le_l; [exact Hx | exact Hb1]. }
  assert (Lower : 2 ^ (a - b - 1) < p # q).
  { replace (a - b - 1)%Z with (a + - Z.succ b)%Z by lia. rewrite pow2_add.
    apply Qmult_lt_r with (z := 2 ^ Z.succ b); [apply pow2_pos|].
    rewrite <- Qmult_assoc, (Qmult_comm (2 ^ (- Z.succ b))), pow2_cancel, Qmult_1_r.
    apply Qle_lt_trans with (inject_Z p); [exact Ha1|].
    rewrite <- E. apply Qmult_lt_l; [exact Hx | exact Hb2]. }
  destruct (Qle_bool (2 ^ (a - b)) (p # q)) eqn:T.
  - apply Qle_bool_iff in T. split; [exact T | exact Upper].
  - split; [apply Qlt_le_weak, Lower|].
    replace (a - b - 1 + 1)%Z with (a - b)%Z by lia.
    apply Qnot_le_lt. intros C. apply Qle_bool_iff in C. congruence.
Qed.

Lemma ilog2_unique (x : Q) (e : Z) :
  2 ^ e <= x -> x < 2 ^ (e + 1) -> ilog2 x = e.
Proof.
  intros L U.
  assert (Hx : 0 < x) by (apply Qlt_le_trans with (2 ^ e); [apply pow2_pos | exact L]).
  destruct (ilog2_bounds x Hx) as [L' U'].
  assert (ilog2 x < e + 1)%Z
    by (apply pow2_lt_inv; now apply Qle_lt_trans with x).
  assert (e < ilog2 x + 1)%Z
    by (apply pow2_lt_inv; now apply Qle_lt_trans with x).
  lia.
Qed.

Lemma ilog2_mono (x y : Q) : 0 < x -> x <= y -> (ilog2 x <= ilog2 y)%Z.
Proof.
  intros Hx H.
  assert (Hy : 0 < y) by now apply Qlt_le_trans with x.
  destruct (ilog2_bounds x Hx) as [L _], (ilog2_bounds y Hy) as [_ U].
  assert (ilog2 x < ilog2 y + 1)%Z.
  { apply pow2_lt_inv. apply Qle_lt_trans with x; [exact L|].
    now apply Qle_lt_trans with y. }
  lia.
Qed.

Lemma exponent_mono (x y : Q) : 0 < x -> x <= y -> (exponent x <= exponent y)%Z.
Proof. intros Hx H. pose proof (ilog2_mono x y Hx H). unfold exponent. lia. Qed.

(** *** Rounding to an integer *)

Lemma floor_spec (t : Q) : inject_Z (Qfloor t) <= t /\ t < inject_Z (Qfloor t) + 1.
Proof.
  split; [apply Qfloor_le|].
  pose proof (Qlt_floor t) as H. now rewrite inject_Z_plus in H.
Qed.

Lemma round_half_even_cases (t : Q) :
  (round_half_even t = Qfloor t /\ t - inject_Z (Qfloor t) <= 1 # 2)
  \/ (round_half_even t = (Qfloor t + 1)%Z /\ 1 # 2 <= t - inject_Z (Qfloor t)).
Proof.
  unfold round_half_even.
  destruct (Qcompare_spec (t - inject_Z (Qfloor t)) (1 # 2)) as [E | L | G].
  - destruct (Z.even (Qfloor t)).
    + left. split; [reflexivity | rewrite E; apply Qle_refl].
    + right. split; [reflexivity | rewrite E; apply Qle_refl].
  - left. split; [reflexivity | now apply Qlt_le_weak].
  - right. split; [reflexivity | now apply Qlt_le_weak].
Qed.

Lemma round_half_even_le (t : Q) (G : Z) : t <= inject_Z G -> (round_half_even t <= G)%Z.
Proof.
  intros H. destruct (floor_spec t) as [F1 F2].
  assert (HF : (Qfloor t <= G)%Z) by (rewrite Zle_Qle; lra).
  destruct (round_half_even_cases t) as [[-> _] | [-> Hh]]; [exact HF|].
  assert (Qfloor t < G)%Z by (rewrite Zlt_Qlt; lra). lia.
Qed.

Lemma round_half_even_ge (t : Q) (G : Z) : inject_Z G <= t -> (G <= round_half_even t)%Z.
Proof.
  intros H. destruct (floor_spec t) as [F1 F2].
  assert (HF : (G < Qfloor t + 1)%Z) by (rewrite Zlt_Qlt, inject_Z_plus; change (inject_Z 1) with 1; lra).
  destruct (round_half_even_cases t) as [[-> _] | [-> _]]; lia.
Qed.

Lemma round_half_even_mono (s t : Q) : s <= t -> (round_half_even s <= round_half_even t)%Z.
Proof.
  intros H. destruct (floor_spec s) as [S1 S2], (floor_spec t) as [T1 T2].
  pose proof (Qfloor_resp_le s t H) as HF.
  destruct (Z.eq_dec (Qfloor s) (Qfloor t)) as [E | NE].
  - unfold round_half_even. rewrite E in *.
    destruct (Qcompare_spec (s - inject_Z (Qfloor t)) (1 # 2)) as [Es | Ls | Gs];
      destruct (Qcompare_spec (t - inject_Z (Qfloor t)) (1 # 2)) as [Et | Lt' | Gt'];
      try destruct (Z.even (Qfloor t)); try lia; exfalso; lra.
  - assert (Qfloor s + 1 <= Qfloor t)%Z by lia.
    destruct (round_half_even_cases s) as [[-> _] | [-> _]];
      destruct (round_half_even_cases t) as [[-> _] | [-> _]]; lia.
Qed.

Lemma round_half_even_Z (z : Z) : round_half_even (inject_Z z) = z.
Proof.
  assert (H1 := round_half_even_le (inject_Z z) z (Qle_refl _)).
  assert (H2 := round_half_even_ge (inject_Z z) z (Qle_refl _)). lia.
Qed.

(** *** Rounding to binary64 *)

Lemma round_positive_eq (x : Q) :
  round_positive x
  == inject_Z (round_half_even (x * 2 ^ (- exponent x))) * 2 ^ exponent x.
Proof. unfold round_positive. cbv zeta. apply Qred_correct. Qed.

Lemma unscale (x : Q) (k : Z) : x * 2 ^ (- k) * 2 ^ k == x.
Proof.
  rewrite <- Qmult_assoc, (Qmult_comm (2 ^ (- k))), pow2_cancel. apply Qmult_1_r.
Qed.

Lemma unscale_r (x : Q) (k : Z) : x * 2 ^ k * 2 ^ (- k) == x.
Proof. rewrite <- Qmult_assoc, pow2_cancel. apply Qmult_1_r. Qed.

(** A positive number is not rounded across a number [G * 2^k] of its own
    grid or of a coarser one. *)
Lemma round_positive_le (x : Q) (G k : Z) :
  (exponent x <= k)%Z -> (0 <= G)%Z -> x <= inject_Z G * 2 ^ k ->
  round_positive x <= inject_Z G * 2 ^ k.
Proof.
  intros Hk HG H. rewrite round_positive_eq.
  set (u := exponent x) in *.
  assert (E : inject_Z G * 2 ^ k == inject_Z (G * 2 ^ (k - u)) * 2 ^ u).
  { rewrite inject_Z_mult, <- pow2_Z by lia.
    rewrite <- Qmult_assoc, <- pow2_add. now replace (k - u + u)%Z with k by lia. }
  rewrite E in *. apply scale_le. rewrite <- Zle_Qle.
  apply round_half_even_le.
  apply (scale_le _ _ (- u)) in H. now rewrite unscale_r in H.
Qed.

Lemma round_positive_ge (x : Q) (G k : Z) :
  (exponent x <= k)%Z -> (0 <= G)%Z -> inject_Z G * 2 ^ k <= x ->
  inject_Z G * 2 ^ k <= round_positive x.
Proof.
  intros Hk HG H. rewrite round_positive_eq.
  set (u := exponent x) in *.
  assert (E : inject_Z G * 2 ^ k == inject_Z (G * 2 ^ (k - u)) * 2 ^ u).
  { rewrite inject_Z_mult, <- pow2_Z by lia.
    rewrite <- Qmult_assoc, <- pow2_add. now replace (k - u + u)%Z with k by lia. }
  rewrite E in *. apply scale_le. rewrite <- Zle_Qle.
  apply round_half_even_ge.
  apply (scale_le _ _ (- u)) in H. now rewrite unscale_r in H.
Qed.

Lemma round_positive_mono (x y : Q) :
  0 < x -> x <= y -> round_positive x <= round_positive y.
Proof.
  intros Hx H.
  assert (Hy : 0 < y) by now apply Qlt_le_trans with x.
  pose proof (exponent_mono x y Hx H) as Hu.
  destruct (Z.eq_dec (exponent x) (exponent y)) as [E | NE].
  - rewrite !round_positive_eq, E. apply scale_le. rewrite <- Zle_Qle.
    apply round_half_even_mono. now apply scale_le.
  - destruct (ilog2_bounds x Hx) as [_ Ux], (ilog2_bounds y Hy) as [Ly _].
    unfold exponent in Hu, NE.
    assert (Hey : (ilog2 x < ilog2 y)%Z) by lia.
    assert (B : inject_Z 1 * 2 ^ ilog2 y == 2 ^ ilog2 y) by apply Qmult_1_l.
    apply Qle_trans with (inject_Z 1 * 2 ^ ilog2 y).
    + apply round_positive_le; [unfold exponent; lia | lia |].
      rewrite B. apply Qlt_le_weak. apply Qlt_le_trans with (2 ^ (ilog2 x + 1)); [exact Ux|].
      apply pow2_le. lia.
    + apply round_positive_ge; [unfold exponent; lia | lia |].
      now rewrite B.
Qed.

Lemma round_positive_nonneg (x : Q) : 0 <= x -> 0 <= round_positive x.
Proof.
  intros H. rewrite round_positive_eq.
  apply Qmult_le_0_compat; [|apply Qlt_le_weak, pow2_pos].
  change 0 with (inject_Z 0). rewrite <- Zle_Qle. apply round_half_even_ge.
  apply Qmult_le_0_compat; [exact H | apply Qlt_le_weak, pow2_pos].
Qed.

Lemma round_of_positive (x : Q) : 0 < x -> round x = round_positive x.
Proof. intros H. unfold round. apply Qgt_alt in H. now rewrite H. Qed.

Lemma round_nonneg (x : Q) : 0 <= x -> 0 <= round x.
Proof.
  intros H. unfold round. destruct (Qcompare_spec x 0) as [E | L | G].
  - apply Qle_refl.
  - exfalso. lra.
  - now apply round_positive_nonneg.
Qed.

(** Rounding keeps the order of the numbers that are not negative. *)
Lemma round_mono (x y : Q) : 0 <= x -> x <= y -> round x <= round y.
Proof.
  intros Hx H. unfold round at 1. destruct (Qcompare_spec x 0) as [E | L | G].
  - apply round_nonneg. lra.
  - exfalso. lra.
  - rewrite round_of_positive by lra. now apply round_positive_mono.
Qed.

Lemma is_binary64_eq (x : Q) : is_binary64 x = true <-> round x == x.
Proof. apply Qeq_bool_iff. Qed.

(** Between a binary64 number and the rounding of a real number there is
    the order of the two. *)
Lemma round_le (x g : Q) : 0 <= x -> x <= g -> is_binary64 g = true -> round x <= g.
Proof.
  intros Hx H Hg. apply is_binary64_eq in Hg. rewrite <- Hg. now apply round_mono.
Qed.

Lemma round_ge (x g : Q) : 0 <= g -> g <= x -> is_binary64 g = true -> g <= round x.
Proof.
  intros H0 H Hg. apply is_binary64_eq in Hg. rewrite <- Hg. now apply round_mono.
Qed.

(** The largest binary64 number below 1 is [1 - 2^-53]. *)
Lemma below_one (d : Q) :
  is_binary64 d = true -> 0 <= d -> d < 1 -> d <= 1 - 2 ^ (-53).
Proof.
  intros Hd H0 H1. apply is_binary64_eq in Hd.
  destruct (Qlt_le_dec 0 d) as [Hpos | Hz].
  2:{ apply Qle_trans with 0; [exact Hz | discriminate]. }
  rewrite (round_of_positive d Hpos), round_positive_eq in Hd.
  destruct (ilog2_bounds d Hpos) as [L U].
  assert (He : (ilog2 d < 0)%Z).
  { apply pow2_lt_inv. now apply Qle_lt_trans with d. }
  destruct (Z.eq_dec (ilog2 d) (-1)) as [E | NE].
  - unfold exponent in Hd. rewrite E in Hd.
    change (Z.max (-1) (-1022) - 52)%Z with (-53)%Z in Hd.
    set (k := round_half_even (d * 2 ^ (- -53))) in *.
    assert (Hk : (k < 2 ^ 53)%Z).
    { rewrite Zlt_Qlt. apply Qmult_lt_r with (z := 2 ^ (-53)); [apply pow2_pos|].
      rewrite Hd. apply Qlt_le_trans with 1; [exact H1 | discriminate]. }
    assert (Hk' : (k <= 2 ^ 53 - 1)%Z) by lia.
    rewrite <- Hd. rewrite Zle_Qle in Hk'.
    apply (scale_le _ _ (-53)) in Hk'.
    apply Qle_trans with (inject_Z (2 ^ 53 - 1) * 2 ^ (-53)); [exact Hk'|].
    discriminate.
  - apply Qlt_le_weak. apply Qlt_le_trans with (2 ^ (ilog2 d + 1)); [exact U|].
    apply Qle_trans with (2 ^ (-1)); [apply pow2_le; lia | discriminate].
Qed.

(** [Math.floor(d * n)] for a draw [d] of [Math.random] stays below [n],
    provided the largest draw does. *)
Lemma floor_mul_range (d : Q) (n : Z) :
  is_binary64 d = true -> 0 <= d -> d < 1 -> (0 < n)%Z ->
  round ((1 - 2 ^ (-53)) * inject_Z n) < inject_Z n ->
  (0 <= Qfloor (mul d (inject_Z n)) < n)%Z.
Proof.
  intros Hd H0 H1 Hn Hmax. unfold mul.
  assert (Hn' : 0 < inject_Z n) by (change 0 with (inject_Z 0); now rewrite <- Zlt_Qlt).
  assert (Hx : 0 <= d * inject_Z n)
    by (apply Qmult_le_0_compat; [exact H0 | now apply Qlt_le_weak]).
  pose proof (below_one d Hd H0 H1) as Hb.
  split.
  - change 0%Z with (Qfloor 0). apply Qfloor_resp_le. now apply round_nonneg.
  - rewrite Zlt_Qlt. apply Qle_lt_trans with (round (d * inject_Z n)); [apply Qfloor_le|].
    apply Qle_lt_trans with (round ((1 - 2 ^ (-53)) * inject_Z n)); [|exact Hmax].
    apply round_mono; [exact Hx|].
    apply Qmult_le_compat_r; [exact Hb | now apply Qlt_le_weak].
Qed.

Lemma largest_draw_scaled :
  round ((1 - 2 ^ (-53)) * 5) < 5
  /\ round ((1 - 2 ^ (-53)) * 6) < 6
  /\ round ((1 - 2 ^ (-53)) * 25) < 25.
Proof. vm_compute. repeat split. Qed.

End Binary64Facts.

(* ------------------------------------------------------------------ *)
(** ** The A/B fan-out *)

Section FanOutFacts.

Import JsString GeminiService DesignStudio.

(** The array of [Promise.allSettled] follows the positions of the
    promises, whichever settles first. *)
Lemma allSettled_pair {T} (a b : outcome T) (completion : list nat) :
  Permutation [0%nat; 1%nat] completion ->
  allSettled [a; b] completion = [settle a; settle b].
Proof.
  intros H. apply Permutation_length_2_inv in H as [-> | ->]; reflexivity.
Qed.

Lemma otherSettings_nonempty (selectedSetting : Preset.t) :
  (0 < List.length (otherSettings selectedSetting))%nat.
Proof.
  unfold otherSettings, SETTINGS. cbn [filter Preset.id].
  destruct ("marble" =? Preset.id selectedSetting)%string eqn:E1; cbn [negb].
  - destruct ("neon" =? Preset.id selectedSetting)%string eqn:E2; cbn [negb].
    + apply String.eqb_eq in E1, E2. rewrite <- E1 in E2. discriminate.
    + simpl. lia.
  - simpl. lia.
Qed.

(** Whatever the selected setting is, five or six settings are left for
    the challenger. *)
Lemma otherSettings_length (selectedSetting : Preset.t) :
  List.length (otherSettings selectedSetting) = 5%nat
  \/ List.length (otherSettings selectedSetting) = 6%nat.
Proof.
  unfold otherSettings.
  destruct (String.eqb_spec "marble" (Preset.id selectedSetting)) as [E | N1];
    [rewrite <- E; now left|].
  destruct (String.eqb_spec "neon" (Preset.id selectedSetting)) as [E | N2];
    [rewrite <- E; now left|].
  destruct (String.eqb_spec "nature" (Preset.id selectedSetting)) as [E | N3];
    [rewrite <- E; now left|].
  destruct (String.eqb_spec "minimal" (Preset.id selectedSetting)) as [E | N4];
    [rewrite <- E; now left|].
  destruct (String.eqb_spec "kitchen" (Preset.id selectedSetting)) as [E | N5];
    [rewrite <- E; now left|].
  destruct (String.eqb_spec "bananas" (Preset.id selectedSetting)) as [E | N6];
    [rewrite <- E; now left|].
  apply String.eqb_neq in N1, N2, N3, N4, N5, N6.
  unfold SETTINGS. cbn [filter Preset.id].
  rewrite N1, N2, N3, N4, N5, N6. now right.
Qed.

Lemma floor_scaled_range (r : Q) (n : Z) :
  Binary64.is_binary64 r = true -> (0 <= r)%Q -> (r < 1)%Q ->
  n = 5 \/ n = 6 \/ n = 25 ->
  0 <= floor_scaled r n < n.
Proof.
  intros Hr H0 H1 Hn. unfold floor_scaled.
  destruct largest_draw_scaled as (L5 & L6 & L25).
  destruct Hn as [-> | [-> | ->]];
    apply floor_mul_range; try assumption; reflexivity.
Qed.

Lemma index_Z_in_range {A} (arr : list A) (z : Z) :
  0 <= z < Z.of_nat (List.length arr) -> exists x, index_Z arr z = Some x.
Proof.
  intros [H0 H1]. unfold index_Z.
  destruct (z <? 0) eqn:E; [apply Z.ltb_lt in E; lia|].
  destruct (nth_error arr (Z.to_nat z)) as [x|] eqn:N; [now exists x|].
  apply nth_error_None in N. lia.
Qed.

(** A draw of [Math.random] always picks a challenger. *)
Lemma pick_challenger_total (r : Q) (selectedSetting : Preset.t) :
  Binary64.is_binary64 r = true -> (0 <= r)%Q -> (r < 1)%Q ->
  exists variantB, pick_challenger r selectedSetting = Some variantB.
Proof.
  intros Hr H0 H1. unfold pick_challenger. apply index_Z_in_range.
  apply floor_scaled_range; try assumption.
  destruct (otherSettings_length selectedSetting) as [-> | ->]; [now left | right; now left].
Qed.

(** C9. In the A/B fan-out, whichever of the two calls settles first: when
    exactly one of them fails, the handler produces exactly one result,
    tagged [A] or [B] after the array position of the call that succeeded
    and carrying its image, and nothing is thrown (no alert is shown); the
    [try] block throws exactly when both calls fail. The draw of
    [Math.random] is any number of [0, 1). *)
Theorem ab_fanout_partial_failure (random : nat -> Q) (envs : nat -> Environment)
    (completion : list nat) (st : Studio) (img : string) :
  originalImage st = Some img ->
  falsy img = false ->
  isRunningAB st = false ->
  Permutation [0%nat; 1%nat] completion ->
  Binary64.is_binary64 (random (random_draws st)) = true ->
  (0 <= random (random_draws st))%Q ->
  (random (random_draws st) < 1)%Q ->
  exists variantB,
    pick_challenger (random (random_draws st)) (selectedSetting st) = Some variantB
    /\ let a := launch envs 0 img (Preset.prompt (selectedSetting st))
                  (Preset.prompt (selectedAngle st)) in
       let b := launch envs 1 img (Preset.prompt variantB)
                  (Preset.prompt (selectedAngle st)) in
       let body := fst (ab_test_body random envs completion img
                          (selectedSetting st) (selectedAngle st) (random_draws st)) in
       let st' := handleRunABTest random envs completion st in
       (forall ra eb,
          a = Ok ra -> b = Throw eb ->
          exists r,
            body = Ok [r] /\ abResults st' = [r] /\ alerts st' = alerts st
            /\ id r = "A"%string /\ image r = imageUrl ra
            /\ settingName r = Preset.label (selectedSetting st))
       /\ (forall ea rb,
             a = Throw ea -> b = Ok rb ->
             exists r,
               body = Ok [r] /\ abResults st' = [r] /\ alerts st' = alerts st
               /\ id r = "B"%string /\ image r = imageUrl rb
               /\ settingName r = Preset.label variantB)
       /\ (forall e,
             body = Throw e <->
             e = both_failed_error /\ exists ea eb, a = Throw ea /\ b = Throw eb).
Proof.
  intros Himg Hfalsy Hrun Hperm Hb H0 H1.
  destruct (pick_challenger_total _ (selectedSetting st) Hb H0 H1) as [variantB Hpick].
  exists variantB. split; [exact Hpick|].
  intros a b body st'.
  assert (Hbody : ab_test_body random envs completion img
                    (selectedSetting st) (selectedAngle st) (random_draws st)
                  = (validResults <- process_slot random [settle a; settle b] 0 "A"
                                       (selectedSetting st) 1240 [] ;;
                     validResults <- process_slot random [settle a; settle b] 1 "B"
                                       variantB 1180 validResults ;;
                     if (List.length validResults =? 0)%nat
                     then throw both_failed_error
                     else ret validResults)%async (S (random_draws st))).
  { unfold ab_test_body, bind at 1, math_random.
    rewrite Hpick, (allSettled_pair _ _ _ Hperm). reflexivity. }
  assert (Hst : st' = match ab_test_body random envs completion img
                              (selectedSetting st) (selectedAngle st) (random_draws st) with
                      | (Ok validResults, draws) =>
                          {| originalImage := originalImage st;
                             selectedSetting := selectedSetting st;
                             selectedAngle := selectedAngle st;
                             isRunningAB := false;
                             abResults := validResults;
                             alerts := alerts st;
                             studio_console_error := studio_console_error st;
                             random_draws := draws |}
                      | (Throw e, draws) =>
                          {| originalImage := originalImage st;
                             selectedSetting := selectedSetting st;
                             selectedAngle := selectedAngle st;
                             isRunningAB := false;
                             abResults := [];
                             alerts := alerts st ++ [ab_alert];
                             studio_console_error :=
                               studio_console_error st ++ [("AB Test Error"%string, e)];
                             random_draws := draws |}
                      end).
  { subst st'. unfold handleRunABTest. now rewrite Himg, Hfalsy, Hrun. }
  subst body. rewrite Hst, Hbody. clear Hst Hbody.
  split; [|split; [|intros e; split]].
  - intros ra eb -> ->. eexists. cbn. repeat split.
  - intros ea rb -> ->. eexists. cbn. repeat split.
  - intros H.
    destruct a as [ra | ea], b as [rb | eb]; cbn in H; try discriminate H.
    injection H as <-. split; [reflexivity | now exists ea, eb].
  - intros [-> (ea & eb & -> & ->)]. reflexivity.
Qed.

Lemma ab_fanout_partial_failure_witness :
  Permutation [0%nat; 1%nat] [1%nat; 0%nat]
  /\ Binary64.is_binary64 (Scenarios.half 0) = true
  /\ (0 <= Scenarios.half 0)%Q /\ (Scenarios.half 0 < 1)%Q
  /\ (exists r,
        abResults (handleRunABTest Scenarios.half Scenarios.envs_only_A
                     [1%nat; 0%nat] (studio_with "ABC123")) = [r]
        /\ id r = "A"%string
        /\ image r = "data:image/png;base64,iVBORw0KGgo="%string)
  /\ (exists r,
        abResults (handleRunABTest Scenarios.half Scenarios.envs_only_B
                     [1%nat; 0%nat] (studio_with "ABC123")) = [r]
        /\ id r = "B"%string
        /\ image r = "data:image/png;base64,iVBORw0KGgo="%string).
Proof.
  assert (P : Permutation [0%nat; 1%nat] [1%nat; 0%nat]) by apply perm_swap.
  assert (L : (0 <= Scenarios.half 0)%Q) by (unfold Qle; simpl; lia).
  assert (U : (Scenarios.half 0 < 1)%Q) by (unfold Qlt; simpl; lia).
  split; [exact P|]. split; [reflexivity|]. split; [exact L|]. split; [exact U|]. split.
  - destruct (ab_fanout_partial_failure Scenarios.half Scenarios.envs_only_A
                [1%nat; 0%nat] (studio_with "ABC123") "ABC123"
                eq_refl eq_refl eq_refl P eq_refl L U)
      as (variantB & Hpick & HA & _ & _).
    vm_compute in Hpick. injection Hpick as <-.
    destruct (HA {| imageUrl := "data:image/png;base64,iVBORw0KGgo=" |}
                 no_image_error eq_refl eq_refl)
      as (r & _ & Hres & _ & Hid & Himage & _).
    exists r. repeat split; assumption.
  - destruct (ab_fanout_partial_failure Scenarios.half Scenarios.envs_only_B
                [1%nat; 0%nat] (studio_with "ABC123") "ABC123"
                eq_refl eq_refl eq_refl P eq_refl L U)
      as (variantB & Hpick & _ & HB & _).
    vm_compute in Hpick. injection Hpick as <-.
    destruct (HB no_image_error
                 {| imageUrl := "data:image/png;base64,iVBORw0KGgo=" |}
                 eq_refl eq_refl)
      as (r & _ & Hres & _ & Hid & Himage & _).
    exists r. repeat split; assumption.
Defined.

End FanOutFacts.

(* ------------------------------------------------------------------ *)
(** ** More on the retry wrapper *)

Section RetryMore.

Import RetryMeasures.

Context {W T : Type}.
Variable operation : async W T.

Lemma waits_app (a b : RetryLog) : waits (a ++ b) = waits a ++ waits b.
Proof. unfold waits. apply flat_map_app. Qed.

Lemma waits_linear_log_map (delay : Z) (errors : list thrown) :
  forall i,
    waits (linear_log delay i errors)
    = map (fun n => delay * (i + Z.of_nat n + 1)) (seq 0 (List.length errors)).
Proof.
  induction errors as [|e errors IH]; intros i; [reflexivity|].
  cbn [linear_log List.length]. change (waits (Warned (i + 1) delay e
      :: Waited (delay * (i + 1)) :: linear_log delay (i + 1) errors))
    with (delay * (i + 1) :: waits (linear_log delay (i + 1) errors)).
  rewrite IH. cbn [seq map]. f_equal; [f_equal; lia|].
  rewrite <- seq_shift, map_map. apply map_ext. intros n. f_equal. lia.
Qed.

Lemma total_wait_linear_log (delay : Z) (errors : list thrown) :
  forall i,
    2 * total_wait (linear_log delay i errors)
    = delay * Z.of_nat (List.length errors)
      * (2 * i + Z.of_nat (List.length errors) + 1).
Proof.
  unfold total_wait.
  induction errors as [|e errors IH]; intros i; [cbn; lia|].
  change (waits (linear_log delay i (e :: errors)))
    with (delay * (i + 1) :: waits (linear_log delay (i + 1) errors)).
  cbn [fold_right List.length]. rewrite Z.mul_add_distr_l, IH, Nat2Z.inj_succ. ring.
Qed.

(** An operation that fails with retryable errors [k] times and then
    succeeds, within the bound, is invoked [k + 1] times. *)
Lemma retry_loop_recovers (delay : Z) (k : nat) :
  forall (fuel : nat) (i : Z) (lastError : thrown) (w : W)
         (journal : list (outcome T)) (log : RetryLog) (v : T),
    (k < fuel)%nat ->
    (forall n, (n < k)%nat ->
       exists e, fst (operation (after_invocations operation n w)) = Throw (Obj e)
                 /\ is_retryable e = true) ->
    fst (operation (after_invocations operation k w)) = Ok v ->
    exists entries errors,
      retry_loop (journaled operation) delay fuel i lastError ((w, journal), log)
      = (Ok v, ((after_invocations operation (S k) w, journal ++ entries),
                log ++ linear_log delay i errors))
      /\ List.length entries = S k /\ List.length errors = k.
Proof.
  induction k as [|k IH]; intros fuel i lastError w journal log v Hk Hfail Hok;
    (destruct fuel as [|fuel]; [lia|]).
  - exists [Ok v], []. cbn [retry_loop linear_log].
    rewrite journaled_run. cbn in Hok. rewrite Hok, app_nil_r.
    repeat split.
  - destruct (Hfail 0%nat ltac:(lia)) as (e0 & E0 & R0). cbn in E0.
    destruct (IH fuel (i + 1) (Obj e0) (snd (operation w))
                 (journal ++ [Throw (Obj e0)])
                 (log ++ [Warned (i + 1) delay (Obj e0); Waited (delay * (i + 1))]) v)
      as (entries & errors & Hrun & Hlen & Hlen').
    + lia.
    + intros n Hn. rewrite after_invocations_shift. apply Hfail. lia.
    + now rewrite after_invocations_shift.
    + exists (Throw (Obj e0) :: entries), (Obj e0 :: errors).
      cbn [retry_loop]. rewrite journaled_run, E0, R0.
      split; [|split; simpl; lia].
      etransitivity; [exact Hrun|].
      rewrite after_invocations_shift, <- !app_assoc. reflexivity.
Qed.

(** The journal of a run: as many entries as invocations, at most the
    fuel, and the world is the one left by these invocations. *)
Lemma retry_loop_journal (delay : Z) (fuel : nat) :
  forall (i : Z) (lastError : thrown) (w : W)
         (journal : list (outcome T)) (log : RetryLog),
    exists entries,
      fst (snd (retry_loop (journaled operation) delay fuel i lastError
                  ((w, journal), log)))
      = (after_invocations operation (List.length entries) w, journal ++ entries)
      /\ (List.length entries <= fuel)%nat
      /\ (fuel <> 0%nat -> entries <> []).
Proof.
  induction fuel as [|fuel IH]; intros i lastError w journal log.
  - exists []. cbn. rewrite app_nil_r. repeat split; [lia | congruence].
  - cbn [retry_loop]. rewrite journaled_run.
    destruct (fst (operation w)) as [v | [|e]] eqn:E.
    + exists [Ok v]. cbn. repeat split; [lia | discriminate].
    + exists [Throw Undefined]. cbn. repeat split; [lia | discriminate].
    + destruct (is_retryable e) eqn:R.
      * destruct (IH (i + 1) (Obj e) (snd (operation w)) (journal ++ [Throw (Obj e)])
                     (log ++ [Warned (i + 1) delay (Obj e); Waited (delay * (i + 1))]))
          as (entries & Hrun & Hlen & _).
        exists (Throw (Obj e) :: entries). repeat split.
        -- etransitivity; [exact Hrun|].
           cbn [List.length]. rewrite after_invocations_shift, <- app_assoc.
           reflexivity.
        -- simpl. lia.
        -- discriminate.
      * exists [Throw (Obj e)]. cbn. repeat split; [lia | discriminate].
Qed.

End RetryMore.

(** X1. An operation that fails with retryable errors at its first [k]
    invocations and succeeds at the next one, with [k] below the bound, is
    invoked exactly [k + 1] times; the wrapper returns its value after the
    waits [delay * 1, ..., delay * k]. *)
Theorem withRetry_recovers {W T : Type} (operation : async W T)
    (retries delay : Z) (k : nat) (w : W) (v : T) :
  (k < Z.to_nat retries)%nat ->
  (forall n, (n < k)%nat ->
     exists e, fst (operation (after_invocations operation n w)) = Throw (Obj e)
               /\ is_retryable e = true) ->
  fst (operation (after_invocations operation k w)) = Ok v ->
  exists journal log,
    withRetry (journaled operation) retries delay ((w, []), [])
    = (Ok v, ((after_invocations operation (S k) w, journal), log))
    /\ List.length journal = S k
    /\ waits log = RetryMeasures.linear_waits delay k.
Proof.
  intros Hk Hfail Hok.
  destruct (retry_loop_recovers operation delay k (Z.to_nat retries) 0 Undefined
              w [] [] v Hk Hfail Hok)
    as (entries & errors & Hrun & Hlen & Hlen').
  exists entries, (linear_log delay 0 errors). repeat split; try assumption.
  rewrite waits_linear_log_map, Hlen'. unfold RetryMeasures.linear_waits.
  apply map_ext. intros n. f_equal.
Qed.

Lemma withRetry_recovers_witness :
  withRetry (journaled Scenarios.third_time_lucky) default_retries default_delay
    ((0%nat, []), [])
  = (Ok "done"%string,
     ((3%nat, [Throw (Obj Scenarios.overloaded); Throw (Obj Scenarios.overloaded);
               Ok "done"%string]),
      [Warned 1 1000 (Obj Scenarios.overloaded); Waited 1000;
       Warned 2 1000 (Obj Scenarios.overloaded); Waited 2000]))
  /\ exists journal log,
       withRetry (journaled Scenarios.third_time_lucky) default_retries default_delay
         ((0%nat, []), [])
       = (Ok "done"%string,
          ((after_invocations Scenarios.third_time_lucky 3 0%nat, journal), log))
       /\ List.length journal = 3%nat
       /\ waits log = [1000; 2000].
Proof.
  split; [reflexivity|].
  apply (withRetry_recovers Scenarios.third_time_lucky default_retries default_delay
           2 0%nat "done"%string).
  - simpl. lia.
  - intros n Hn. exists Scenarios.overloaded. split; [|reflexivity].
    destruct n as [|[|n]]; [reflexivity | reflexivity | lia].
  - reflexivity.
Defined.

(** X2. Whatever the operation does, the wrapper invokes it at most
    [retries] times and at least once when [retries] is positive; it waits
    at most [delay * retries * (retries + 1) / 2] milliseconds in all (6000
    with the defaults); and with [retries <= 0] it throws [undefined]
    without invoking the operation at all. *)
Theorem withRetry_effort_bounds {W T : Type} (operation : async W T)
    (retries delay : Z) (w : W) :
  let run := withRetry (journaled operation) retries delay ((w, []), []) in
  let journal := snd (fst (snd run)) in
  let log := snd (snd run) in
  let n := Z.of_nat (Z.to_nat retries) in
  (List.length journal <= Z.to_nat retries)%nat
  /\ (0 < retries -> journal <> [])
  /\ fst (fst (snd run)) = after_invocations operation (List.length journal) w
  /\ (0 <= delay -> 2 * RetryMeasures.total_wait log <= delay * n * (n + 1))
  /\ (retries = default_retries -> delay = default_delay ->
      RetryMeasures.total_wait log <= 6000)
  /\ (retries <= 0 -> run = (Throw Undefined, ((w, []), []))).
Proof.
  intros run journal log n. subst run journal log. unfold withRetry.
  destruct (retry_loop_journal operation delay (Z.to_nat retries) 0 Undefined w [] [])
    as (entries & Hj & Hlen & Hne).
  destruct (retry_loop_log (journaled operation) delay (Z.to_nat retries) 0 Undefined
              (w, []) [])
    as (errors & Hlog & Hlen' & _).
  rewrite Hj, Hlog. cbn [fst snd app].
  assert (B : 0 <= delay ->
              2 * RetryMeasures.total_wait (linear_log delay 0 errors)
              <= delay * n * (n + 1)).
  { intros Hd. rewrite total_wait_linear_log. subst n. nia. }
  repeat split.
  - exact Hlen.
  - intros Hr. apply Hne. lia.
  - exact B.
  - intros -> ->. subst n. specialize (B ltac:(unfold default_delay; lia)).
    change (Z.of_nat (Z.to_nat default_retries)) with 3 in B.
    unfold default_delay in *. lia.
  - intros Hr. replace (Z.to_nat retries) with 0%nat by lia. reflexivity.
Qed.

Lemma withRetry_effort_bounds_witness :
  (0 < default_retries)
  /\ (0 <= default_delay)
  /\ List.length
       (snd (fst (snd (withRetry (journaled Scenarios.always_overloaded)
                         default_retries default_delay ((0%nat, []), [])))))
     = 3%nat
  /\ RetryMeasures.total_wait
       (snd (snd (withRetry (journaled Scenarios.always_overloaded)
                    default_retries default_delay ((0%nat, []), []))))
     = 6000
  /\ snd (fst (snd (withRetry (journaled Scenarios.always_overloaded)
                      default_retries default_delay ((0%nat, []), [])))) <> [].
Proof.
  split; [reflexivity|]. split; [discriminate|]. split; [reflexivity|].
  split; [reflexivity|].
  exact (proj1 (proj2 (withRetry_effort_bounds Scenarios.always_overloaded
                         default_retries default_delay 0%nat)) eq_refl).
Defined.

(* ------------------------------------------------------------------ *)
(** ** More on the generation calls *)

Section ServiceMore.

Import JsString GeminiService Footprint.
#[local] Open Scope string_scope.

(** The journal is an observation: it does not change what the wrapper
    does. *)
Lemma journaled_retry_loop {W T} (operation : async W T) (delay : Z) (fuel : nat) :
  forall (i : Z) (lastError : thrown) (w : W) (journal : list (outcome T))
         (log : RetryLog),
    retry_loop operation delay fuel i lastError (w, log)
    = (fst (retry_loop (journaled operation) delay fuel i lastError
              ((w, journal), log)),
       (fst (fst (snd (retry_loop (journaled operation) delay fuel i lastError
                         ((w, journal), log)))),
        snd (snd (retry_loop (journaled operation) delay fuel i lastError
                    ((w, journal), log))))).
Proof.
  induction fuel as [|fuel IH]; intros i lastError w journal log; [reflexivity|].
  cbn [retry_loop]. rewrite journaled_run.
  destruct (operation w) as [[v | [|e]] w']; cbn [fst snd]; try reflexivity.
  destruct (is_retryable e); [|reflexivity].
  etransitivity; [apply (IH _ _ _ (journal ++ [Throw (Obj e)])%list)|]. reflexivity.
Qed.

(** The world a run leaves is the world after some number of invocations,
    at most the fuel and at least one when there is fuel. *)
Lemma retry_loop_world {W T} (operation : async W T) (delay : Z) (fuel : nat)
    (i : Z) (lastError : thrown) (w : W) (log : RetryLog) :
  exists k,
    (k <= fuel)%nat /\ (fuel <> 0%nat -> k <> 0%nat)
    /\ fst (snd (retry_loop operation delay fuel i lastError (w, log)))
       = after_invocations operation k w.
Proof.
  destruct (retry_loop_journal operation delay fuel i lastError w [] log)
    as (entries & Hj & Hlen & Hne).
  exists (List.length entries). repeat split.
  - exact Hlen.
  - intros Hf E. apply (Hne Hf). now apply length_zero_iff_nil.
  - rewrite (journaled_retry_loop operation delay fuel i lastError w [] log).
    cbn [fst snd]. now rewrite Hj.
Qed.

Lemma grows_by_refl (P : GenRequest -> Prop) (img : string) (w : World) :
  grows_by P img 0 w w.
Proof.
  exists [], []. rewrite !app_nil_r. repeat split; auto.
Qed.

Lemma grows_by_step (P : GenRequest -> Prop) (img : string) (k : nat)
    (w w' w'' : World) :
  grows_by P img k w w' -> grows_by P img 1 w' w'' -> grows_by P img (S k) w w''.
Proof.
  intros (fs & rs & Hf & Hr & Lf & Lr & Ff & Fr)
         (fs' & rs' & Hf' & Hr' & Lf' & Lr' & Ff' & Fr').
  exists (fs ++ fs')%list, (rs ++ rs')%list.
  rewrite Hf', Hf, Hr', Hr, <- !app_assoc, !length_app.
  repeat split; try lia; apply Forall_app; now split.
Qed.

Lemma grows_by_weaken (P : GenRequest -> Prop) (img : string) (k k' : nat)
    (w w' : World) :
  (k <= k')%nat -> grows_by P img k w w' -> grows_by P img k' w w'.
Proof.
  intros Hk (fs & rs & Hf & Hr & Lf & Lr & Ff & Fr).
  exists fs, rs. repeat split; try assumption; lia.
Qed.

Lemma after_invocations_grows {T} (operation : async World T)
    (P : GenRequest -> Prop) (img : string) :
  (forall w, grows_by P img 1 w (snd (operation w))) ->
  forall k w, grows_by P img k w (after_invocations operation k w).
Proof.
  intros Hstep. induction k as [|k IH]; intros w.
  - apply grows_by_refl.
  - cbn [after_invocations]. eapply grows_by_step; [apply IH | apply Hstep].
Qed.

(** Normalization sends no request, and fetches the input when it is a
    remote URL. *)
Lemma prepareImageForAPI_requests (env : Environment) (input : string) (w : World) :
  requests (snd (prepareImageForAPI env input w)) = requests w.
Proof.
  unfold prepareImageForAPI.
  destruct (startsWith input "http").
  - unfold bind, try_catch, read_remote, bind, fetch.
    destruct (fetch_reply env (List.length (fetched w)) input) as [e | ok st blob]; cbn.
    + reflexivity.
    + destruct ok; cbn; [|reflexivity].
      destruct blob as [e | reader]; cbn; [reflexivity|].
      destruct reader; reflexivity.
  - destruct (includes input "base64,"); reflexivity.
Qed.

Lemma prepareImageForAPI_fetched (env : Environment) (input : string) (w : World) :
  fetched (snd (prepareImageForAPI env input w))
  = (fetched w ++ (if startsWith input "http" then [input] else []))%list.
Proof.
  destruct (startsWith input "http") eqn:Hh.
  - now apply prepareImageForAPI_http_fetches.
  - unfold prepareImageForAPI. rewrite Hh, app_nil_r.
    destruct (includes input "base64,"); reflexivity.
Qed.

(** Without the remote-URL case, normalization is the clean-up of the
    earlier service file. *)
Lemma prepareImageForAPI_local (env : Environment) (input : string) (w : World) :
  startsWith input "http" = false ->
  prepareImageForAPI env input w = (Ok (LegacyService.cleanBase64 input), w).
Proof.
  intros Hh. unfold prepareImageForAPI, LegacyService.cleanBase64. rewrite Hh.
  destruct (includes input "base64,"); reflexivity.
Qed.

Lemma variant_attempt_grows (env : Environment) (img setting angle : string) (w : World) :
  grows_by (is_variant_request setting angle) img 1 w
    (snd (variant_attempt env img setting angle w)).
Proof.
  pose proof (prepareImageForAPI_requests env img w) as R.
  pose proof (prepareImageForAPI_fetched env img w) as F.
  unfold variant_attempt, try_catch, bind, generateContent.
  destruct (prepareImageForAPI env img w) as [[clean | e] w1]; cbn [snd] in R, F.
  - exists (if startsWith img "http" then [img] else []),
           [variant_request clean (variantPrompt setting angle)].
    assert (Q : is_variant_request setting angle
                  (variant_request clean (variantPrompt setting angle)))
      by (repeat split).
    destruct (generateContent_reply env _ _) as [resp | e]; cbn.
    + destruct (falsy _); cbn; rewrite F, R;
        (repeat split; [destruct (startsWith img "http"); simpl; lia | simpl; lia
                       | destruct (startsWith img "http"); auto | auto]).
    + rewrite F, R.
      repeat split; [destruct (startsWith img "http"); simpl; lia | simpl; lia
                    | destruct (startsWith img "http"); auto | auto].
  - exists (if startsWith img "http" then [img] else []), []. cbn.
    rewrite F, R, app_nil_r.
    repeat split; [destruct (startsWith img "http"); simpl; lia | simpl; lia
                  | destruct (startsWith img "http"); auto | auto].
Qed.

Lemma marketing_attempt_grows (env : Environment) (img userPrompt : string)
    (config : GenerationConfig) (w : World) :
  grows_by (is_marketing_request userPrompt config) img 1 w
    (snd (marketing_attempt env img userPrompt config w)).
Proof.
  pose proof (prepareImageForAPI_requests env img w) as R.
  pose proof (prepareImageForAPI_fetched env img w) as F.
  unfold marketing_attempt, try_catch, bind, generateContent.
  destruct (prepareImageForAPI env img w) as [[clean | e] w1]; cbn [snd] in R, F.
  - exists (if startsWith img "http" then [img] else []),
           [marketing_request clean (buildPrompt userPrompt config)].
    assert (Q : is_marketing_request userPrompt config
                  (marketing_request clean (buildPrompt userPrompt config)))
      by (repeat split).
    destruct (generateContent_reply env _ _) as [resp | e]; cbn; rewrite F, R;
      (repeat split; [destruct (startsWith img "http"); simpl; lia | simpl; lia
                     | destruct (startsWith img "http"); auto | auto]).
  - exists (if startsWith img "http" then [img] else []), []. cbn.
    rewrite F, R, app_nil_r.
    repeat split; [destruct (startsWith img "http"); simpl; lia | simpl; lia
                  | destruct (startsWith img "http"); auto | auto].
Qed.

(** X3. A generation call never fetches more than three times nor sends
    more than three requests; what it fetches is the input image URL, and
    every request it sends names the model of the call, the JPEG MIME type,
    the composed prompt and the image configuration of the call. What the
    world held before is kept. *)
Theorem generation_call_footprint (env : Environment) (img : string)
    (w : World) (log : RetryLog) :
  (forall setting angle,
     grows_by (is_variant_request setting angle) img 3 w
       (fst (snd (generateVariantImage env img setting angle (w, log)))))
  /\ (forall userPrompt config,
        grows_by (is_marketing_request userPrompt config) img 3 w
          (fst (snd (generateMarketingImage env img userPrompt config (w, log))))).
Proof.
  split.
  - intros setting angle. unfold generateVariantImage, withRetry.
    destruct (retry_loop_world (variant_attempt env img setting angle) default_delay
                (Z.to_nat default_retries) 0 Undefined w log) as (k & Hk & _ & ->).
    apply grows_by_weaken with (k := k); [exact Hk|].
    apply after_invocations_grows. apply variant_attempt_grows.
  - intros userPrompt config. unfold generateMarketingImage, withRetry.
    destruct (retry_loop_world (marketing_attempt env img userPrompt config)
                default_delay (Z.to_nat default_retries) 0 Undefined w log)
      as (k & Hk & _ & ->).
    apply grows_by_weaken with (k := k); [exact Hk|].
    apply after_invocations_grows. apply marketing_attempt_grows.
Qed.

End ServiceMore.

Section ServiceEdges.

Import JsString GeminiService Footprint.
#[local] Open Scope string_scope.

Lemma generation_call_footprint_witness :
  fetched (fst (snd (generateVariantImage Scenarios.env_down
                       "https://images.unsplash.com/photo-1" "studio" "eye level"
                       (fresh, []))))
  = ["https://images.unsplash.com/photo-1"]
  /\ requests (fst (snd (generateMarketingImage Scenarios.env_down "ABC123"
                           "beach sunset" Scenarios.scenario_config (fresh, []))))
     = repeat (marketing_request (Some "ABC123")
                 (buildPrompt "beach sunset" Scenarios.scenario_config)) 3
  /\ grows_by (is_variant_request "studio" "eye level")
       "https://images.unsplash.com/photo-1" 3 fresh
       (fst (snd (generateVariantImage Scenarios.env_down
                    "https://images.unsplash.com/photo-1" "studio" "eye level"
                    (fresh, [])))).
Proof.
  split; [reflexivity|]. split; [reflexivity|].
  exact (proj1 (generation_call_footprint Scenarios.env_down
                  "https://images.unsplash.com/photo-1" fresh [])
           "studio" "eye level").
Defined.







End ServiceEdges.

Section ServiceFailures.

Import JsString GeminiService.
#[local] Open Scope string_scope.

(** Three retryable failures in a row, with the defaults. *)
Lemma withRetry_three_failures {W T} (operation : async W T)
    (w0 w1 w2 w3 : W) (e0 e1 e2 : ErrorObject) (log : RetryLog) :
  operation w0 = (Throw (Obj e0), w1) -> is_retryable e0 = true ->
  operation w1 = (Throw (Obj e1), w2) -> is_retryable e1 = true ->
  operation w2 = (Throw (Obj e2), w3) -> is_retryable e2 = true ->
  withRetry operation default_retries default_delay (w0, log)
  = (Throw (Obj e2),
     (w3, log ++ [Warned 1 1000 (Obj e0); Waited 1000;
                  Warned 2 1000 (Obj e1); Waited 2000;
                  Warned 3 1000 (Obj e2); Waited 3000])%list).
Proof.
  intros E0 R0 E1 R1 E2 R2. unfold withRetry.
  change (Z.to_nat default_retries) with 3%nat.
  cbn [retry_loop]. rewrite E0, R0. cbn [retry_loop]. rewrite E1, R1.
  cbn [retry_loop]. rewrite E2, R2. cbn [retry_loop].
  rewrite <- !app_assoc. reflexivity.
Qed.

Lemma variant_attempt_model_error (env : Environment) (img setting angle : string)
    (w : World) (e : thrown) :
  startsWith img "http" = false ->
  generateContent_reply env (List.length (requests w))
    (variant_request (LegacyService.cleanBase64 img) (variantPrompt setting angle))
  = Throw e ->
  variant_attempt env img setting angle w
  = (Throw e,
     {| fetched := fetched w;
        requests := (requests w ++ [variant_request (LegacyService.cleanBase64 img)
                                      (variantPrompt setting angle)])%list;
        console_error := (console_error w ++ [("Gemini Flash Variant Error:", e)])%list |}).
Proof.
  intros Hh Hr. unfold variant_attempt, try_catch, bind, generateContent.
  rewrite (prepareImageForAPI_local env img w Hh). now rewrite Hr.
Qed.

Lemma marketing_attempt_model_error (env : Environment) (img userPrompt : string)
    (config : GenerationConfig) (w : World) (e : thrown) :
  startsWith img "http" = false ->
  generateContent_reply env (List.length (requests w))
    (marketing_request (LegacyService.cleanBase64 img) (buildPrompt userPrompt config))
  = Throw e ->
  marketing_attempt env img userPrompt config w
  = (Throw e,
     {| fetched := fetched w;
        requests := (requests w ++ [marketing_request (LegacyService.cleanBase64 img)
                                      (buildPrompt userPrompt config)])%list;
        console_error := (console_error w ++ [("Gemini Generation Error:", e)])%list |}).
Proof.
  intros Hh Hr. unfold marketing_attempt, try_catch, bind, generateContent.
  rewrite (prepareImageForAPI_local env img w Hh). now rewrite Hr.
Qed.

(** X5. When the model answers three requests in a row with retryable
    errors, a generation call on a local image sends exactly these three
    requests, logs the three errors, waits 1000, 2000 and 3000 ms, and
    throws the third error; the earlier service file, which has no retry,
    throws whatever error the model answers after its single request. *)
Theorem transient_model_errors_exhaust_retries (env : Environment) (img : string)
    (w : World) (log : RetryLog) :
  startsWith img "http" = false ->
  (forall setting angle e0 e1 e2,
     let req := variant_request (LegacyService.cleanBase64 img)
                  (variantPrompt setting angle) in
     let n := List.length (requests w) in
     generateContent_reply env n req = Throw (Obj e0) -> is_retryable e0 = true ->
     generateContent_reply env (S n) req = Throw (Obj e1) -> is_retryable e1 = true ->
     generateContent_reply env (S (S n)) req = Throw (Obj e2) -> is_retryable e2 = true ->
     generateVariantImage env img setting angle (w, log)
     = (Throw (Obj e2),
        ({| fetched := fetched w;
            requests := (requests w ++ [req; req; req])%list;
            console_error :=
              (console_error w ++ [("Gemini Flash Variant Error:", Obj e0);
                                   ("Gemini Flash Variant Error:", Obj e1);
                                   ("Gemini Flash Variant Error:", Obj e2)])%list |},
         (log ++ [Warned 1 1000 (Obj e0); Waited 1000;
                  Warned 2 1000 (Obj e1); Waited 2000;
                  Warned 3 1000 (Obj e2); Waited 3000])%list)))
  /\ (forall userPrompt config e0 e1 e2,
        let req := marketing_request (LegacyService.cleanBase64 img)
                     (buildPrompt userPrompt config) in
        let n := List.length (requests w) in
        generateContent_reply env n req = Throw (Obj e0) -> is_retryable e0 = true ->
        generateContent_reply env (S n) req = Throw (Obj e1) -> is_retryable e1 = true ->
        generateContent_reply env (S (S n)) req = Throw (Obj e2) -> is_retryable e2 = true ->
        generateMarketingImage env img userPrompt config (w, log)
        = (Throw (Obj e2),
           ({| fetched := fetched w;
               requests := (requests w ++ [req; req; req])%list;
               console_error :=
                 (console_error w ++ [("Gemini Generation Error:", Obj e0);
                                      ("Gemini Generation Error:", Obj e1);
                                      ("Gemini Generation Error:", Obj e2)])%list |},
            (log ++ [Warned 1 1000 (Obj e0); Waited 1000;
                     Warned 2 1000 (Obj e1); Waited 2000;
                     Warned 3 1000 (Obj e2); Waited 3000])%list)))
  /\ (forall userPrompt config e,
        let req := marketing_request (LegacyService.cleanBase64 img)
                     (LegacyService.buildPrompt userPrompt config) in
        generateContent_reply env (List.length (requests w)) req = Throw e ->
        LegacyService.generateMarketingImage env img userPrompt config w
        = (Throw e,
           {| fetched := fetched w;
              requests := (requests w ++ [req])%list;
              console_error :=
                (console_error w ++ [("Gemini Generation Error:", e)])%list |})).
Proof.
  intros Hh. split; [|split].
  - intros setting angle e0 e1 e2 req n H0 R0 H1 R1 H2 R2.
    unfold generateVariantImage.
    etransitivity.
    { eapply withRetry_three_failures.
      - apply variant_attempt_model_error; [exact Hh | exact H0].
      - exact R0.
      - apply variant_attempt_model_error;
          [exact Hh | cbn [requests]; rewrite last_length; exact H1].
      - exact R1.
      - apply variant_attempt_model_error;
          [exact Hh | cbn [requests]; rewrite !last_length; exact H2].
      - exact R2. }
    cbn [fetched requests console_error]. rewrite <- !app_assoc. reflexivity.
  - intros userPrompt config e0 e1 e2 req n H0 R0 H1 R1 H2 R2.
    unfold generateMarketingImage.
    etransitivity.
    { eapply withRetry_three_failures.
      - apply marketing_attempt_model_error; [exact Hh | exact H0].
      - exact R0.
      - apply marketing_attempt_model_error;
          [exact Hh | cbn [requests]; rewrite last_length; exact H1].
      - exact R1.
      - apply marketing_attempt_model_error;
          [exact Hh | cbn [requests]; rewrite !last_length; exact H2].
      - exact R2. }
    cbn [fetched requests console_error]. rewrite <- !app_assoc. reflexivity.
  - intros userPrompt config e req Hr.
    unfold LegacyService.generateMarketingImage, try_catch, bind, generateContent.
    fold req. now rewrite Hr.
Qed.

Lemma transient_model_errors_exhaust_retries_witness :
  startsWith "ABC123" "http" = false
  /\ is_retryable Scenarios.overloaded = true
  /\ generateVariantImage Scenarios.env_down "ABC123" "studio" "eye level" (fresh, [])
     = (Throw (Obj Scenarios.overloaded),
        ({| fetched := [];
            requests := repeat (variant_request (Some "ABC123")
                                  (variantPrompt "studio" "eye level")) 3;
            console_error :=
              repeat ("Gemini Flash Variant Error:", Obj Scenarios.overloaded) 3 |},
         [Warned 1 1000 (Obj Scenarios.overloaded); Waited 1000;
          Warned 2 1000 (Obj Scenarios.overloaded); Waited 2000;
          Warned 3 1000 (Obj Scenarios.overloaded); Waited 3000])).
Proof.
  split; [reflexivity|]. split; [reflexivity|].
  exact (proj1 (transient_model_errors_exhaust_retries Scenarios.env_down "ABC123"
                  fresh [] eq_refl)
           "studio" "eye level" Scenarios.overloaded Scenarios.overloaded
           Scenarios.overloaded eq_refl eq_refl eq_refl eq_refl eq_refl eq_refl).
Defined.

End ServiceFailures.

Section RemoteImages.

Import JsString GeminiService.
#[local] Open Scope string_scope.

Lemma prefix_single (c x : ascii) (s : string) :
  String.prefix (String c "") (String x s) = true <-> c = x.
Proof.
  rewrite prefix_cons. split; [now intros [H _] | intros ->; split; [reflexivity|]].
  now destruct s.
Qed.

Lemma includes_single_append (a b : string) (c : ascii) :
  includes (a ++ b) (String c "") = includes a (String c "") || includes b (String c "").
Proof.
  induction a as [|x a IH].
  - cbn [append]. destruct b; reflexivity.
  - change (String x a ++ b) with (String x (a ++ b)).
    rewrite !includes_cons, IH, orb_assoc. f_equal.
    destruct (ascii_dec c x) as [->|Hne].
    + now rewrite !(proj2 (prefix_single x x _) eq_refl).
    + destruct (String.prefix (String c "") (String x (a ++ b))) eqn:E1;
        [apply prefix_single in E1; contradiction|].
      destruct (String.prefix (String c "") (String x a)) eqn:E2;
        [apply prefix_single in E2; contradiction | reflexivity].
Qed.

Lemma clear_of_single (c : ascii) (a rest : string) :
  includes a (String c "") = false -> clear_of (String c "") a rest.
Proof.
  induction a as [|x a IH]; intros H; [exact I|].
  apply includes_false_cons in H as [Hp Hi]. split; [|now apply IH].
  change (String x a ++ rest) with (String x (a ++ rest)).
  destruct (String.prefix (String c "") (String x (a ++ rest))) eqn:E; [|reflexivity].
  apply prefix_single in E. subst x.
  now rewrite (proj2 (prefix_single c c a) eq_refl) in Hp.
Qed.

(** The payload of a data URL, as the remote-URL case reads it. *)
Lemma split_data_url_at_comma (mime p : string) :
  includes mime "," = false ->
  includes p "," = false ->
  at_index (split ("data:" ++ mime ++ ";base64," ++ p) ",") 1 = Some p.
Proof.
  intros Hm Hp.
  replace ("data:" ++ mime ++ ";base64," ++ p)
    with (("data:" ++ mime ++ ";base64") ++ "," ++ p)
    by (rewrite !append_assoc; reflexivity).
  rewrite split_once; [reflexivity | | exact Hp].
  apply clear_of_single.
  rewrite !includes_single_append, Hm. reflexivity.
Qed.

Lemma split_without_separator (s sep : string) :
  sep <> "" -> includes s sep = false -> split s sep = [s].
Proof.
  intros Hsep H. unfold split. destruct sep; [contradiction|].
  now rewrite split_from_absent.
Qed.

(** The world after a fetch of [img]. *)
Lemma prepareImageForAPI_loaded (env : Environment) (img statusText res : string)
    (w : World) :
  startsWith img "http" = true ->
  fetch_reply env (List.length (fetched w)) img
  = FetchResponse true statusText (BlobRead (ReaderLoaded res)) ->
  prepareImageForAPI env img w
  = (Ok (at_index (split res ",") 1),
     {| fetched := (fetched w ++ [img])%list; requests := requests w;
        console_error := console_error w |}).
Proof.
  intros Hh Hf. unfold prepareImageForAPI. rewrite Hh.
  unfold bind, try_catch, read_remote, bind, fetch. now rewrite Hf.
Qed.

(** X6. A remote image that is fetched and read is normalized to the
    payload of the data URL the reader produced: for the reader result
    [data:<mime>;base64,<p>] (no comma in the MIME type nor in the payload)
    the outcome is [p], after exactly one fetch; and a reader result
    without any comma is normalized to [undefined], with no error
    raised. *)
Theorem remote_image_payload (env : Environment) (img statusText res : string)
    (w : World) :
  startsWith img "http" = true ->
  fetch_reply env (List.length (fetched w)) img
  = FetchResponse true statusText (BlobRead (ReaderLoaded res)) ->
  let w' := {| fetched := (fetched w ++ [img])%list; requests := requests w;
               console_error := console_error w |} in
  (forall mime p,
     res = "data:" ++ mime ++ ";base64," ++ p ->
     includes mime "," = false ->
     includes p "," = false ->
     prepareImageForAPI env img w = (Ok (Some p), w'))
  /\ (includes res "," = false ->
      prepareImageForAPI env img w = (Ok None, w')).
Proof.
  intros Hh Hf w'. rewrite (prepareImageForAPI_loaded env img statusText res w Hh Hf).
  split.
  - intros mime p -> Hm Hp. now rewrite split_data_url_at_comma.
  - intros Hc. rewrite split_without_separator; [reflexivity | discriminate | exact Hc].
Qed.

End RemoteImages.

Section RemoteImagesMore.

Import JsString GeminiService.
#[local] Open Scope string_scope.

Lemma remote_image_payload_witness :
  startsWith RemoteScenarios.demo_url "http" = true
  /\ includes "image/jpeg" "," = false
  /\ includes "/9j/4AAQSkZJRg==" "," = false
  /\ prepareImageForAPI RemoteScenarios.env_remote_ok RemoteScenarios.demo_url fresh
     = (Ok (Some "/9j/4AAQSkZJRg=="),
        {| fetched := [RemoteScenarios.demo_url]; requests := [];
           console_error := [] |})
  /\ includes "data:" "," = false
  /\ prepareImageForAPI RemoteScenarios.env_remote_empty RemoteScenarios.demo_url fresh
     = (Ok None,
        {| fetched := [RemoteScenarios.demo_url]; requests := [];
           console_error := [] |}).
Proof.
  split; [reflexivity|]. split; [reflexivity|]. split; [reflexivity|]. split.
  - exact (proj1 (remote_image_payload RemoteScenarios.env_remote_ok
                    RemoteScenarios.demo_url "OK" "data:image/jpeg;base64,/9j/4AAQSkZJRg=="
                    fresh eq_refl eq_refl)
             "image/jpeg" "/9j/4AAQSkZJRg==" eq_refl eq_refl eq_refl).
  - split; [reflexivity|].
    exact (proj2 (remote_image_payload RemoteScenarios.env_remote_empty
                    RemoteScenarios.demo_url "OK" "data:" fresh eq_refl eq_refl)
             eq_refl).
Defined.

Lemma prepareImageForAPI_reader_failed (env : Environment) (img statusText : string)
    (event : thrown) (w : World) :
  startsWith img "http" = true ->
  fetch_reply env (List.length (fetched w)) img
  = FetchResponse true statusText (BlobRead (ReaderFailed event)) ->
  prepareImageForAPI env img w
  = (Throw event,
     {| fetched := (fetched w ++ [img])%list; requests := requests w;
        console_error := console_error w |}).
Proof.
  intros Hh Hf. unfold prepareImageForAPI. rewrite Hh.
  unfold bind, try_catch, read_remote, bind, fetch. now rewrite Hf.
Qed.

(** X7. A failure of the FileReader escapes the [catch] of the
    normalization: the reader's event is thrown as it is, not the
    source-image error, and normalization prints nothing. When the event is
    not retryable (the event of a reader has neither status nor message),
    a generation call throws that very event after one attempt, one fetch
    and no request, with the single console line of the attempt. *)
Theorem reader_failure_escapes_catch (env : Environment) (img statusText : string)
    (event : thrown) (w : World) (log : RetryLog) :
  startsWith img "http" = true ->
  fetch_reply env (List.length (fetched w)) img
  = FetchResponse true statusText (BlobRead (ReaderFailed event)) ->
  prepareImageForAPI env img w
  = (Throw event,
     {| fetched := (fetched w ++ [img])%list; requests := requests w;
        console_error := console_error w |})
  /\ (forall e setting angle,
        event = Obj e -> is_retryable e = false ->
        generateVariantImage env img setting angle (w, log)
        = (Throw event,
           ({| fetched := (fetched w ++ [img])%list; requests := requests w;
               console_error :=
                 (console_error w ++ [("Gemini Flash Variant Error:", event)])%list |},
            log)))
  /\ (forall e userPrompt config,
        event = Obj e -> is_retryable e = false ->
        generateMarketingImage env img userPrompt config (w, log)
        = (Throw event,
           ({| fetched := (fetched w ++ [img])%list; requests := requests w;
               console_error :=
                 (console_error w ++ [("Gemini Generation Error:", event)])%list |},
            log))).
Proof.
  intros Hh Hf.
  pose proof (prepareImageForAPI_reader_failed env img statusText event w Hh Hf) as P.
  split; [exact P|]. split.
  - intros e setting angle -> R. unfold generateVariantImage.
    apply withRetry_first_terminal; [|exact R].
    unfold variant_attempt, try_catch, bind. now rewrite P.
  - intros e userPrompt config -> R. unfold generateMarketingImage.
    apply withRetry_first_terminal; [|exact R].
    unfold marketing_attempt, try_catch, bind. now rewrite P.
Qed.

Lemma reader_failure_escapes_catch_witness :
  startsWith RemoteScenarios.demo_url "http" = true
  /\ generateVariantImage RemoteScenarios.env_reader_fails RemoteScenarios.demo_url
       "studio" "eye level" (fresh, [])
     = (Throw RemoteScenarios.progress_event,
        ({| fetched := [RemoteScenarios.demo_url]; requests := [];
            console_error :=
              [("Gemini Flash Variant Error:", RemoteScenarios.progress_event)] |},
         []))
  /\ RemoteScenarios.progress_event <> source_image_error.
Proof.
  split; [reflexivity|]. split; [|discriminate].
  exact (proj1 (proj2 (reader_failure_escapes_catch RemoteScenarios.env_reader_fails
                         RemoteScenarios.demo_url "OK" RemoteScenarios.progress_event
                         fresh [] eq_refl eq_refl))
           {| status := None; message := None |} "studio" "eye level"
           eq_refl eq_refl).
Defined.

(** The first part with inline data decides the scan. *)
Lemma scan_parts_first (pre post : list Part) (part : Part) (inline : InlineData)
    (init : string) :
  Forall (fun p => inlineData p = None) pre ->
  inlineData part = Some inline ->
  scan_parts (pre ++ part :: post) init
  = png_prefix ++ interpolate (inline_data inline).
Proof.
  intros Hpre Hpart. induction Hpre as [|p pre Hp _ IH]; cbn.
  - now rewrite Hpart.
  - now rewrite Hp.
Qed.

Lemma falsy_png (d : string) : falsy (png_prefix ++ d) = false.
Proof. reflexivity. Qed.

(** X8. Of a reply only the first candidate is read, and of its parts the
    first one that carries inline data decides: whatever follows it, the
    call returns [data:image/png;base64,] followed by the data of that
    part, or by the text [undefined] when the part has no data. *)
Theorem first_inline_image_wins (env : Environment) (img : string)
    (w w1 : World) (log : RetryLog) (clean : option string) (resp : GenResponse)
    (pre post : list Part) (part : Part) (inline : InlineData) :
  prepareImageForAPI env img w = (Ok clean, w1) ->
  response_parts resp = (pre ++ part :: post)%list ->
  Forall (fun p => inlineData p = None) pre ->
  inlineData part = Some inline ->
  let url := png_prefix ++ interpolate (inline_data inline) in
  (forall setting angle,
     generateContent_reply env (List.length (requests w1))
       (variant_request clean (variantPrompt setting angle)) = Ok resp ->
     fst (generateVariantImage env img setting angle (w, log))
     = Ok {| imageUrl := url |})
  /\ (forall userPrompt config,
        generateContent_reply env (List.length (requests w1))
          (marketing_request clean (buildPrompt userPrompt config)) = Ok resp ->
        fst (generateMarketingImage env img userPrompt config (w, log))
        = Ok {| imageUrl := url |})
  /\ (forall candidate others,
        response_parts {| candidates := Some (candidate :: others) |}
        = response_parts {| candidates := Some [candidate] |}).
Proof.
  intros Hp Hparts Hpre Hpart url. split; [|split].
  - intros setting angle Hr. unfold generateVariantImage.
    erewrite withRetry_first_ok; [reflexivity|].
    unfold variant_attempt, try_catch, bind, generateContent.
    rewrite Hp, Hr, Hparts, (scan_parts_first pre post part inline "" Hpre Hpart).
    rewrite falsy_png. reflexivity.
  - intros userPrompt config Hr. unfold generateMarketingImage.
    erewrite withRetry_first_ok; [reflexivity|].
    unfold marketing_attempt, try_catch, bind, generateContent.
    rewrite Hp, Hr, Hparts, (scan_parts_first pre post part inline "" Hpre Hpart).
    rewrite falsy_png. reflexivity.
  - reflexivity.
Qed.

Lemma first_inline_image_wins_witness :
  response_parts RemoteScenarios.two_candidates
  = ([Scenarios.text_part]
     ++ {| part_text := None;
           inlineData := Some {| inline_mimeType := Some "image/png";
                                 inline_data := None |} |}
     :: [Scenarios.image_part "AAAA"])%list
  /\ fst (generateVariantImage RemoteScenarios.env_two_candidates "ABC123"
            "studio" "eye level" (fresh, []))
     = Ok {| imageUrl := "data:image/png;base64,undefined" |}.
Proof.
  split; [reflexivity|].
  refine (proj1 (first_inline_image_wins RemoteScenarios.env_two_candidates "ABC123"
                   fresh fresh [] (Some "ABC123") RemoteScenarios.two_candidates
                   [Scenarios.text_part] [Scenarios.image_part "AAAA"]
                   {| part_text := None;
                      inlineData := Some {| inline_mimeType := Some "image/png";
                                            inline_data := None |} |}
                   {| inline_mimeType := Some "image/png"; inline_data := None |}
                   eq_refl eq_refl _ eq_refl)
            "studio" "eye level" eq_refl).
  repeat constructor.
Defined.

End RemoteImagesMore.

(* ------------------------------------------------------------------ *)
(** ** The prompt composer, flag by flag *)

Section ComposerFlags.

Import JsString GeminiService.
#[local] Open Scope string_scope.

Lemma includes_labelled (lead label x rest : string) :
  includes ((lead ++ label) ++ x ++ rest) (label ++ x) = true.
Proof.
  rewrite append_assoc. apply includes_append_r.
  rewrite <- append_assoc. apply includes_self_append.
Qed.

Lemma includes_labelled3 (lead label x y z rest : string) :
  includes ((lead ++ label) ++ x ++ y ++ z ++ rest) (label ++ x ++ y ++ z) = true.
Proof.
  replace (x ++ y ++ z ++ rest) with ((x ++ y ++ z) ++ rest)
    by (rewrite !append_assoc; reflexivity).
  apply includes_labelled.
Qed.

Lemma includes_around (pre a u b post : string) :
  includes (pre ++ a ++ u ++ b ++ post) (a ++ u ++ b) = true.
Proof.
  apply includes_append_r.
  replace (a ++ u ++ b ++ post) with ((a ++ u ++ b) ++ post)
    by (rewrite !append_assoc; reflexivity).
  apply includes_self_append.
Qed.

Lemma includes_late (pre1 u pre2 seg post : string) :
  includes (pre1 ++ u ++ pre2 ++ seg ++ post) seg = true.
Proof. do 3 apply includes_append_r. apply includes_self_append. Qed.

(** X9. For every configuration and every context, each flag decides the
    whole of its line of the composed instruction, in either service file.
    Before the label [Product Integrity] stands the product clause: the
    strict preservation text when lockProduct is on, the plain sentence
    when it is off. The line [Product Integrity], up to the label
    [Subject], is the base sentence followed by the strict-mimicry
    sentence when strictPose is on, and when it is off by the
    creative-freedom sentences in the retry-wrapped service and by nothing
    in the earlier file. The line [Context/Background], up to the label
    [Style], is the context given by the user, word for word, a full stop,
    and the background-lock clause exactly when lockLocation is on. The
    line [Style], up to the end, is the monochrome clause when
    blackAndWhite is on and the commercial clause when it is off. The
    context adds its own length to the instruction and nothing else. *)
Theorem composer_clause_per_flag (userPrompt : string) (config : GenerationConfig) :
  (let prompt := buildPrompt userPrompt config in
   includes prompt
     ((if lockProduct config
          then nl
               ++ "        CRITICAL - PRODUCT PRESERVATION:"
               ++ nl
               ++ "        The object held in the hand is a real commercial product. "
               ++ nl
               ++ "        You MUST preserve the PRODUCT TEXT, LOGOS, and LABEL DETAILS exactly as they appear in the reference image."
               ++ nl
               ++ "        Do not hallucinate new text on the label. Do not blur or distort the brand name."
               ++ nl
               ++ "        Treat the product pixels as ground truth."
               ++ nl
               ++ "        "
          else "The object held in the hand is the focus.")
         ++ nl ++ "  " ++ nl ++ "        Product Integrity: ") = true
   /\ includes prompt
        ("Product Integrity: "
         ++ "The object being held (the product) MUST remain exactly as it appears. Ensure the hand grip is natural."
         ++ (if strictPose config
             then " STRICTLY mimic the exact arm angle, hand grip, and body posture of the reference image. Do not move the arm."
             else " You have creative freedom with the pose. Analyze the product type and use your best judgement to select the most flattering angle, grip, and body posture to showcase it. Change the arm position to what sells this specific product best. Do not feel bound by the original posture.")
         ++ nl ++ "        Subject: ") = true
   /\ includes prompt
        ("Context/Background: " ++ userPrompt ++ ". "
         ++ (if lockLocation config
             then "Maintain the original background environment and geometry. Do not generate a new background, only enhance the existing one."
             else "")
         ++ nl ++ "        Style: ") = true
   /\ includes prompt
        ("Style: "
         ++ (if blackAndWhite config
             then "Black and White Photography, High Contrast, Noir Style, Ansel Adams aesthetic."
             else "Commercial, High Key, 8k Resolution, Sharp Focus.")
         ++ nl ++ "      ") = true
   /\ String.length prompt
      = (String.length userPrompt
         + String.length (buildPrompt "" config))%nat)
  /\ (let legacy := LegacyService.buildPrompt userPrompt config in
   includes legacy
     ((if lockProduct config
          then nl
               ++ "      CRITICAL - PRODUCT PRESERVATION:"
               ++ nl
               ++ "      The object held in the hand is a real commercial product. "
               ++ nl
               ++ "      You MUST preserve the PRODUCT TEXT, LOGOS, and LABEL DETAILS exactly as they appear in the reference image."
               ++ nl
               ++ "      Do not hallucinate new text on the label. Do not blur or distort the brand name."
               ++ nl
               ++ "      Treat the product pixels as ground truth."
               ++ nl
               ++ "      "
          else "The object held in the hand is the focus.")
         ++ nl ++ nl ++ "      Product Integrity: ") = true
   /\ includes legacy
        ("Product Integrity: "
         ++ "The object being held (the product) MUST remain exactly as it appears. Ensure the hand grip is natural."
         ++ (if strictPose config
             then " STRICTLY mimic the exact arm angle, hand grip, and body posture of the reference image."
             else "")
         ++ nl ++ "      Subject: ") = true
   /\ includes legacy
        ("Context/Background: " ++ userPrompt ++ ". "
         ++ (if lockLocation config
             then "Maintain the original background environment and geometry. Do not generate a new background, only enhance the existing one."
             else "")
         ++ nl ++ "      Style: ") = true
   /\ includes legacy
        ("Style: "
         ++ (if blackAndWhite config
             then "Black and White Photography, High Contrast, Noir Style, Ansel Adams aesthetic."
             else "Commercial, High Key, 8k Resolution, Sharp Focus.")
         ++ nl ++ "    ") = true
   /\ String.length legacy
      = (String.length userPrompt
         + String.length (LegacyService.buildPrompt "" config))%nat).
Proof.
  split; cbv zeta.
  - split; [|split; [|split; [|split]]].
    + destruct config as [bw sp kf ll lp]. destruct bw, sp, kf, ll, lp;
      lazymatch goal with
      | |- includes (buildPrompt ?u ?c) ?seg = true =>
          exact (includes_segment
                   ((nl ++ "        Professional Product Photography. " ++ nl ++ "        Task: Transform this reference image into a high-end commercial advertisement." ++ nl ++ "        " ++ nl ++ "        "))
                   seg
                   (posePrompt c ++ (nl ++ "        Subject: ") ++ facePrompt c ++ (nl ++ "        Context/Background: ") ++ u ++ ". " ++ locationPrompt c ++ (nl ++ "        Style: ") ++ stylePrompt c ++ (nl ++ "      ")))
      end.
    + destruct config as [bw sp kf ll lp]. destruct bw, sp, kf, ll, lp;
      lazymatch goal with
      | |- includes (buildPrompt ?u ?c) ?seg = true =>
          exact (includes_segment
                   ((nl ++ "        Professional Product Photography. " ++ nl ++ "        Task: Transform this reference image into a high-end commercial advertisement." ++ nl ++ "        " ++ nl ++ "        ") ++ productPreservationPrompt c ++ (nl ++ "  " ++ nl ++ "        "))
                   seg
                   (facePrompt c ++ (nl ++ "        Context/Background: ") ++ u ++ ". " ++ locationPrompt c ++ (nl ++ "        Style: ") ++ stylePrompt c ++ (nl ++ "      ")))
      end.
    + destruct config as [bw sp kf ll lp]. destruct bw, sp, kf, ll, lp;
      lazymatch goal with
      | |- includes (buildPrompt ?u ?c) _ = true =>
          exact (includes_around
                   ((nl ++ "        Professional Product Photography. " ++ nl ++ "        Task: Transform this reference image into a high-end commercial advertisement." ++ nl ++ "        " ++ nl ++ "        ") ++ productPreservationPrompt c ++ (nl ++ "  " ++ nl ++ "        Product Integrity: ") ++ posePrompt c ++ (nl ++ "        Subject: ") ++ facePrompt c ++ (nl ++ "        "))
                   ("Context/Background: ") u (". " ++ locationPrompt c ++ nl ++ "        Style: ")
                   (stylePrompt c ++ (nl ++ "      ")))
      end.
    + destruct config as [bw sp kf ll lp]. destruct bw, sp, kf, ll, lp;
      lazymatch goal with
      | |- includes (buildPrompt ?u ?c) ?seg = true =>
          exact (includes_late
                   ((nl ++ "        Professional Product Photography. " ++ nl ++ "        Task: Transform this reference image into a high-end commercial advertisement." ++ nl ++ "        " ++ nl ++ "        ") ++ productPreservationPrompt c ++ (nl ++ "  " ++ nl ++ "        Product Integrity: ") ++ posePrompt c ++ (nl ++ "        Subject: ") ++ facePrompt c ++ (nl ++ "        Context/Background: "))
                   u
                   (". " ++ locationPrompt c ++ (nl ++ "        "))
                   seg "")
      end.
    + unfold buildPrompt. rewrite !length_append. cbn [String.length]. lia.
  - split; [|split; [|split; [|split]]].
    + destruct config as [bw sp kf ll lp]. destruct bw, sp, kf, ll, lp;
      lazymatch goal with
      | |- includes (LegacyService.buildPrompt ?u ?c) ?seg = true =>
          exact (includes_segment
                   ((nl ++ "      Professional Product Photography. " ++ nl ++ "      Task: Transform this reference image into a high-end commercial advertisement." ++ nl ++ "      " ++ nl ++ "      "))
                   seg
                   (LegacyService.posePrompt c ++ (nl ++ "      Subject: ") ++ LegacyService.facePrompt c ++ (nl ++ "      Context/Background: ") ++ u ++ ". " ++ locationPrompt c ++ (nl ++ "      Style: ") ++ stylePrompt c ++ (nl ++ "    ")))
      end.
    + destruct config as [bw sp kf ll lp]. destruct bw, sp, kf, ll, lp;
      lazymatch goal with
      | |- includes (LegacyService.buildPrompt ?u ?c) ?seg = true =>
          exact (includes_segment
                   ((nl ++ "      Professional Product Photography. " ++ nl ++ "      Task: Transform this reference image into a high-end commercial advertisement." ++ nl ++ "      " ++ nl ++ "      ") ++ LegacyService.productPreservationPrompt c ++ (nl ++ nl ++ "      "))
                   seg
                   (LegacyService.facePrompt c ++ (nl ++ "      Context/Background: ") ++ u ++ ". " ++ locationPrompt c ++ (nl ++ "      Style: ") ++ stylePrompt c ++ (nl ++ "    ")))
      end.
    + destruct config as [bw sp kf ll lp]. destruct bw, sp, kf, ll, lp;
      lazymatch goal with
      | |- includes (LegacyService.buildPrompt ?u ?c) _ = true =>
          exact (includes_around
                   ((nl ++ "      Professional Product Photography. " ++ nl ++ "      Task: Transform this reference image into a high-end commercial advertisement." ++ nl ++ "      " ++ nl ++ "      ") ++ LegacyService.productPreservationPrompt c ++ (nl ++ nl ++ "      Product Integrity: ") ++ LegacyService.posePrompt c ++ (nl ++ "      Subject: ") ++ LegacyService.facePrompt c ++ (nl ++ "      "))
                   ("Context/Background: ") u (". " ++ locationPrompt c ++ nl ++ "      Style: ")
                   (stylePrompt c ++ (nl ++ "    ")))
      end.
    + destruct config as [bw sp kf ll lp]. destruct bw, sp, kf, ll, lp;
      lazymatch goal with
      | |- includes (LegacyService.buildPrompt ?u ?c) ?seg = true =>
          exact (includes_late
                   ((nl ++ "      Professional Product Photography. " ++ nl ++ "      Task: Transform this reference image into a high-end commercial advertisement." ++ nl ++ "      " ++ nl ++ "      ") ++ LegacyService.productPreservationPrompt c ++ (nl ++ nl ++ "      Product Integrity: ") ++ LegacyService.posePrompt c ++ (nl ++ "      Subject: ") ++ LegacyService.facePrompt c ++ (nl ++ "      Context/Background: "))
                   u
                   (". " ++ locationPrompt c ++ (nl ++ "      "))
                   seg "")
      end.
    + unfold LegacyService.buildPrompt. rewrite !length_append. cbn [String.length]. lia.
Qed.

End ComposerFlags.

(* ------------------------------------------------------------------ *)
(** ** The voice session of the lens *)

Section VoiceSessionFacts.

Import JsText VoiceSession.
#[local] Open Scope string_scope.

Lemma length_drop (n : nat) (s : string) :
  String.length (drop n s) = (String.length s - n)%nat.
Proof.
  revert s. induction n as [|n IH]; intros s.
  - cbn. lia.
  - destruct s as [|c s]; [reflexivity|]. cbn. apply IH.
Qed.

Lemma length_slice_last (n : nat) (s : string) :
  (String.length (slice_last n s) <= n)%nat.
Proof. unfold slice_last. rewrite length_drop. lia. Qed.

Lemma length_trimStart (s : string) :
  (String.length (trimStart s) <= String.length s)%nat.
Proof.
  induction s as [|c s IH]; [cbn; lia|].
  cbn [trimStart]. destruct (is_space c); cbn; lia.
Qed.

Lemma length_trimEnd (s : string) :
  (String.length (trimEnd s) <= String.length s)%nat.
Proof.
  induction s as [|c s IH]; [cbn; lia|].
  cbn [trimEnd]. destruct (trimEnd s) as [|d t].
  - destruct (is_space c); cbn; lia.
  - cbn in *. lia.
Qed.

Lemma length_trim (s : string) : (String.length (trim s) <= String.length s)%nat.
Proof.
  unfold trim. pose proof (length_trimEnd (trimStart s)).
  pose proof (length_trimStart s). lia.
Qed.

Lemma trimStart_starts_clean (s : string) : starts_clean (trimStart s).
Proof.
  induction s as [|c s IH]; [exact I|].
  cbn [trimStart]. destruct (is_space c) eqn:E; [exact IH | exact E].
Qed.

Lemma trimStart_clean (s : string) : starts_clean s -> trimStart s = s.
Proof. destruct s as [|c s]; [reflexivity|]. cbn. now intros ->. Qed.

Lemma trimEnd_starts_clean (s : string) : starts_clean s -> starts_clean (trimEnd s).
Proof.
  destruct s as [|c s]; [trivial|]. cbn [starts_clean trimEnd]. intros E.
  destruct (trimEnd s); [rewrite E|]; exact E.
Qed.

Lemma trimEnd_idempotent (s : string) : trimEnd (trimEnd s) = trimEnd s.
Proof.
  induction s as [|c s IH]; [reflexivity|].
  cbn [trimEnd]. destruct (trimEnd s) as [|d t] eqn:E.
  - destruct (is_space c) eqn:Ec; [reflexivity|]. cbn. now rewrite Ec.
  - cbn [trimEnd] in IH |- *. now rewrite IH.
Qed.

Lemma trim_idempotent (s : string) : trim (trim s) = trim s.
Proof.
  unfold trim.
  rewrite (trimStart_clean (trimEnd (trimStart s))).
  - apply trimEnd_idempotent.
  - apply trimEnd_starts_clean, trimStart_starts_clean.
Qed.

Lemma scan_tool_calls_spec (fcs : list FunctionCall) (st : Session) :
  scan_tool_calls fcs st
  = if existsb is_takePhoto fcs && negb (captureLock st)
    then Some (trigger st) else None.
Proof.
  induction fcs as [|fc fcs IH]; [reflexivity|].
  cbn [scan_tool_calls existsb].
  destruct (is_takePhoto fc), (captureLock st) eqn:L; cbn; rewrite ?IH, ?L;
    cbn; rewrite ?andb_false_r; reflexivity.
Qed.

Lemma on_transcription_captures (st : Session) (message : Message) :
  captures (on_transcription st message)
  = (captures st
     + (if negb (captureLock st) && says_trigger message then 1 else 0))%nat
  /\ captureLock (on_transcription st message)
     = captureLock st || says_trigger message.
Proof.
  unfold on_transcription, says_trigger.
  destruct (outputTranscription message) as [[text|]|];
    try (rewrite andb_false_r, orb_false_r; cbn; split; [lia | reflexivity]).
  destruct (truthy text); cbn [andb];
    [|rewrite andb_false_r, orb_false_r; cbn; split; [lia | reflexivity]].
  destruct (JsString.includes text "TRIGGER_CAPTURE"), (captureLock st) eqn:L; cbn;
    try (destruct (truthy _)); cbn; rewrite ?L; split; (lia || reflexivity).
Qed.

Lemma onmessage_captures (st : Session) (message : Message) :
  captures (snd (onmessage st message))
  = (captures st
     + (if negb (captureLock st) && asks_capture message then 1 else 0))%nat
  /\ captureLock (snd (onmessage st message))
     = captureLock st || asks_capture message.
Proof.
  unfold onmessage, asks_capture.
  destruct (toolCall message) as [[fcs|]|]; cbn [snd].
  - rewrite scan_tool_calls_spec.
    destruct (existsb is_takePhoto fcs); cbn [andb orb].
    + destruct (captureLock st) eqn:L; cbn [negb andb snd].
      * destruct (on_transcription_captures st message) as [C K].
        rewrite C, K, L. cbn. split; [lia | reflexivity].
      * cbn. split; [lia | reflexivity].
    + apply on_transcription_captures.
  - rewrite andb_false_r, orb_false_r. cbn. split; [lia | reflexivity].
  - apply on_transcription_captures.
Qed.

(** X10. The capture lock lets a voice session start at most one capture:
    over any sequence of messages, [captureAndGenerate] is called once if
    the lock was free and some message asks for a capture (a [takePhoto]
    tool call, or the marker in the transcription), and not at all
    otherwise; the lock is then held until the session is opened again. *)
Theorem capture_at_most_once (st : Session) (messages : list Message) :
  captures (receive st messages)
  = (captures st
     + (if negb (captureLock st) && existsb asks_capture messages then 1 else 0))%nat
  /\ captureLock (receive st messages)
     = captureLock st || existsb asks_capture messages
  /\ captures (receive_hero st messages)
     = (captures st
        + (if negb (captureLock st) && existsb says_trigger messages then 1 else 0))%nat
  /\ captureLock (onopen (receive st messages)) = false.
Proof.
  repeat split.
  - revert st. induction messages as [|m messages IH]; intros st.
    + cbn. rewrite andb_false_r. lia.
    + cbn [receive fold_left existsb]. fold (receive (snd (onmessage st m)) messages).
      rewrite IH. destruct (onmessage_captures st m) as [C K]. rewrite C, K.
      destruct (captureLock st), (asks_capture m), (existsb asks_capture messages);
        cbn; lia.
  - revert st. induction messages as [|m messages IH]; intros st.
    + cbn. now rewrite orb_false_r.
    + cbn [receive fold_left existsb]. fold (receive (snd (onmessage st m)) messages).
      rewrite IH. destruct (onmessage_captures st m) as [_ K]. rewrite K.
      now rewrite orb_assoc.
  - revert st. induction messages as [|m messages IH]; intros st.
    + cbn. rewrite andb_false_r. lia.
    + cbn [receive_hero fold_left existsb].
      fold (receive_hero (on_transcription st m) messages).
      rewrite IH. destruct (on_transcription_captures st m) as [C K]. rewrite C, K.
      destruct (captureLock st), (says_trigger m), (existsb says_trigger messages);
        cbn; lia.
Qed.

Lemma on_transcription_transcript (st : Session) (message : Message) :
  lastTranscript (on_transcription st message) = lastTranscript st
  \/ exists cleanText,
       lastTranscript (on_transcription st message)
       = append_transcript (lastTranscript st) cleanText.
Proof.
  unfold on_transcription.
  destruct (outputTranscription message) as [[text|]|]; try now left.
  destruct (truthy text); [|now left].
  destruct (_ && _); [now left|].
  cbv zeta. destruct (truthy _); [right; eexists; reflexivity | now left].
Qed.

Lemma onmessage_transcript (st : Session) (message : Message) :
  lastTranscript (snd (onmessage st message)) = lastTranscript st
  \/ exists cleanText,
       lastTranscript (snd (onmessage st message))
       = append_transcript (lastTranscript st) cleanText.
Proof.
  unfold onmessage.
  destruct (toolCall message) as [[fcs|]|]; cbn [snd].
  - rewrite scan_tool_calls_spec. destruct (_ && _); cbn [snd]; [now left|].
    apply on_transcription_transcript.
  - now left.
  - apply on_transcription_transcript.
Qed.

Lemma append_transcript_bounded (prev cleanText : string) :
  (String.length (append_transcript prev cleanText) <= 200)%nat
  /\ trim (append_transcript prev cleanText) = append_transcript prev cleanText.
Proof.
  unfold append_transcript. split; [|apply trim_idempotent].
  pose proof (length_trim (slice_last 200 (prev ++ cleanText))).
  pose proof (length_slice_last 200 (prev ++ cleanText)). lia.
Qed.

(** X11. The transcript shown to the user is kept short: a message either
    leaves it as it is or replaces it by a text of at most 200 code units
    with no white space at either end; so a transcript of at most 200 code
    units stays so over any sequence of messages, in either component. *)
Theorem transcript_stays_bounded (st : Session) :
  (forall message,
     let st' := snd (onmessage st message) in
     lastTranscript st' = lastTranscript st
     \/ ((String.length (lastTranscript st') <= 200)%nat
         /\ trim (lastTranscript st') = lastTranscript st'))
  /\ (forall messages,
        (String.length (lastTranscript st) <= 200)%nat ->
        (String.length (lastTranscript (receive st messages)) <= 200)%nat
        /\ (String.length (lastTranscript (receive_hero st messages)) <= 200)%nat).
Proof.
  split.
  - intros message st'. subst st'.
    destruct (onmessage_transcript st message) as [E | [cleanText E]]; [now left|].
    right. rewrite E. apply append_transcript_bounded.
  - intros messages. revert st.
    induction messages as [|m messages IH]; intros st H; [now split|].
    cbn [receive receive_hero fold_left].
    fold (receive (snd (onmessage st m)) messages).
    fold (receive_hero (on_transcription st m) messages).
    split.
    + apply IH.
      destruct (onmessage_transcript st m) as [E | [cleanText E]]; rewrite E;
        [exact H | apply append_transcript_bounded].
    + apply IH.
      destruct (on_transcription_transcript st m) as [E | [cleanText E]]; rewrite E;
        [exact H | apply append_transcript_bounded].
Qed.

Lemma transcript_stays_bounded_witness :
  (String.length
     (lastTranscript
        (receive {| captureLock := false; lastTranscript := "Say cheese";
                    captures := 0 |}
           [{| toolCall := None;
               outputTranscription := Some (Some " and hold still") |}]))
   <= 200)%nat.
Proof.
  apply (proj2 (transcript_stays_bounded
                  {| captureLock := false; lastTranscript := "Say cheese";
                     captures := 0 |})
           [{| toolCall := None;
               outputTranscription := Some (Some " and hold still") |}]).
  cbn. lia.
Defined.

End VoiceSessionFacts.

(* ------------------------------------------------------------------ *)
(** ** Capturing a shot *)

Section CaptureFacts.

Import JsString JsText GeminiService Capture.
#[local] Open Scope string_scope.




(** X13. Trouble with the storage never costs the user the result: when the
    generation succeeds the screen shows the result, whatever the storage
    holds and whether or not it accepts the write, and a storage that is
    unreadable or full is left as it was, with one warning printed and no
    [gallery-update] event. When the generation fails the screen returns
    to idle with one alert, the earlier result and the storage untouched. *)
Theorem result_survives_storage_trouble (env : Environment) (shot : Shot)
    (seen : Render) (st : Screen) :
  mounted shot = true ->
  context2d shot = true ->
  let run := LegacyService.generateMarketingImage env (dataUrl shot)
               (promptToUse (seen_lastTranscript seen)) (seen_genConfig seen) (net st) in
  let st' := captureAndGenerate env shot seen st in
  (forall result,
     fst run = Ok result ->
     appState st' = RESULT
     /\ generatedResult st' = Some result
     /\ capturedImage st' = Some (dataUrl shot)
     /\ alerts st' = alerts st
     /\ (creations st = Unreadable \/ quota_exceeded shot = true ->
         creations st' = creations st
         /\ gallery_updates st' = gallery_updates st
         /\ console_warnings st' = (console_warnings st ++ [history_warning])%list))
  /\ (forall e,
        fst run = Throw e ->
        appState st' = IDLE
        /\ generatedResult st' = generatedResult st
        /\ creations st' = creations st
        /\ gallery_updates st' = gallery_updates st
        /\ alerts st' = (alerts st ++ [generation_alert])%list
        /\ console_errors st' = (console_errors st ++ [e])%list).
Proof.
  intros Hm Hc run st'. subst run st'. unfold captureAndGenerate.
  rewrite Hm, Hc. cbn [negb].
  destruct (LegacyService.generateMarketingImage env (dataUrl shot)
              (promptToUse (seen_lastTranscript seen)) (seen_genConfig seen) (net st))
    as [[result | e] net']; cbn [fst]; split.
  - intros r [= <-]. unfold save_to_history.
    destruct (creations st) eqn:S, (quota_exceeded shot) eqn:Q;
      cbn; (do 4 (split; [reflexivity|]));
      intros [HH | HH]; try discriminate HH; repeat split.
  - intros e H. discriminate.
  - intros r H. discriminate.
  - intros e' [= <-]. cbn. repeat split.
Qed.

End CaptureFacts.

Section CaptureRequests.

Import JsString JsText GeminiService Capture.
#[local] Open Scope string_scope.

Lemma result_survives_storage_trouble_witness :
  let shot := {| mounted := true; context2d := true;
                 dataUrl := "data:image/jpeg;base64,/9j/4AAQSkZJRg==";
                 now_id := 7; now_timestamp := 7; quota_exceeded := true |} in
  let st' := button_capture Scenarios.env_image shot CaptureScenarios.full_gallery in
  mounted shot = true /\ context2d shot = true
  /\ appState st' = RESULT
  /\ generatedResult st' = Some {| imageUrl := "data:image/png;base64,iVBORw0KGgo=" |}
  /\ creations st' = creations CaptureScenarios.full_gallery.
Proof.
  cbv zeta. split; [reflexivity|]. split; [reflexivity|].
  destruct (proj1 (result_survives_storage_trouble Scenarios.env_image
                     {| mounted := true; context2d := true;
                        dataUrl := "data:image/jpeg;base64,/9j/4AAQSkZJRg==";
                        now_id := 7; now_timestamp := 7; quota_exceeded := true |}
                     (render_of CaptureScenarios.full_gallery)
                     CaptureScenarios.full_gallery eq_refl eq_refl)
              {| imageUrl := "data:image/png;base64,iVBORw0KGgo=" |} eq_refl)
    as (A & G & _ & _ & S).
  split; [exact A|]. split; [exact G|].
  exact (proj1 (S (or_intror eq_refl))).
Defined.




End CaptureRequests.

(* ------------------------------------------------------------------ *)
(** ** More on the A/B fan-out *)

Section AbFacts.

Import JsString GeminiService DesignStudio AbView.

Lemma index_Z_In {A} (arr : list A) (z : Z) (x : A) :
  index_Z arr z = Some x -> In x arr.
Proof.
  unfold index_Z. destruct (z <? 0); [discriminate|]. apply nth_error_In.
Qed.

Lemma otherSettings_of_member (selectedSetting : Preset.t) :
  In selectedSetting SETTINGS -> List.length (otherSettings selectedSetting) = 5%nat.
Proof.
  unfold SETTINGS. cbn [In].
  intros [<- | [<- | [<- | [<- | [<- | [<- | []]]]]]]; reflexivity.
Qed.

(** X15. The challenger of an A/B test is always another setting than the
    control: a draw of [Math.random], any number of [0, 1), picks an entry
    of [SETTINGS] whose id differs from the id of the selected setting, the
    one at the position [Math.floor] gives for the rounded product; when
    the selected setting is itself an entry of [SETTINGS], the pick is
    among the five others. *)
Theorem challenger_differs_from_control (r : Q) (selectedSetting : Preset.t) :
  Binary64.is_binary64 r = true -> (0 <= r)%Q -> (r < 1)%Q ->
  (exists variantB,
     pick_challenger r selectedSetting = Some variantB
     /\ In variantB SETTINGS
     /\ Preset.id variantB <> Preset.id selectedSetting)
  /\ (In selectedSetting SETTINGS ->
      List.length (otherSettings selectedSetting) = 5%nat).
Proof.
  intros Hr H0 H1. split; [|apply otherSettings_of_member].
  destruct (pick_challenger_total r selectedSetting Hr H0 H1) as [variantB Hpick].
  exists variantB. split; [exact Hpick|].
  unfold pick_challenger in Hpick. apply index_Z_In in Hpick.
  unfold otherSettings in Hpick. apply filter_In in Hpick as [Hin Hne].
  split; [exact Hin|].
  apply negb_true_iff, String.eqb_neq in Hne. exact Hne.
Qed.

Lemma challenger_differs_from_control_witness :
  Binary64.is_binary64 Scenarios.six_tenths = true
  /\ (0 <= Scenarios.six_tenths)%Q /\ (Scenarios.six_tenths < 1)%Q
  /\ floor_scaled Scenarios.six_tenths 5 = 3
  /\ pick_challenger Scenarios.six_tenths (selectedSetting (studio_with "ABC123"))
     = Some (Preset.mk "kitchen" "Cozy Kitchen"
               "on a rustic wooden kitchen table, morning sunlight, lifestyle photography")
  /\ exists variantB,
       pick_challenger Scenarios.six_tenths (selectedSetting (studio_with "ABC123"))
       = Some variantB
       /\ In variantB SETTINGS
       /\ Preset.id variantB <> Preset.id (selectedSetting (studio_with "ABC123")).
Proof.
  assert (L : (0 <= Scenarios.six_tenths)%Q) by (unfold Qle; simpl; lia).
  assert (U : (Scenarios.six_tenths < 1)%Q) by (unfold Qlt; simpl; lia).
  split; [reflexivity|]. split; [exact L|]. split; [exact U|].
  split; [reflexivity|]. split; [reflexivity|].
  exact (proj1 (challenger_differs_from_control Scenarios.six_tenths
                  (selectedSetting (studio_with "ABC123")) eq_refl L U)).
Defined.

Lemma make_result_run (random : nat -> Q) (slot : string) (value : GenerationResult)
    (setting : Preset.t) (shown : Z) (k : nat) :
  make_result random slot value setting shown k
  = (Ok (ab_result random slot value setting shown k), S (S k)).
Proof. reflexivity. Qed.

(** The [try] block, evaluated: what it returns for each outcome of the
    two calls. *)
Lemma ab_test_body_run (random : nat -> Q) (envs : nat -> Environment)
    (completion : list nat) (img : string) (selected angle variantB : Preset.t)
    (k : nat) :
  Permutation [0%nat; 1%nat] completion ->
  pick_challenger (random k) selected = Some variantB ->
  let a := launch envs 0 img (Preset.prompt selected) (Preset.prompt angle) in
  let b := launch envs 1 img (Preset.prompt variantB) (Preset.prompt angle) in
  ab_test_body random envs completion img selected angle k
  = match a, b with
    | Ok ra, Ok rb =>
        (Ok [ab_result random "A" ra selected 1240 (S k);
             ab_result random "B" rb variantB 1180 (S (S (S k)))],
         S (S (S (S (S k)))))
    | Ok ra, Throw _ =>
        (Ok [ab_result random "A" ra selected 1240 (S k)], S (S (S k)))
    | Throw _, Ok rb =>
        (Ok [ab_result random "B" rb variantB 1180 (S k)], S (S (S k)))
    | Throw _, Throw _ => (Throw both_failed_error, S k)
    end.
Proof.
  intros Hperm Hpick a b. subst a b.
  unfold ab_test_body, bind at 1, math_random.
  rewrite Hpick, (allSettled_pair _ _ _ Hperm).
  destruct (launch envs 0 _ _ _) as [ra | ea], (launch envs 1 _ _ _) as [rb | eb];
    reflexivity.
Qed.

Lemma handleRunABTest_run (random : nat -> Q) (envs : nat -> Environment)
    (completion : list nat) (st : Studio) (img : string) :
  originalImage st = Some img ->
  falsy img = false ->
  isRunningAB st = false ->
  handleRunABTest random envs completion st
  = match ab_test_body random envs completion img
            (selectedSetting st) (selectedAngle st) (random_draws st) with
    | (Ok validResults, draws) =>
        {| originalImage := originalImage st;
           selectedSetting := selectedSetting st;
           selectedAngle := selectedAngle st;
           isRunningAB := false;
           abResults := validResults;
           alerts := alerts st;
           studio_console_error := studio_console_error st;
           random_draws := draws |}
    | (Throw e, draws) =>
        {| originalImage := originalImage st;
           selectedSetting := selectedSetting st;
           selectedAngle := selectedAngle st;
           isRunningAB := false;
           abResults := [];
           alerts := alerts st ++ [ab_alert];
           studio_console_error :=
             studio_console_error st ++ [("AB Test Error"%string, e)];
           random_draws := draws |}
    end.
Proof.
  intros Himg Hfalsy Hrun. unfold handleRunABTest. now rewrite Himg, Hfalsy, Hrun.
Qed.

(** X16. An A/B test that runs ends with the running flag off and with the
    results of the calls that succeeded, A before B, whichever settled
    first: result A names the selected setting and 1240 impressions, result
    B the challenger and 1180; an alert is shown exactly when there is no
    result; and one draw of [Math.random] is used for the challenger and
    two more for each result. *)
Theorem ab_results_shape (random : nat -> Q) (envs : nat -> Environment)
    (completion : list nat) (st : Studio) (img : string) :
  originalImage st = Some img ->
  falsy img = false ->
  isRunningAB st = false ->
  Permutation [0%nat; 1%nat] completion ->
  Binary64.is_binary64 (random (random_draws st)) = true ->
  (0 <= random (random_draws st))%Q ->
  (random (random_draws st) < 1)%Q ->
  exists variantB,
    pick_challenger (random (random_draws st)) (selectedSetting st) = Some variantB
    /\ let a := launch envs 0 img (Preset.prompt (selectedSetting st))
                  (Preset.prompt (selectedAngle st)) in
       let b := launch envs 1 img (Preset.prompt variantB)
                  (Preset.prompt (selectedAngle st)) in
       let st' := handleRunABTest random envs completion st in
       let k := random_draws st in
       isRunningAB st' = false
       /\ abResults st'
          = (match a with
             | Ok ra => [ab_result random "A" ra (selectedSetting st) 1240 (S k)]
             | Throw _ => []
             end
             ++ match b with
                | Ok rb => [ab_result random "B" rb variantB 1180
                              (if succeeded a then S (S (S k)) else S k)]
                | Throw _ => []
                end)
       /\ alerts st'
          = alerts st ++ (if succeeded a || succeeded b then [] else [ab_alert])
       /\ random_draws st'
          = (S k + (if succeeded a then 2 else 0)
             + (if succeeded b then 2 else 0))%nat.
Proof.
  intros Himg Hfalsy Hrun Hperm Hb H0 H1.
  destruct (pick_challenger_total _ (selectedSetting st) Hb H0 H1) as [variantB Hpick].
  exists variantB. split; [exact Hpick|]. intros a b st' k.
  subst st'. rewrite (handleRunABTest_run random envs completion st img Himg Hfalsy Hrun).
  rewrite (ab_test_body_run random envs completion img (selectedSetting st)
             (selectedAngle st) variantB _ Hperm Hpick).
  fold a b k.
  destruct a as [ra | ea], b as [rb | eb]; cbn; rewrite ?app_nil_r;
    repeat split; f_equal; lia.
Qed.

Lemma ab_results_shape_witness :
  exists variantB,
    pick_challenger (Scenarios.half 0) (selectedSetting (studio_with "ABC123"))
    = Some variantB
    /\ isRunningAB (handleRunABTest Scenarios.half (fun _ => Scenarios.env_image)
                      [1%nat; 0%nat] (studio_with "ABC123")) = false.
Proof.
  assert (P : Permutation [0%nat; 1%nat] [1%nat; 0%nat]) by apply perm_swap.
  assert (H0 : (0 <= Scenarios.half 0)%Q) by (unfold Qle; simpl; lia).
  assert (H1 : (Scenarios.half 0 < 1)%Q) by (unfold Qlt; simpl; lia).
  destruct (ab_results_shape Scenarios.half (fun _ => Scenarios.env_image)
              [1%nat; 0%nat] (studio_with "ABC123") "ABC123"
              eq_refl eq_refl eq_refl P eq_refl H0 H1) as (variantB & Hpick & H).
  exists variantB. split; [exact Hpick | exact (proj1 H)].
Defined.

End AbFacts.

Section AbStatistics.

Import JsString GeminiService DesignStudio AbView.

Lemma tenths_range (x : Q) :
  (15 # 10 <= x)%Q -> (x <= 45 # 10)%Q -> 15 <= tenths x <= 45.
Proof.
  intros Hl Hu. unfold tenths.
  assert (P : Qle_bool 0 x = true) by (apply Qle_bool_iff; lra).
  rewrite P. split.
  - change 15 with (Qfloor (inject_Z 15)). apply Qfloor_resp_le.
    unfold inject_Z. lra.
  - assert (Qfloor (x * 10 + (1 # 2)) < 46); [|lia].
    rewrite Zlt_Qlt.
    apply Qle_lt_trans with (x * 10 + (1 # 2))%Q; [apply Qfloor_le|].
    unfold inject_Z. lra.
Qed.

Lemma toFixed1_range (x : Q) :
  (15 # 10 <= x)%Q -> (x <= 45 # 10)%Q ->
  (15 # 10 <= toFixed1 x)%Q /\ (toFixed1 x <= 45 # 10)%Q.
Proof.
  intros Hl Hu. unfold toFixed1.
  destruct (tenths_range x Hl Hu) as [L U].
  rewrite Zle_Qle in L, U.
  assert (L' : (15 # 10 <= inject_Z (tenths x) / 10)%Q).
  { apply Qle_shift_div_l; [reflexivity|].
    apply Qle_trans with (inject_Z 15); [discriminate | exact L]. }
  assert (U' : (inject_Z (tenths x) / 10 <= 45 # 10)%Q).
  { apply Qle_shift_div_r; [reflexivity|].
    apply Qle_trans with (inject_Z 45); [exact U | discriminate]. }
  split.
  - apply round_ge; [discriminate | exact L' | reflexivity].
  - apply round_le; [lra | exact U' | reflexivity].
Qed.

(** The click-through rate drawn from a number of [0, 1). *)
Lemma drawn_ctr_range (r : Q) :
  Binary64.is_binary64 r = true -> (0 <= r)%Q -> (r < 1)%Q ->
  let c := toFixed1 (Binary64.add (Binary64.mul r 3) (15 # 10)) in
  (15 # 10 <= c)%Q /\ (c <= 45 # 10)%Q.
Proof.
  intros Hr H0 H1 c. subst c. apply toFixed1_range.
  - unfold Binary64.add. apply round_ge; [discriminate | | reflexivity].
    pose proof (round_nonneg (r * 3)) as N. unfold Binary64.mul. lra.
  - unfold Binary64.add, Binary64.mul.
    assert (A : (Binary64.round (r * 3) <= 3)%Q)
      by (apply round_le; [lra | lra | reflexivity]).
    pose proof (round_nonneg (r * 3)) as N.
    apply round_le; [lra | lra | reflexivity].
Qed.

Lemma ctr_bar_range (c : Q) :
  (15 # 10 <= c)%Q -> (c <= 45 # 10)%Q ->
  (0 <= Binary64.mul (Binary64.div c 5) 100)%Q
  /\ (Binary64.mul (Binary64.div c 5) 100 <= 100)%Q.
Proof.
  intros L U. unfold Binary64.mul, Binary64.div.
  assert (E : (c / 5 == c * (1 # 5))%Q) by (field; discriminate).
  assert (D0 : (0 <= Binary64.round (c / 5))%Q)
    by (apply round_nonneg; rewrite E; lra).
  assert (D1 : (Binary64.round (c / 5) <= 1)%Q)
    by (apply round_le; [rewrite E; lra | rewrite E; lra | reflexivity]).
  split.
  - apply round_nonneg. lra.
  - apply round_le; [lra | lra | reflexivity].
Qed.

Lemma ab_result_statistics (random : nat -> Q) (slot : string)
    (value : GenerationResult) (setting : Preset.t) (shown : Z) (k : nat) :
  (forall n, Binary64.is_binary64 (random n) = true
             /\ (0 <= random n)%Q /\ (random n < 1)%Q) ->
  let res := ab_result random slot value setting shown k in
  70 <= score (stats res) <= 94
  /\ (15 # 10 <= ctr (stats res))%Q /\ (ctr (stats res) <= 45 # 10)%Q
  /\ impressions (stats res) = shown
  /\ (0 <= ctr_bar_width res)%Q /\ (ctr_bar_width res <= 100)%Q.
Proof.
  intros Hr res. subst res. unfold ctr_bar_width. cbn [ab_result stats score ctr impressions].
  destruct (Hr k) as (Kb & K0 & K1). destruct (Hr (S k)) as (Sb & S0 & S1).
  pose proof (floor_scaled_range (random k) 25 Kb K0 K1 ltac:(auto)) as F.
  destruct (drawn_ctr_range (random (S k)) Sb S0 S1) as [C0 C1].
  destruct (ctr_bar_range _ C0 C1) as [W0 W1].
  repeat split; try lia; assumption.
Qed.

(** X17. The synthetic statistics of an A/B test stay within their
    scales, rounding included: with the draws of [Math.random] any numbers
    of [0, 1), every result of a test that ran has a score between 70 and
    94, a click-through rate between 1.5 and 4.5, 1240 or 1180 impressions,
    and a click-through bar no wider than 100 percent. *)
Theorem ab_statistics_bounded (random : nat -> Q) (envs : nat -> Environment)
    (completion : list nat) (st : Studio) (img : string) :
  originalImage st = Some img ->
  falsy img = false ->
  isRunningAB st = false ->
  Permutation [0%nat; 1%nat] completion ->
  (forall n, Binary64.is_binary64 (random n) = true
             /\ (0 <= random n)%Q /\ (random n < 1)%Q) ->
  Forall (fun res =>
            70 <= score (stats res) <= 94
            /\ (15 # 10 <= ctr (stats res))%Q /\ (ctr (stats res) <= 45 # 10)%Q
            /\ (impressions (stats res) = 1240 \/ impressions (stats res) = 1180)
            /\ (ctr_bar_width res <= 100)%Q)
         (abResults (handleRunABTest random envs completion st)).
Proof.
  intros Himg Hfalsy Hrun Hperm Hr.
  destruct (Hr (random_draws st)) as (Hb & H0 & H1).
  destruct (pick_challenger_total _ (selectedSetting st) Hb H0 H1) as [variantB Hpick].
  rewrite (handleRunABTest_run random envs completion st img Himg Hfalsy Hrun).
  rewrite (ab_test_body_run random envs completion img (selectedSetting st)
             (selectedAngle st) variantB _ Hperm Hpick).
  assert (B : forall slot value setting shown k,
            shown = 1240 \/ shown = 1180 ->
            let res := ab_result random slot value setting shown k in
            70 <= score (stats res) <= 94
            /\ (15 # 10 <= ctr (stats res))%Q /\ (ctr (stats res) <= 45 # 10)%Q
            /\ (impressions (stats res) = 1240 \/ impressions (stats res) = 1180)
            /\ (ctr_bar_width res <= 100)%Q).
  { intros slot value setting shown k Hs res.
    destruct (ab_result_statistics random slot value setting shown k Hr)
      as (A1 & A2 & A3 & A4 & _ & A6).
    fold res in A1, A2, A3, A4, A6. rewrite A4. repeat split; tauto. }
  destruct (launch envs 0 _ _ _) as [ra | ea], (launch envs 1 _ _ _) as [rb | eb];
    cbn [abResults]; repeat (apply Forall_cons; [apply B; auto|]); apply Forall_nil.
Qed.

Lemma ab_statistics_bounded_witness :
  Permutation [0%nat; 1%nat] [1%nat; 0%nat]
  /\ (forall n, Binary64.is_binary64 (Scenarios.half n) = true
                /\ (0 <= Scenarios.half n)%Q /\ (Scenarios.half n < 1)%Q)
  /\ map (fun res => (score (stats res), ctr (stats res), impressions (stats res)))
       (abResults (handleRunABTest Scenarios.half (fun _ => Scenarios.env_image)
                     [1%nat; 0%nat] (studio_with "ABC123")))
     = [(82, 3%Q, 1240); (82, 3%Q, 1180)]
  /\ Forall (fun res => 70 <= score (stats res) <= 94)
       (abResults (handleRunABTest Scenarios.half (fun _ => Scenarios.env_image)
                     [1%nat; 0%nat] (studio_with "ABC123"))).
Proof.
  assert (P : Permutation [0%nat; 1%nat] [1%nat; 0%nat]) by apply perm_swap.
  assert (R : forall n, Binary64.is_binary64 (Scenarios.half n) = true
                        /\ (0 <= Scenarios.half n)%Q /\ (Scenarios.half n < 1)%Q).
  { intros n. split; [reflexivity|]. split; [unfold Qle | unfold Qlt]; simpl; lia. }
  split; [exact P|]. split; [exact R|]. split; [reflexivity|].
  eapply Forall_impl;
    [|exact (ab_statistics_bounded Scenarios.half (fun _ => Scenarios.env_image)
               [1%nat; 0%nat] (studio_with "ABC123") "ABC123"
               eq_refl eq_refl eq_refl P R)].
  intros res H. exact (proj1 H).
Defined.

Lemma math_max_spec (xs : list Z) :
  match math_max xs with
  | None => xs = []
  | Some m => In m xs /\ forall x, In x xs -> x <= m
  end.
Proof.
  induction xs as [|x xs IH]; [reflexivity|].
  cbn [math_max fold_right]. fold (math_max xs).
  destruct (math_max xs) as [m|].
  - destruct IH as [Hin Hmax]. split.
    + destruct (Z.max_spec x m) as [[_ ->] | [_ ->]]; [now right | now left].
    + intros y [<- | Hy]; [lia|]. specialize (Hmax y Hy). lia.
  - subst xs. split; [now left|]. intros y [<- | []]. lia.
Qed.

(** X18. The winner badge goes to the best score: among the results shown,
    a result is marked as the winner exactly when no other result has a
    higher score; some result is always marked when there is any, and
    results that tie for the best score are all marked. *)
Theorem winner_has_the_best_score (abResults : list ABTestResult) :
  (forall res,
     In res abResults ->
     (isWinner res abResults = true
      <-> forall r, In r abResults -> score (stats r) <= score (stats res)))
  /\ (abResults <> [] -> exists res, In res abResults /\ isWinner res abResults = true)
  /\ (forall res res',
        In res abResults -> In res' abResults ->
        isWinner res abResults = true ->
        score (stats res') = score (stats res) ->
        isWinner res' abResults = true).
Proof.
  unfold isWinner.
  pose proof (math_max_spec (map (fun r => score (stats r)) abResults)) as M.
  destruct (math_max (map (fun r => score (stats r)) abResults)) as [m|].
  - destruct M as [Hin Hmax].
    assert (Hmax' : forall r, In r abResults -> score (stats r) <= m).
    { intros r Hr. apply Hmax. now apply (in_map (fun r => score (stats r))). }
    apply in_map_iff in Hin as (best & Hbest & Hin).
    split; [|split].
    + intros res Hres. rewrite Z.leb_le. split.
      * intros H r Hr. specialize (Hmax' r Hr). lia.
      * intros H. specialize (H best Hin). lia.
    + intros _. exists best. split; [exact Hin|]. apply Z.leb_le. lia.
    + intros res res' _ _ H E. rewrite Z.leb_le in *. lia.
  - apply map_eq_nil in M. subst abResults. split; [|split].
    + intros res [].
    + intros H. contradiction.
    + intros res res' [].
Qed.

Lemma winner_has_the_best_score_witness :
  exists res,
    In res [mkAB "A" "data:a" "Marble Studio" (mkStats (3 # 1) 82 1240);
            mkAB "B" "data:b" "Neon City" (mkStats (2 # 1) 75 1180)]
    /\ isWinner res
         [mkAB "A" "data:a" "Marble Studio" (mkStats (3 # 1) 82 1240);
          mkAB "B" "data:b" "Neon City" (mkStats (2 # 1) 75 1180)] = true.
Proof.
  apply (proj1 (proj2 (winner_has_the_best_score
                         [mkAB "A" "data:a" "Marble Studio" (mkStats (3 # 1) 82 1240);
                          mkAB "B" "data:b" "Neon City" (mkStats (2 # 1) 75 1180)]))).
  discriminate.
Defined.

End AbStatistics.

(* ------------------------------------------------------------------ *)
(** ** The remix side of the design studio *)

Section RemixFacts.

Import GeminiService RemixStudio.

Lemma step_selection_ok (st st' : View) :
  step st st' -> selection_ok st -> selection_ok st'.
Proof.
  intros S H. destruct S as [st | env st | imageUrl st | idx st Hidx].
  - unfold seed_variants. destruct (originalImage st) as [img|]; [|exact H].
    destruct (negb (falsy img) && _) eqn:E; [|exact H].
    apply andb_true_iff in E as [_ E]. apply Nat.eqb_eq in E.
    destruct H as [[_ H0] | H]; [|lia].
    right. cbn. lia.
  - unfold handleGenerate. destruct (originalImage st) as [img|]; [|exact H].
    destruct (isGenerating st || falsy img); [exact H|].
    destruct (fst (generateVariantImage env img _ _ _)) as [result | e].
    + right. cbn. lia.
    + exact H.
  - right. cbn. lia.
  - right. exact Hidx.
Qed.

Lemma step_keeps_variants (st st' : View) :
  step st st' ->
  exists added, generatedVariants st' = (added ++ generatedVariants st)%list
                /\ (List.length added <= 1)%nat.
Proof.
  intros S. destruct S as [st | env st | imageUrl st | idx st Hidx].
  - unfold seed_variants. destruct (originalImage st) as [img|];
      [|exists []; split; [reflexivity | simpl; lia]].
    destruct (negb (falsy img) && _) eqn:E;
      [|exists []; split; [reflexivity | simpl; lia]].
    apply andb_true_iff in E as [_ E]. apply Nat.eqb_eq, length_zero_iff_nil in E.
    exists [img]. cbn. rewrite E. split; [reflexivity | lia].
  - unfold handleGenerate. destruct (originalImage st) as [img|];
      [|exists []; split; [reflexivity | simpl; lia]].
    destruct (isGenerating st || falsy img);
      [exists []; split; [reflexivity | simpl; lia]|].
    destruct (fst (generateVariantImage env img _ _ _)) as [result | e].
    + exists [imageUrl result]. split; [reflexivity | simpl; lia].
    + exists []. split; [reflexivity | simpl; lia].
  - exists [imageUrl]. split; [reflexivity | simpl; lia].
  - exists []. split; [reflexivity | simpl; lia].
Qed.

(** X19. Whatever the user does in the studio (the seeding effect,
    generating, promoting an A/B result, clicking a variant of the grid),
    the selected index always names a variant once there is one, so that
    the image shown is defined; and no variant is ever removed or
    reordered: the variants of an earlier state are the tail of the
    variants of every later one. *)
Theorem selected_variant_always_exists (originalImage : option string) (st : View) :
  reachable (initial originalImage) st ->
  selection_ok st
  /\ (generatedVariants st <> [] -> exists img, currentImage st = Some img)
  /\ (forall st', reachable st st' ->
        exists added, generatedVariants st' = (added ++ generatedVariants st)%list).
Proof.
  intros R.
  assert (Hok : selection_ok st).
  { induction R as [|st st' R IH S]; [left; now split|].
    now apply (step_selection_ok st st'). }
  split; [exact Hok|]. split.
  - intros Hne. destruct Hok as [[E _] | Hlt]; [contradiction|].
    unfold currentImage.
    destruct (nth_error (generatedVariants st) (selectedVariantIndex st)) as [img|] eqn:N;
      [now exists img|].
    apply nth_error_None in N. lia.
  - intros st' R'. induction R' as [|st1 st2 R' IH S]; [now exists []|].
    destruct IH as [added IH].
    destruct (step_keeps_variants st1 st2 S) as (more & E & _).
    exists (more ++ added)%list. now rewrite E, IH, app_assoc.
Qed.

Lemma selected_variant_always_exists_witness :
  reachable (initial (Some "ABC123"%string))
    (select_variant 0 (seed_variants (initial (Some "ABC123"%string))))
  /\ selection_ok (select_variant 0 (seed_variants (initial (Some "ABC123"%string)))).
Proof.
  assert (R : reachable (initial (Some "ABC123"%string))
                (select_variant 0 (seed_variants (initial (Some "ABC123"%string))))).
  { eapply reach_step; [eapply reach_step; [apply reach_here | apply step_seed]|].
    apply step_select. cbn. lia. }
  split; [exact R|].
  exact (proj1 (selected_variant_always_exists (Some "ABC123"%string) _ R)).
Defined.

(** X20. Generating a variant: when the call succeeds the new image is put
    in front of the variants and selected, the earlier variants follow
    unchanged, the studio shows the remixes and no alert; when the call
    fails the variants, the selection and the mode stay as they were, one
    alert is shown and the last command reads [Generation Failed]; either
    way the generating flag ends off. A studio that is already generating,
    or has no image, does nothing. *)
Theorem handleGenerate_outcomes (env : Environment) (st : View) (img : string) :
  originalImage st = Some img ->
  falsy img = false ->
  let call := fst (generateVariantImage env img (Preset.prompt (selectedSetting st))
                     (Preset.prompt (selectedAngle st)) (fresh, [])) in
  let st' := handleGenerate env st in
  (isGenerating st = true -> st' = st)
  /\ (isGenerating st = false ->
      isGenerating st' = false
      /\ (forall result,
            call = Ok result ->
            generatedVariants st' = imageUrl result :: generatedVariants st
            /\ currentImage st' = Some (imageUrl result)
            /\ mode st' = remix
            /\ alerts st' = alerts st
            /\ lastCommand st' = lastCommand st)
      /\ (forall e,
            call = Throw e ->
            generatedVariants st' = generatedVariants st
            /\ selectedVariantIndex st' = selectedVariantIndex st
            /\ mode st' = mode st
            /\ alerts st' = (alerts st ++ [generation_alert])%list
            /\ lastCommand st' = Some "Generation Failed"%string)).
Proof.
  intros Himg Hf call st'. subst call st'. unfold handleGenerate.
  rewrite Himg, Hf, orb_false_r. split.
  - intros ->. reflexivity.
  - intros ->.
    destruct (fst (generateVariantImage env img _ _ _)) as [result | e]; cbn.
    + split; [reflexivity|]. split.
      * intros r [= <-]. repeat split.
      * intros e H. discriminate H.
    + split; [reflexivity|]. split.
      * intros r H. discriminate H.
      * intros e' [= <-]. repeat split.
Qed.

Lemma handleGenerate_outcomes_witness :
  isGenerating (handleGenerate Scenarios.env_image (initial (Some "ABC123"%string)))
  = false.
Proof.
  destruct (handleGenerate_outcomes Scenarios.env_image
              (initial (Some "ABC123"%string)) "ABC123" eq_refl eq_refl) as [_ H].
  exact (proj1 (H eq_refl)).
Defined.

End RemixFacts.

(* ------------------------------------------------------------------ *)
(** ** The tool calls of the studio's voice control *)

Section VoiceControlFacts.

Import RemixStudio VoiceControl.

Lemma execute_has_args (fc : FunctionCall) (st : View) :
  match execute fc st with
  | Ok _ => has_args fc = true
  | Throw _ => has_args fc = false
  end.
Proof.
  unfold execute, has_args.
  destruct (name_is fc "changeVibe"); cbn [orb].
  { destruct (args fc) as [a|]; [|reflexivity].
    destruct (find_preset _ _); reflexivity. }
  destruct (name_is fc "changeAngle"); cbn [orb].
  { destruct (args fc) as [a|]; [|reflexivity].
    destruct (find_preset _ _); reflexivity. }
  destruct (name_is fc "triggerAction"); [|reflexivity].
  destruct (args fc); reflexivity.
Qed.

Lemma run_calls_sent (fcs : list FunctionCall) :
  forall st begun responses,
    sent (run_calls fcs st begun responses)
    = if forallb has_args fcs then Some (responses ++ map answer fcs) else None.
Proof.
  induction fcs as [|fc fcs IH]; intros st begun responses.
  - cbn. now rewrite app_nil_r.
  - cbn [run_calls forallb map]. pose proof (execute_has_args fc st) as H.
    destruct (execute fc st) as [[st' more] | e]; rewrite H; cbn [andb].
    + rewrite IH, <- app_assoc. reflexivity.
    + reflexivity.
Qed.

(** X21. Every function call of a tool-call message is answered, in the
    order of the calls, with its own id and name and with [success: true],
    whether or not the tool, the vibe or the angle it names exists; but
    when a call of one of the three tools comes without [args] nothing at
    all is sent back, not even the answers to the calls before it. *)
Theorem tool_calls_answered_in_order (fcs : list FunctionCall) (st : View) :
  sent (on_tool_call fcs st)
  = (if forallb has_args fcs then Some (map answer fcs) else None)
  /\ (forall responses,
        sent (on_tool_call fcs st) = Some responses ->
        List.length responses = List.length fcs
        /\ Forall (fun r => success r = true) responses
        /\ map response_id responses = map id fcs
        /\ map response_name responses = map name fcs).
Proof.
  unfold on_tool_call. rewrite run_calls_sent. cbn [app]. split; [reflexivity|].
  intros responses H. destruct (forallb has_args fcs); [|discriminate].
  injection H as <-. rewrite length_map, !map_map. repeat split.
  apply Forall_forall. intros r Hr. apply in_map_iff in Hr as (fc & <- & _).
  reflexivity.
Qed.

Lemma tool_calls_answered_in_order_witness :
  sent (on_tool_call
          [{| id := Some "call-1"%string; name := Some "changeVibe"%string;
              args := Some {| vibeId := Some "neon"%string; angleId := None;
                              action := None |} |}]
          (initial (Some "ABC123"%string)))
  = Some [{| response_id := Some "call-1"%string;
             response_name := Some "changeVibe"%string; success := true |}]
  /\ Forall (fun r => success r = true)
       [{| response_id := Some "call-1"%string;
           response_name := Some "changeVibe"%string; success := true |}].
Proof.
  split; [reflexivity|].
  apply (proj2 (tool_calls_answered_in_order
                  [{| id := Some "call-1"%string; name := Some "changeVibe"%string;
                      args := Some {| vibeId := Some "neon"%string; angleId := None;
                                      action := None |} |}]
                  (initial (Some "ABC123"%string)))
           [{| response_id := Some "call-1"%string;
               response_name := Some "changeVibe"%string; success := true |}]
           eq_refl).
Defined.

Lemma find_preset_some (presets : list Preset.t) (wanted : option string)
    (found : Preset.t) :
  find_preset presets wanted = Some found ->
  In found presets /\ wanted = Some (Preset.id found).
Proof.
  unfold find_preset. destruct wanted as [w|]; [|discriminate].
  intros H. apply find_some in H as [Hin E]. apply String.eqb_eq in E.
  split; [exact Hin | now rewrite E].
Qed.

Lemma execute_changeVibe (fc_id : option string) (a : Args) (st : View) :
  execute {| id := fc_id; name := Some "changeVibe"%string; args := Some a |} st
  = match find_preset DesignStudio.SETTINGS (vibeId a) with
    | Some vibe => Ok (with_setting vibe st, [])
    | None => Ok (st, [])
    end.
Proof. reflexivity. Qed.

(** What one function call may change of the state. *)
Lemma execute_frame (fc : FunctionCall) (st st' : View) (more : list Started) :
  execute fc st = Ok (st', more) ->
  (selectedSetting st' = selectedSetting st \/ In (selectedSetting st') DesignStudio.SETTINGS)
  /\ (selectedAngle st' = selectedAngle st \/ In (selectedAngle st') DesignStudio.ANGLES)
  /\ generatedVariants st' = generatedVariants st
  /\ selectedVariantIndex st' = selectedVariantIndex st
  /\ originalImage st' = originalImage st
  /\ isGenerating st' = isGenerating st
  /\ alerts st' = alerts st.
Proof.
  unfold execute.
  destruct (name_is fc "changeVibe").
  { destruct (args fc) as [a|]; [|discriminate].
    destruct (find_preset _ _) as [vibe|] eqn:F; intros [= <- <-]; cbn.
    - apply find_preset_some in F as [Hin _]. repeat split; auto.
    - repeat split; auto. }
  destruct (name_is fc "changeAngle").
  { destruct (args fc) as [a|]; [|discriminate].
    destruct (find_preset _ _) as [angle|] eqn:F; intros [= <- <-]; cbn.
    - apply find_preset_some in F as [Hin _]. repeat split; auto.
    - repeat split; auto. }
  destruct (name_is fc "triggerAction").
  { destruct (args fc) as [a|]; [|discriminate].
    intros [= <- <-]. cbn. repeat split; auto. }
  intros [= <- <-]. repeat split; auto.
Qed.

Lemma run_calls_frame (fcs : list FunctionCall) :
  forall st begun responses,
    let st' := view (run_calls fcs st begun responses) in
    (selectedSetting st' = selectedSetting st \/ In (selectedSetting st') DesignStudio.SETTINGS)
    /\ (selectedAngle st' = selectedAngle st \/ In (selectedAngle st') DesignStudio.ANGLES)
    /\ generatedVariants st' = generatedVariants st
    /\ selectedVariantIndex st' = selectedVariantIndex st
    /\ originalImage st' = originalImage st
    /\ isGenerating st' = isGenerating st
    /\ alerts st' = alerts st.
Proof.
  induction fcs as [|fc fcs IH]; intros st begun responses; cbn [run_calls].
  - cbn. repeat split; auto.
  - destruct (execute fc st) as [[st1 more] | e] eqn:E.
    + destruct (execute_frame fc st st1 more E) as (S1 & A1 & V1 & I1 & O1 & G1 & L1).
      specialize (IH st1 (begun ++ more)%list (responses ++ [answer fc])%list).
      cbv zeta in IH |- *.
      destruct IH as (S2 & A2 & V2 & I2 & O2 & G2 & L2).
      rewrite V2, I2, O2, G2, L2. repeat split; try assumption.
      * destruct S2 as [S2 | S2]; [rewrite S2; exact S1 | now right].
      * destruct A2 as [A2 | A2]; [rewrite A2; exact A1 | now right].
    + cbn. repeat split; auto.
Qed.

(** X22. The voice control can only select what the studio offers: after
    the loop over the function calls of any tool-call message, the
    selected setting is the one selected before or an entry of [SETTINGS],
    and the selected angle the one before or an entry of [ANGLES] (a vibe
    or angle id that is unknown, or not a string, changes nothing); and the
    loop itself sets neither the variants, nor the selected variant, nor
    the original image: these change only through the handlers that a
    [triggerAction] starts. *)
Theorem voice_control_selects_known_presets (fcs : list FunctionCall) (st : View) :
  let st' := view (on_tool_call fcs st) in
  (selectedSetting st' = selectedSetting st \/ In (selectedSetting st') DesignStudio.SETTINGS)
  /\ (selectedAngle st' = selectedAngle st \/ In (selectedAngle st') DesignStudio.ANGLES)
  /\ generatedVariants st' = generatedVariants st
  /\ selectedVariantIndex st' = selectedVariantIndex st
  /\ originalImage st' = originalImage st
  /\ (forall fc_id wanted,
        let fc := {| id := fc_id; name := Some "changeVibe"%string;
                     args := Some {| vibeId := wanted; angleId := None;
                                     action := None |} |} in
        match find_preset DesignStudio.SETTINGS wanted with
        | Some vibe =>
            selectedSetting (view (on_tool_call [fc] st)) = vibe
            /\ wanted = Some (Preset.id vibe)
        | None => view (on_tool_call [fc] st) = st
        end).
Proof.
  intros st'. subst st'. unfold on_tool_call.
  destruct (run_calls_frame fcs st [] []) as (S & A & V & I & O & G & L).
  do 5 (split; [assumption|]).
  intros fc_id wanted.
  cbn [run_calls]. rewrite execute_changeVibe. cbn [vibeId].
  destruct (find_preset DesignStudio.SETTINGS wanted) as [vibe|] eqn:F.
  - cbn. split; [reflexivity|].
    now apply find_preset_some in F as [_ ->].
  - reflexivity.
Qed.

End VoiceControlFacts.

(* ------------------------------------------------------------------ *)
(** ** Wrapping the headline of the poster *)

Section PosterFacts.

Import JsString Poster.
#[local] Open Scope string_scope.

Variable measure : string -> Q.
Variables maxWidth lineHeight : Q.

Lemma split_from_space_joins (s : string) :
  forall cur, spaced (split_from " " 0 cur s) = cur ++ s ++ " ".
Proof.
  induction s as [|c s IH]; intros cur.
  - reflexivity.
  - cbn [split_from]. destruct (String.prefix " " (String c s)) eqn:P.
    + change (String.length " " - 1)%nat with 0%nat.
      cbn [spaced fold_right]. fold (spaced (split_from " " 0 "" s)).
      rewrite IH. apply prefix_cons in P as [<- _]. reflexivity.
    + rewrite IH, append_assoc. reflexivity.
Qed.

Lemma split_nonempty (s : string) : split s " " <> [].
Proof.
  unfold split. generalize EmptyString at 2.
  induction s as [|c s IH]; intros cur; cbn [split_from]; [discriminate|].
  destruct (String.prefix " " (String c s)); [discriminate | apply IH].
Qed.

Lemma text_of_app (a b : list (string * Q)) :
  text_of (a ++ b)%list = text_of a ++ text_of b.
Proof.
  induction a as [|[l y] a IH]; cbn; [reflexivity|].
  fold (text_of (a ++ b)%list). fold (text_of a).
  now rewrite IH, append_assoc.
Qed.

Lemma text_of_last (drawn : list (string * Q)) (line : string) (y : Q) :
  text_of (last_fillText (line, y, drawn)) = text_of drawn ++ line.
Proof.
  cbn [last_fillText]. rewrite text_of_app. cbn. now rewrite append_nil_r.
Qed.

Lemma wrap_words_text (words : list string) :
  forall n line y drawn,
    text_of (last_fillText (wrap_words measure maxWidth lineHeight words n line y drawn))
    = text_of drawn ++ line ++ spaced words.
Proof.
  induction words as [|word rest IH]; intros n line y drawn; cbn [wrap_words].
  - rewrite text_of_last. cbn. now rewrite append_nil_r.
  - cbv zeta. destruct (wider _ _ && _)%bool; rewrite IH.
    + rewrite text_of_app. cbn. fold (spaced rest).
      now rewrite append_nil_r, !append_assoc.
    + cbn. fold (spaced rest). now rewrite !append_assoc.
Qed.

Lemma wrap_words_fit (all : list string) (words : list string) :
  incl words all ->
  forall n line y drawn,
    (n = 0%nat -> line = "" /\ words <> []) ->
    ((0 < n)%nat -> fits measure maxWidth all line) ->
    Forall (fits measure maxWidth all) (map fst drawn) ->
    Forall (fits measure maxWidth all)
      (map fst (last_fillText
                  (wrap_words measure maxWidth lineHeight words n line y drawn))).
Proof.
  induction words as [|word rest IH]; intros Hin n line y drawn H0 Hn Hd;
    cbn [wrap_words].
  - cbn [last_fillText]. rewrite map_app. apply Forall_app. split; [exact Hd|].
    constructor; [|constructor]. cbn [fst]. apply Hn.
    destruct n; [|lia]. now destruct (H0 eq_refl).
  - assert (Hword : In word all) by (apply Hin; now left).
    assert (Hrest : incl rest all) by (intros w Hw; apply Hin; now right).
    cbv zeta. destruct (wider _ _ && _)%bool eqn:C.
    + apply andb_true_iff in C as [_ C]. apply Nat.ltb_lt in C.
      apply IH; [exact Hrest | discriminate | |].
      * intros _. right. now exists word.
      * rewrite map_app. apply Forall_app. split; [exact Hd|].
        constructor; [|constructor]. now apply Hn.
    + apply IH; [exact Hrest | discriminate | | exact Hd].
      intros _. apply andb_false_iff in C as [C | C].
      * left. unfold wider in C. apply negb_false_iff in C.
        now apply Qle_bool_iff.
      * apply Nat.ltb_ge in C. assert (n = 0%nat) as E by lia.
        destruct (H0 E) as [-> _]. right. now exists word.
Qed.

Lemma wrap_words_count (words : list string) :
  forall n line y drawn,
    let lines := last_fillText
                   (wrap_words measure maxWidth lineHeight words n line y drawn) in
    (S (List.length drawn) <= List.length lines
     /\ List.length lines <= S (List.length drawn + List.length words))%nat.
Proof.
  induction words as [|word rest IH]; intros n line y drawn; cbn [wrap_words].
  - cbn [last_fillText]. rewrite length_app. cbn. lia.
  - cbv zeta. destruct (wider _ _ && _)%bool.
    + specialize (IH (S n) (word ++ " ") (Binary64.add y lineHeight)
                     (drawn ++ [(line, y)])%list).
      cbv zeta in IH. rewrite length_app in IH. cbn [List.length] in IH |- *. lia.
    + specialize (IH (S n) (line ++ word ++ " ") y drawn).
      cbv zeta in IH. cbn. lia.
Qed.

Lemma stacked_snoc (y0 : Q) (drawn : list (string * Q)) (line : string) (y : Q) :
  stacked y0 lineHeight drawn ->
  y = height y0 lineHeight (List.length drawn) ->
  stacked y0 lineHeight (drawn ++ [(line, y)])%list.
Proof.
  intros Hd Hy k l yy H. destruct (Nat.lt_ge_cases k (List.length drawn)) as [Hk | Hk].
  - rewrite nth_error_app1 in H by exact Hk. now apply (Hd k l).
  - rewrite nth_error_app2 in H by exact Hk.
    destruct (k - List.length drawn)%nat as [|m] eqn:E.
    + cbn in H. injection H as _ <-.
      replace k with (List.length drawn) by lia. exact Hy.
    + cbn in H. now destruct m.
Qed.

Lemma wrap_words_stacked (y0 : Q) (words : list string) :
  forall n line y drawn,
    stacked y0 lineHeight drawn ->
    y = height y0 lineHeight (List.length drawn) ->
    stacked y0 lineHeight
      (last_fillText (wrap_words measure maxWidth lineHeight words n line y drawn)).
Proof.
  induction words as [|word rest IH]; intros n line y drawn Hd Hy; cbn [wrap_words].
  - now apply stacked_snoc.
  - cbv zeta. destruct (wider _ _ && _)%bool.
    + apply IH; [now apply stacked_snoc|].
      rewrite length_app, Nat.add_1_r, Hy. reflexivity.
    + now apply IH.
Qed.

(** X23. Wrapping the headline loses nothing and adds nothing: the lines
    drawn for a headline, read top to bottom, are the headline followed by
    one space, its single spaces kept where they were; and every line
    drawn is either no wider than [maxWidth] or holds just one word of the
    headline, which is then too wide by itself. *)
Theorem headline_wrap_keeps_text (y0 : Q) (text : string) :
  let words := split text " " in
  let lines := headline_lines measure maxWidth lineHeight y0 words in
  text_of lines = text ++ " "
  /\ Forall (fits measure maxWidth words) (map fst lines).
Proof.
  intros words lines. subst lines. unfold headline_lines. split.
  - rewrite wrap_words_text. subst words. unfold split.
    now rewrite split_from_space_joins.
  - apply wrap_words_fit.
    + apply incl_refl.
    + intros _. split; [reflexivity | apply split_nonempty].
    + intros H. inversion H.
    + constructor.
Qed.

(** X24. The headline takes at least one line and at most as many lines
    as it has words, and the k-th line (from 0) is drawn at the height that
    k additions of [lineHeight] reach from [y0], each addition rounded as
    the numbers of the program are. On a canvas 1024 wide the fourth line
    is drawn at the number 358.4, which is not the exact sum
    [y0 + 3 * lineHeight]. *)
Theorem headline_lines_stacked (y0 : Q) (text : string) :
  let words := split text " " in
  let lines := headline_lines measure maxWidth lineHeight y0 words in
  ((1 <= List.length lines <= List.length words)%nat
   /\ stacked y0 lineHeight lines)
  /\ (height y0_1024 lineHeight_1024 3 == Binary64.round (3584 # 10))%Q
  /\ ~ (height y0_1024 lineHeight_1024 3 == y0_1024 + 3 * lineHeight_1024)%Q.
Proof.
  intros words lines. subst lines. unfold headline_lines.
  split; [split|split].
  - pose proof (split_nonempty text) as Hne. fold words in Hne.
    destruct words as [|word rest]; [contradiction|].
    cbn [wrap_words]. cbv zeta. rewrite andb_false_r.
    pose proof (wrap_words_count rest 1 ("" ++ word ++ " ") y0 []) as H.
    cbv zeta in H. cbn [List.length] in H |- *. lia.
  - apply wrap_words_stacked.
    + intros k l y H. now destruct k.
    + reflexivity.
  - vm_compute. reflexivity.
  - intros H. vm_compute in H. discriminate H.
Qed.

End PosterFacts.

(* ------------------------------------------------------------------ *)
(** ** 16-bit PCM samples of the microphone *)

Section AudioFacts.

Import Audio.

Lemma truncate_nonneg (q : Q) : (0 <= q)%Q -> truncate q = Qfloor q.
Proof.
  destruct q as [n d]. unfold Qle, truncate. cbn. intros H.
  apply Z.quot_div_nonneg; lia.
Qed.

Lemma truncate_nonpos (q : Q) : (q <= 0)%Q -> truncate q = Qceiling q.
Proof.
  destruct q as [n d]. unfold Qle, truncate, Qceiling. cbn. intros H.
  replace n with (- - n) at 1 by lia.
  rewrite Z.quot_opp_l by lia. f_equal. apply Z.quot_div_nonneg; lia.
Qed.

Lemma truncate_mono (q r : Q) : (q <= r)%Q -> truncate q <= truncate r.
Proof.
  intros H. destruct (Qlt_le_dec q 0) as [Hq | Hq].
  - destruct (Qlt_le_dec r 0) as [Hr | Hr].
    + rewrite !truncate_nonpos by now apply Qlt_le_weak.
      now apply Qceiling_resp_le.
    + rewrite truncate_nonpos by now apply Qlt_le_weak.
      rewrite (truncate_nonneg r) by exact Hr.
      transitivity 0.
      * change 0 with (Qceiling 0). apply Qceiling_resp_le. now apply Qlt_le_weak.
      * change 0 with (Qfloor 0). now apply Qfloor_resp_le.
  - rewrite !truncate_nonneg; [now apply Qfloor_resp_le | | exact Hq].
    now apply Qle_trans with q.
Qed.

Lemma ToInt16_in_range (r : Q) :
  (-32768 <= r <= 32767)%Q -> ToInt16 (Finite r) = truncate r.
Proof.
  intros [Hl Hu]. apply truncate_mono in Hl, Hu.
  change (truncate (-32768)) with (-32768) in Hl.
  change (truncate 32767) with 32767 in Hu.
  unfold ToInt16. rewrite Z.mod_small by lia. lia.
Qed.

(** The clamped and scaled value of a finite sample. *)
Lemma scaled_finite (q : Q) :
  exists r,
    scale (max_minus_one (min_one (Finite q))) = Finite r
    /\ ((q <= -1 /\ r = -1 * 32768)%Q
        \/ (-1 <= q /\ q < 0 /\ r = q * 32768)%Q
        \/ (0 <= q /\ q <= 1 /\ r = q * 32767)%Q
        \/ (1 <= q /\ r = 1 * 32767)%Q).
Proof.
  unfold min_one. destruct (Qle_bool q 1) eqn:U.
  - apply Qle_bool_iff in U. unfold max_minus_one.
    destruct (Qle_bool (-1) q) eqn:L.
    + apply Qle_bool_iff in L. unfold scale. destruct (Qle_bool 0 q) eqn:S.
      * apply Qle_bool_iff in S. eexists. split; [reflexivity|]. right. right. left.
        now repeat split.
      * assert (q < 0)%Q.
        { apply Qnot_le_lt. intros C. apply Qle_bool_iff in C. congruence. }
        eexists. split; [reflexivity|]. right. left. now repeat split.
    + assert (q < -1)%Q.
      { apply Qnot_le_lt. intros C. apply Qle_bool_iff in C. congruence. }
      eexists. split; [reflexivity|]. left. split; [now apply Qlt_le_weak | reflexivity].
  - assert (1 < q)%Q.
    { apply Qnot_le_lt. intros C. apply Qle_bool_iff in C. congruence. }
    eexists. split; [reflexivity|]. right. right. right.
    split; [now apply Qlt_le_weak | reflexivity].
Qed.

Lemma scaled_range (q r : Q) :
  ((q <= -1 /\ r = -1 * 32768)
   \/ (-1 <= q /\ q < 0 /\ r = q * 32768)
   \/ (0 <= q /\ q <= 1 /\ r = q * 32767)
   \/ (1 <= q /\ r = 1 * 32767))%Q ->
  (-32768 <= r <= 32767)%Q.
Proof.
  intros [[H ->] | [(H1 & H2 & ->) | [(H1 & H2 & ->) | [H ->]]]]; split; lra.
Qed.

Lemma pcm_sample_range (x : number) : -32768 <= pcm_sample x <= 32767.
Proof.
  unfold pcm_sample.
  destruct (scale (max_minus_one (min_one x))) as [| |r]; cbn [ToInt16]; try lia.
  pose proof (Z.mod_pos_bound (truncate r + 32768) 65536 eq_refl). lia.
Qed.

(** X25. A sample is clamped before it is scaled, so the 16-bit value
    never wraps around: a finite sample of 1 or more gives 32767, one of
    -1 or less gives -32768, one in between is scaled by [0x7FFF] when it
    is not negative and by [0x8000] when it is, and cut to its integer
    part; positive infinity gives 32767, negative infinity -32768; and
    not-a-number gives 0. *)
Theorem pcm_sample_saturates (q : Q) :
  pcm_sample (Finite q)
  = (if Qle_bool 1 q then 32767
     else if Qle_bool q (-1) then -32768
     else if Qle_bool 0 q then truncate (q * 32767)
     else truncate (q * 32768))
  /\ pcm_sample (Infinity false) = 32767
  /\ pcm_sample (Infinity true) = -32768
  /\ pcm_sample NaN = 0.
Proof.
  split; [|repeat split].
  destruct (scaled_finite q) as (r & E & C). unfold pcm_sample. rewrite E.
  rewrite ToInt16_in_range by exact (scaled_range q r C).
  destruct C as [[H ->] | [(H1 & H2 & ->) | [(H1 & H2 & ->) | [H ->]]]].
  - destruct (Qle_bool 1 q) eqn:A; [apply Qle_bool_iff in A; lra|].
    apply Qle_bool_iff in H. now rewrite H.
  - destruct (Qle_bool 1 q) eqn:A; [apply Qle_bool_iff in A; lra|].
    destruct (Qle_bool q (-1)) eqn:B.
    + apply Qle_bool_iff in B. assert (q == -1)%Q as Eq by lra.
      destruct q as [n d]. unfold Qeq in Eq. cbn in Eq.
      unfold truncate. cbn. rewrite Pos.mul_1_r.
      replace (n * 32768) with (-32768 * Z.pos d) by lia.
      apply Z.quot_mul. lia.
    + destruct (Qle_bool 0 q) eqn:D; [apply Qle_bool_iff in D; lra | reflexivity].
  - destruct (Qle_bool 1 q) eqn:A.
    + apply Qle_bool_iff in A. assert (q == 1)%Q as Eq by lra.
      destruct q as [n d]. unfold Qeq in Eq. cbn in Eq.
      unfold truncate. cbn. rewrite Pos.mul_1_r.
      replace (n * 32767) with (32767 * Z.pos d) by lia.
      apply Z.quot_mul. lia.
    + destruct (Qle_bool q (-1)) eqn:B; [apply Qle_bool_iff in B; lra|].
      apply Qle_bool_iff in H1. now rewrite H1.
  - apply Qle_bool_iff in H. now rewrite H.
Qed.

(** X26. The encoding keeps the order of the samples: a larger sample
    never gives a smaller 16-bit value. *)
Theorem pcm_sample_monotone (q r : Q) :
  (q <= r)%Q -> pcm_sample (Finite q) <= pcm_sample (Finite r).
Proof.
  intros H.
  destruct (scaled_finite q) as (a & Ea & Ca), (scaled_finite r) as (b & Eb & Cb).
  unfold pcm_sample. rewrite Ea, Eb.
  rewrite !ToInt16_in_range by eauto using scaled_range.
  apply truncate_mono.
  destruct Ca as [[A ->] | [(A1 & A2 & ->) | [(A1 & A2 & ->) | [A ->]]]];
    destruct Cb as [[B ->] | [(B1 & B2 & ->) | [(B1 & B2 & ->) | [B ->]]]]; lra.
Qed.

Lemma pcm_sample_monotone_witness :
  (-1 # 2 <= 1 # 3)%Q /\ pcm_sample (Finite (-1 # 2)) <= pcm_sample (Finite (1 # 3)).
Proof.
  assert (H : (-1 # 2 <= 1 # 3)%Q) by (unfold Qle; cbn; lia).
  split; [exact H | exact (pcm_sample_monotone (-1 # 2) (1 # 3) H)].
Defined.

Lemma set_index_pair {A} (arr : list A) :
  forall (offset : nat) (a b : A),
    (offset + 2 <= List.length arr)%nat ->
    DesignStudio.set_index (DesignStudio.set_index arr offset a) (S offset) b
    = (firstn offset arr ++ a :: b :: skipn (offset + 2) arr)%list.
Proof.
  induction arr as [|x arr IH]; intros offset a b H; [cbn in H; lia|].
  destruct offset as [|offset].
  - destruct arr as [|y arr]; [cbn in H; lia | reflexivity].
  - cbn in H. cbn. f_equal. apply IH. lia.
Qed.

Lemma setInt16_writes (output : list Z) (offset : nat) (x : number) :
  (offset + 2 <= List.length output)%nat ->
  setInt16 output offset (scale (max_minus_one (min_one x)))
  = Ok (firstn offset output ++ int16_le (pcm_sample x)
        ++ skipn (offset + 2) output)%list.
Proof.
  intros H. unfold setInt16. apply Nat.leb_le in H as L. rewrite L.
  cbv zeta. now rewrite set_index_pair.
Qed.

Lemma firstn_splice {A} (pre mid post : list A) (n : nat) :
  List.length pre = n -> List.length mid = 2%nat ->
  firstn (n + 2) (pre ++ mid ++ post)%list = (pre ++ mid)%list.
Proof.
  intros <- Hmid. rewrite app_assoc.
  replace (List.length pre + 2)%nat with (List.length (pre ++ mid)%list)
    by (rewrite length_app; lia).
  rewrite firstn_app, firstn_all, Nat.sub_diag. cbn [firstn]. apply app_nil_r.
Qed.

Lemma skipn_splice {A} (pre mid post : list A) (n k : nat) :
  List.length pre = n -> List.length mid = 2%nat ->
  skipn (n + 2 + k) (pre ++ mid ++ post)%list = skipn k post.
Proof.
  intros <- Hmid. rewrite app_assoc.
  assert (E : List.length (pre ++ mid)%list = (List.length pre + 2)%nat)
    by (rewrite length_app; lia).
  rewrite skipn_app, skipn_all2 by lia.
  cbn [app]. f_equal. lia.
Qed.

Lemma floatTo16BitPCM_window (input : list number) :
  forall (output : list Z) (offset : nat),
    (offset + 2 * List.length input <= List.length output)%nat ->
    floatTo16BitPCM output offset input
    = Ok (firstn offset output
          ++ flat_map (fun x => int16_le (pcm_sample x)) input
          ++ skipn (offset + 2 * List.length input) output)%list.
Proof.
  induction input as [|x rest IH]; intros output offset H.
  - cbn. rewrite Nat.add_0_r. now rewrite firstn_skipn.
  - cbn [List.length] in H. cbn [floatTo16BitPCM]. cbv zeta.
    rewrite setInt16_writes by lia.
    assert (Hpre : List.length (firstn offset output) = offset)
      by (apply firstn_length_le; lia).
    rewrite IH.
    + f_equal. cbn [flat_map].
      rewrite (firstn_splice _ (int16_le (pcm_sample x)) _ offset Hpre eq_refl).
      rewrite (skipn_splice _ (int16_le (pcm_sample x)) _ offset
                 (2 * List.length rest) Hpre eq_refl).
      rewrite skipn_skipn, <- !app_assoc.
      replace (2 * List.length rest + (offset + 2))%nat
        with (offset + 2 * List.length (x :: rest))%nat
        by (cbn [List.length]; lia).
      reflexivity.
    + rewrite !length_app, length_skipn, Hpre.
      change (List.length (int16_le (pcm_sample x))) with 2%nat. lia.
Qed.

Lemma decode_int16_le_samples (input : list number) :
  decode_int16_le (flat_map (fun x => int16_le (pcm_sample x)) input)
  = map pcm_sample input.
Proof.
  induction input as [|x rest IH]; [reflexivity|].
  cbn [flat_map map int16_le app decode_int16_le]. cbv zeta.
  rewrite IH. f_equal.
  pose proof (pcm_sample_range x) as R.
  set (u := pcm_sample x mod 65536).
  assert (E : u mod 256 + 256 * (u / 256) = u).
  { pose proof (Z.div_mod u 256). lia. }
  rewrite E. subst u.
  destruct (Z.ltb_spec (pcm_sample x mod 65536) 32768) as [L | L].
  - destruct (Z.le_gt_cases 0 (pcm_sample x)) as [P | N].
    + rewrite Z.mod_small in * by lia. reflexivity.
    + replace (pcm_sample x) with (pcm_sample x + 65536 - 1 * 65536) in L by lia.
      rewrite Zminus_mod, Z_mod_mult, Z.sub_0_r, Z.mod_mod in L by lia.
      rewrite Z.mod_small in L by lia. lia.
  - destruct (Z.le_gt_cases 0 (pcm_sample x)) as [P | N].
    + rewrite Z.mod_small in L by lia. lia.
    + replace (pcm_sample x) with (pcm_sample x + 65536 - 1 * 65536) at 1 by lia.
      rewrite Zminus_mod, Z_mod_mult, Z.sub_0_r, Z.mod_mod by lia.
      rewrite Z.mod_small by lia. lia.
Qed.

(** X27. [floatTo16BitPCM] writes a window and nothing else: when the
    buffer holds two bytes for each sample from [offset] on, the bytes
    before [offset] and the bytes after the last sample are left as they
    were, and between them stand the samples in their order, each as its
    two bytes, low byte first; reading those bytes back as 16-bit
    little-endian integers gives the sample values. *)
Theorem floatTo16BitPCM_writes_window (output : list Z) (offset : nat)
    (input : list number) :
  (offset + 2 * List.length input <= List.length output)%nat ->
  exists window,
    floatTo16BitPCM output offset input
    = Ok (firstn offset output ++ window
          ++ skipn (offset + 2 * List.length input) output)%list
    /\ List.length window = (2 * List.length input)%nat
    /\ decode_int16_le window = map pcm_sample input.
Proof.
  intros H. exists (flat_map (fun x => int16_le (pcm_sample x)) input).
  split; [now apply floatTo16BitPCM_window|].
  split; [|apply decode_int16_le_samples].
  clear H. induction input as [|x rest IH]; [reflexivity|].
  cbn [flat_map]. rewrite length_app, IH. cbn. lia.
Qed.

Lemma floatTo16BitPCM_writes_window_witness :
  exists window,
    floatTo16BitPCM [7; 7; 7; 7; 7; 7; 7] 1 [Finite (1 # 2); Finite (-2); NaN]
    = Ok (firstn 1 [7; 7; 7; 7; 7; 7; 7] ++ window
          ++ skipn (1 + 2 * 3) [7; 7; 7; 7; 7; 7; 7])%list
    /\ List.length window = (2 * 3)%nat
    /\ decode_int16_le window
       = map pcm_sample [Finite (1 # 2); Finite (-2); NaN].
Proof.
  apply (floatTo16BitPCM_writes_window [7; 7; 7; 7; 7; 7; 7] 1
           [Finite (1 # 2); Finite (-2); NaN]).
  cbn. lia.
Defined.

(** X28. When the buffer is too short for the samples, [floatTo16BitPCM]
    ends in the RangeError of [setInt16] (after the samples that did fit,
    if any), whatever the samples are. *)
Theorem floatTo16BitPCM_out_of_bounds (output : list Z) (offset : nat)
    (input : list number) :
  (List.length output < offset + 2 * List.length input)%nat ->
  input <> [] ->
  floatTo16BitPCM output offset input = Throw RangeError.
Proof.
  revert output offset. induction input as [|x rest IH]; intros output offset H Hne;
    [contradiction|].
  cbn [floatTo16BitPCM]. cbv zeta.
  destruct (Nat.le_gt_cases (offset + 2) (List.length output)) as [Fit | Short].
  - rewrite setInt16_writes by exact Fit.
    assert (Hlen : List.length (firstn offset output ++ int16_le (pcm_sample x)
                                ++ skipn (offset + 2) output)%list
                   = List.length output).
    { rewrite !length_app, firstn_length_le, length_skipn by lia. cbn. lia. }
    apply IH.
    + rewrite Hlen. cbn [List.length] in H. lia.
    + intros ->. cbn in H. lia.
  - unfold setInt16. apply Nat.leb_gt in Short. now rewrite Short.
Qed.

Lemma floatTo16BitPCM_out_of_bounds_witness :
  floatTo16BitPCM [0; 0; 0] 0 [Finite 1; Finite 0] = Throw RangeError.
Proof.
  apply (floatTo16BitPCM_out_of_bounds [0; 0; 0] 0 [Finite 1; Finite 0]).
  - cbn. lia.
  - discriminate.
Defined.

(** X29. [base64EncodeAudio] never fails: the buffer it allocates holds
    exactly two bytes for each sample, so what is handed to [btoa] is the
    samples in their order as 16-bit little-endian integers, each byte
    between 0 and 255. *)
Theorem base64EncodeAudio_encodes_samples (btoa : list Z -> string)
    (float32Array : list number) :
  exists bytes,
    base64EncodeAudio btoa float32Array = Ok (btoa bytes)
    /\ List.length bytes = (2 * List.length float32Array)%nat
    /\ decode_int16_le bytes = map pcm_sample float32Array
    /\ Forall (fun b => 0 <= b < 256) bytes.
Proof.
  exists (flat_map (fun x => int16_le (pcm_sample x)) float32Array).
  unfold base64EncodeAudio. cbv zeta.
  rewrite floatTo16BitPCM_window by (rewrite repeat_length; lia).
  cbn [firstn app]. rewrite skipn_all2 by (rewrite repeat_length; lia).
  rewrite app_nil_r. split; [reflexivity|].
  split; [|split; [apply decode_int16_le_samples|]].
  - induction float32Array as [|x rest IH]; [reflexivity|].
    cbn [flat_map]. rewrite length_app, IH. cbn. lia.
  - apply Forall_forall. intros b Hb. apply in_flat_map in Hb as (x & _ & Hb).
    unfold int16_le in Hb. cbv zeta in Hb.
    pose proof (Z.mod_pos_bound (pcm_sample x) 65536 eq_refl) as U.
    destruct Hb as [<- | [<- | []]].
    + apply Z.mod_pos_bound. lia.
    + split; [apply Z.div_pos; lia | apply Z.div_lt_upper_bound; lia].
Qed.

End AudioFacts.
